(** * tcglog-parser: the binary log decoder and the per-event validator

    A shallow embedding of [log.go] (record decoder, format detection, log
    handle) and of [checkEvent] (per-event structural rules), followed by the
    properties of the specification that concern them.

    Conventions of the embedding:
    - a Go [uintN] is a [Z] in [0, 2^N); a byte is a [Byte.byte];
    - the byte source is a [bytes.Reader] (the one [NewLogFromByteReader]
      passes in): a byte slice and a cursor, threaded through a state monad;
    - a Go call that returns [(value, error)] returns a pair whose second
      component is [option error], with [None] for [nil];
    - the executing machine's byte order is a parameter ([ByteOrder]), since
      [nativeEndian_] reinterprets raw memory. *)

From Stdlib Require Import ZArith List Lia.
From Stdlib Require Import Strings.String Strings.Ascii Strings.Byte.
From stdpp Require Import base option list gmap strings pretty.

Import ListNotations.
Local Open Scope Z_scope.

Abbreviation byte := Byte.byte.

#[global] Instance byte_eq_decision : EqDecision byte := Byte.byte_eq_dec.

(** ** Constants declared outside the translated files

    [AlgorithmSha1] .. [AlgorithmSha512], the [EventType...] codes, the two
    [Format] values and [SeparatorEventTypeError] are declared in a file of
    the package that is not among the translated ones.  They are taken as
    parameters.  The inequalities are the ones the Go compiler enforces
    (duplicate keys in the [knownAlgorithms] literal and duplicate constant
    cases in the [switch] of [checkEvent] are compile errors), plus the two
    formats being different values. *)

Class Constants := {
  AlgorithmSha1 : Z;
  AlgorithmSha256 : Z;
  AlgorithmSha384 : Z;
  AlgorithmSha512 : Z;
  EventTypePostCode : Z;
  EventTypeNoAction : Z;
  EventTypeSeparator : Z;
  EventTypeEventTag : Z;
  Format1_2 : Z;
  Format2 : Z;
  SeparatorEventTypeError : Z;
  algorithms_distinct :
    NoDup [AlgorithmSha1; AlgorithmSha256; AlgorithmSha384; AlgorithmSha512];
  event_types_distinct :
    NoDup [EventTypePostCode; EventTypeNoAction; EventTypeSeparator;
           EventTypeEventTag];
  formats_distinct : Format1_2 ≠ Format2
}.

(** The values the TCG algorithm registry and the PC Client specifications
    assign; used wherever a property is evaluated on a concrete log. *)
Definition tcg : Constants := {|
  AlgorithmSha1 := 4;
  AlgorithmSha256 := 11;
  AlgorithmSha384 := 12;
  AlgorithmSha512 := 13;
  EventTypePostCode := 1;
  EventTypeNoAction := 3;
  EventTypeSeparator := 4;
  EventTypeEventTag := 6;
  Format1_2 := 1;
  Format2 := 2;
  SeparatorEventTypeError := 1;
  algorithms_distinct := ltac:(by apply (bool_decide_unpack _));
  event_types_distinct := ltac:(by apply (bool_decide_unpack _));
  formats_distinct := ltac:(discriminate)
|}.

(** ** Data model ([log.go], lines 14-47) *)

Definition Format := Z.
Definition PCRIndex := Z.
Definition EventType := Z.
Definition AlgorithmId := Z.
Definition Digest := list byte.
Abbreviation DigestMap := (gmap Z (list byte)).

(** [Event]: the payload is a byte slice in [log.go] and an [EventData] in
    the validator, hence the parameter. *)
Record Event (D : Type) := mkEvent {
  ePCRIndex : PCRIndex;
  eEventType : EventType;
  eDigests : DigestMap;
  eData : D
}.
Arguments mkEvent {D} _ _ _ _.
Arguments ePCRIndex {D} _.
Arguments eEventType {D} _.
Arguments eDigests {D} _.
Arguments eData {D} _.

(** The errors a decoder call can return: the two sentinels of package [io],
    the package's own [InvalidLogError], and [bytes.Reader.Seek]'s error. *)
Inductive error :=
  | EOF
  | ErrUnexpectedEOF
  | InvalidLogError (s : string)
  | SeekError (s : string).

#[global] Instance error_eq_decision : EqDecision error.
Proof. solve_decision. Defined.

(** ** Byte order ([log.go], lines 49-85)

    The [unsafe.Pointer] cast of [&b[0]] to a pointer to [uint32] reads the
    four bytes at [b] as the machine stores a [uint32]: least significant byte first on a
    little-endian host, most significant byte first on a big-endian one. *)

Inductive ByteOrder := LittleEndian | BigEndian.

Definition byte_to_Z (b : byte) : Z := Z.of_N (Byte.to_N b).

Definition byte_of_Z (z : Z) : byte :=
  default x00 (Byte.of_N (Z.to_N (Z.land z 255))).

(** The value of a sequence of bytes stored least significant first. *)
Fixpoint le_value (bs : list byte) : Z :=
  match bs with
  | [] => 0
  | b :: bs' => Z.lor (byte_to_Z b) (Z.shiftl (le_value bs') 8)
  end.

(** The [n] low bytes of [v], least significant first. *)
Fixpoint le_bytes (n : nat) (v : Z) : list byte :=
  match n with
  | O => []
  | S n' => byte_of_Z v :: le_bytes n' (Z.shiftr v 8)
  end.

Definition load (host : ByteOrder) (bs : list byte) : Z :=
  match host with
  | LittleEndian => le_value bs
  | BigEndian => le_value (rev bs)
  end.

Definition store (host : ByteOrder) (n : nat) (v : Z) : list byte :=
  match host with
  | LittleEndian => le_bytes n v
  | BigEndian => rev (le_bytes n v)
  end.

(** [_ = b[1]] panics on a slice shorter than the integer: [None]. *)
Definition Uint16 (host : ByteOrder) (b : list byte) : option Z :=
  if decide (2 ≤ length b)%nat then Some (load host (take 2 b)) else None.

Definition Uint32 (host : ByteOrder) (b : list byte) : option Z :=
  if decide (4 ≤ length b)%nat then Some (load host (take 4 b)) else None.

Definition PutUint16 (host : ByteOrder) (v : Z) : list byte := store host 2 v.
Definition PutUint32 (host : ByteOrder) (v : Z) : list byte := store host 4 v.

(** ** The byte source

    [bytes.Reader]: the slice [s] and the cursor [i].  Every operation is a
    state transformer on it. *)

Record Reader := mkReader { buf : list byte; pos : nat }.

Definition M (A : Type) : Type := Reader → A * Reader.

Definition ret {A} (a : A) : M A := λ r, (a, r).
Definition bind {A B} (c : M A) (k : A → M B) : M B :=
  λ r, let '(a, r') := c r in k a r'.

Notation "'let*' x ':=' c 'in' k" := (bind c (λ x, k))
  (at level 10, x pattern, c at level 100, k at level 200).

Definition zeros (n : nat) : list byte := replicate n x00.

(** The bytes from the cursor to the end of the slice. *)
Definition remaining (r : Reader) : list byte := drop (pos r) (buf r).

(** [bytes.Reader.Read(b)] with [len(b) = n]: at the end of the slice it
    returns [0, io.EOF]; otherwise it copies what is there, up to [n] bytes,
    and reports no error.  The buffer was made by [make], so the bytes that
    are not overwritten are zero. *)
Definition Read (n : nat) : M (list byte * nat * option error) := λ r,
  if decide (length (buf r) ≤ pos r)%nat then ((zeros n, 0%nat, Some EOF), r)
  else
    let k := (n `min` length (remaining r))%nat in
    ((take k (remaining r) ++ zeros (n - k), k, None),
     mkReader (buf r) (pos r + k)).

(** [io.ReadFull(r, b)] with [len(b) = n] over a [bytes.Reader]: all [n]
    bytes or an error, which is [io.EOF] only if no byte was read and
    [io.ErrUnexpectedEOF] if some but not all were.  Reading zero bytes makes
    no call to [Read] and succeeds. *)
Definition ReadFull (n : nat) : M (list byte * option error) := λ r,
  if decide (n = 0)%nat then (([], None), r)
  else if decide (length (remaining r) = 0)%nat then ((zeros n, Some EOF), r)
  else if decide (length (remaining r) < n)%nat then
    ((remaining r ++ zeros (n - length (remaining r)), Some ErrUnexpectedEOF),
     mkReader (buf r) (pos r + length (remaining r)))
  else ((take n (remaining r), None), mkReader (buf r) (pos r + n)).

Inductive Whence := SeekStart | SeekCurrent.

(** [bytes.Reader.Seek]: a negative target is an error and leaves the
    cursor alone. *)
Definition Seek (offset : Z) (whence : Whence) : M (Z * option error) := λ r,
  let abs := match whence with
             | SeekStart => offset
             | SeekCurrent => Z.of_nat (pos r) + offset
             end in
  if decide (abs < 0) then
    ((0, Some (SeekError "bytes.Reader.Seek: negative position"%string)), r)
  else ((abs, None), mkReader (buf r) (Z.to_nat abs)).

Section Decoder.
Context `{K : Constants}.
Variable host : ByteOrder.

Definition knownAlgorithms : gmap Z Z :=
  <[AlgorithmSha1 := 20]> (<[AlgorithmSha256 := 32]>
    (<[AlgorithmSha384 := 48]> (<[AlgorithmSha512 := 64]> ∅))).

(** [knownAlgorithms[alg]]: the zero value when the key is absent. *)
Definition DigestLength (alg : AlgorithmId) : Z :=
  default 0 (knownAlgorithms !! alg).

(** [binary.Read(r, nativeEndian, &x)] for a 32-bit and a 16-bit [x]:
    [io.ReadFull] into a buffer of the size of [x], then the byte order's
    decoder, which gets exactly the bytes it asks for.  On an error [x]
    keeps its zero value. *)
Definition binary_Read32 : M (Z * option error) :=
  let* (bs, err) := ReadFull 4 in
  match err with
  | Some e => ret (0, Some e)
  | None => ret (default 0 (Uint32 host bs), None)
  end.

Definition binary_Read16 : M (Z * option error) :=
  let* (bs, err) := ReadFull 2 in
  match err with
  | Some e => ret (0, Some e)
  | None => ret (default 0 (Uint16 host bs), None)
  end.

Definition maxPCRIndex : PCRIndex := 31.

(** What [ReadNextEvent] returns: a pointer to an [Event], a [bool] and an
    [error]. *)
Definition Result : Type := option (Event (list byte)) * bool * option error.

(** [if err != nil { return nil, partial, err }] *)
Definition check {A} (c : M (A * option error)) (partial : bool)
    (k : A → M Result) : M Result :=
  let* (a, err) := c in
  match err with
  | Some e => ret (None, partial, Some e)
  | None => k a
  end.

Notation "'try' x ':=' c 'else_partial' p 'in' k" := (check c p (λ x, k))
  (at level 10, x pattern, c at level 100, p at level 0, k at level 200).

Definition invalidPCRIndex (pcrIndex : Z) : error :=
  InvalidLogError ("Invalid PCR index '" +:+ pretty pcrIndex +:+ "'")%string.

(** [stream_1_2.ReadNextEvent] ([log.go], lines 94-133).  The digest is read
    with [Read], not [io.ReadFull]: a short read is not an error. *)
Definition ReadNextEvent_1_2 : M Result :=
  try pcrIndex := binary_Read32 else_partial false in
  if decide (pcrIndex > maxPCRIndex) then
    ret (None, true, Some (invalidPCRIndex pcrIndex))
  else
  try eventType := binary_Read32 else_partial true in
  try digest :=
    (let* (b, _, err) := Read (Z.to_nat (DigestLength AlgorithmSha1)) in
     ret (b, err)) else_partial true in
  let digests : DigestMap := <[AlgorithmSha1 := digest]> ∅ in
  try eventSize := binary_Read32 else_partial true in
  try event := ReadFull (Z.to_nat eventSize) else_partial true in
  ret (Some (mkEvent pcrIndex eventType digests event), false, None).

(** [%04x] of a [uint16]: four lower-case hexadecimal digits. *)
Definition hex_digit (n : Z) : ascii :=
  default "0"%char (String.get (Z.to_nat n) "0123456789abcdef").

Definition fmt_04x (v : Z) : string :=
  String (hex_digit (Z.land (Z.shiftr v 12) 15))
    (String (hex_digit (Z.land (Z.shiftr v 8) 15))
      (String (hex_digit (Z.land (Z.shiftr v 4) 15))
        (String (hex_digit (Z.land v 15)) EmptyString))).

Record algorithmSize := mkAlgorithmSize {
  algorithmId : AlgorithmId;
  digestSize : Z
}.

Record stream_2 := mkStream_2 {
  algorithmSizes : list algorithmSize;
  readFirstEvent : bool
}.

(** The inner loop of [stream_2.ReadNextEvent] (lines 184-189): the size of
    the first entry for [alg]; [None] when [j] reaches
    [len(s.algorithmSizes)]. *)
Fixpoint findDigestSize (sizes : list algorithmSize) (alg : AlgorithmId)
    : option Z :=
  match sizes with
  | [] => None
  | a :: sizes' =>
      if decide (algorithmId a = alg) then Some (digestSize a)
      else findDigestSize sizes' alg
  end.

Definition algorithmNotFound (alg : AlgorithmId) : error :=
  InvalidLogError ("Entry for algorithm '" +:+ fmt_04x alg +:+
                   "' not found in log header")%string.

(** The digest loop (lines 176-205), [n] iterations left.  Every way out of
    it with an error returns [nil, true, err]. *)
Fixpoint readDigests (sizes : list algorithmSize) (n : nat)
    (digests : DigestMap) : M (DigestMap * option error) :=
  match n with
  | O => ret (digests, None)
  | S n' =>
      let* (alg, err) := binary_Read16 in
      match err with
      | Some e => ret (digests, Some e)
      | None =>
          match findDigestSize sizes alg with
          | None => ret (digests, Some (algorithmNotFound alg))
          | Some size =>
              let* (digest, err) := ReadFull (Z.to_nat size) in
              match err with
              | Some e => ret (digests, Some e)
              | None =>
                  readDigests sizes n'
                    (if decide (is_Some (knownAlgorithms !! alg))
                     then <[alg := digest]> digests else digests)
              end
          end
      end
  end.

(** [stream_2.ReadNextEvent] ([log.go], lines 147-223), after the first
    event. *)
Definition ReadNextEvent_2_rest (sizes : list algorithmSize) : M Result :=
  try pcrIndex := binary_Read32 else_partial false in
  if decide (pcrIndex > maxPCRIndex) then
    ret (None, true, Some (invalidPCRIndex pcrIndex))
  else
  try eventType := binary_Read32 else_partial true in
  try count := binary_Read32 else_partial true in
  try digests := readDigests sizes (Z.to_nat count) ∅ else_partial true in
  try eventSize := binary_Read32 else_partial true in
  try event := ReadFull (Z.to_nat eventSize) else_partial true in
  ret (Some (mkEvent pcrIndex eventType digests event), false, None).

(** The receiver is a pointer: the call returns the updated [stream_2]. *)
Definition ReadNextEvent_2 (s : stream_2) : M (Result * stream_2) :=
  if negb (readFirstEvent s) then
    let* res := ReadNextEvent_1_2 in
    ret (res, mkStream_2 (algorithmSizes s) true)
  else
    let* res := ReadNextEvent_2_rest (algorithmSizes s) in
    ret (res, s).

(** The [stream] interface and its two implementations. *)
Inductive stream :=
  | Stream_1_2
  | Stream_2 (s : stream_2).

Definition ReadNextEvent (s : stream) : M (Result * stream) :=
  match s with
  | Stream_1_2 => let* res := ReadNextEvent_1_2 in ret (res, Stream_1_2)
  | Stream_2 s2 => let* (res, s2') := ReadNextEvent_2 s2 in ret (res, Stream_2 s2')
  end.

Record Log := mkLog {
  lFormat : Format;
  lAlgorithms : list AlgorithmId;
  lstream : stream
}.

Definition isZeroDigest (d : list byte) : bool :=
  forallb (λ b, bool_decide (b = x00)) d.

Definition signature : list byte :=
  String.list_byte_of_string "Spec ID Event03" ++ [x00].

(** The loop of [parseTCG2LogHeader] (lines 262-274) over the reader on
    [event.Data[24:]]; [None] is the [return nil] of a failed read. *)
Fixpoint readAlgorithmSizes (n : nat) : M (option (list algorithmSize)) :=
  match n with
  | O => ret (Some [])
  | S n' =>
      let* (alg, err) := binary_Read16 in
      match err with
      | Some _ => ret None
      | None =>
          let* (size, err) := binary_Read16 in
          match err with
          | Some _ => ret None
          | None =>
              let* tl := readAlgorithmSizes n' in
              ret (cons (mkAlgorithmSize alg size) <$> tl)
          end
      end
  end.

(** [parseTCG2LogHeader] ([log.go], lines 225-277).  [None] is the [nil]
    slice; a header that declares no algorithm gives the empty, non-nil
    slice [Some []]. *)
Definition parseTCG2LogHeader (event : Event (list byte))
    : option (list algorithmSize) :=
  if decide (ePCRIndex event ≠ 0) then None
  else if decide (eEventType event ≠ EventTypeNoAction) then None
  else if negb (isZeroDigest (default [] (eDigests event !! AlgorithmSha1)))
  then None
  else if decide (length (eData event) < 29)%nat then None
  else if decide (take 16 (eData event) ≠ signature) then None
  else
    let algSizesStream := mkReader (drop 24 (eData event)) 0 in
    let '((numAlgorithms, err), r) := binary_Read32 algSizesStream in
    match err with
    | Some _ => None
    | None => fst (readAlgorithmSizes (Z.to_nat numAlgorithms) r)
    end.

Definition digestSizeMismatch (a : algorithmSize) (knownSize : Z) : error :=
  InvalidLogError
    ("Digest size in log header for algorithm '" +:+ fmt_04x (algorithmId a)
     +:+ "' doesn't match expected size (size: " +:+ pretty (digestSize a)
     +:+ ", expected " +:+ pretty knownSize +:+ ")")%string.

(** The loop of [newLogFromReader] over [algSizes] (lines 304-316). *)
Fixpoint collectAlgorithms (algSizes : list algorithmSize)
    (algorithms : list AlgorithmId) : error + list AlgorithmId :=
  match algSizes with
  | [] => inr algorithms
  | a :: rest =>
      match knownAlgorithms !! algorithmId a with
      | Some knownSize =>
          if decide (knownSize ≠ digestSize a) then
            inl (digestSizeMismatch a knownSize)
          else collectAlgorithms rest (algorithms ++ [algorithmId a])
      | None => collectAlgorithms rest algorithms
      end
  end.

(** [newLogFromReader] ([log.go], lines 279-324).  The legacy decoder never
    returns a [nil] event with a [nil] error ([ReadNextEvent_1_2_ends]
    below), so the branch for it is never taken; Go would dereference the
    [nil] event there. *)
Definition newLogFromReader : M (option Log * option error) :=
  let* (start, err) := Seek 0 SeekCurrent in
  match err with
  | Some e => ret (None, Some e)
  | None =>
      let* (res, _) := ReadNextEvent Stream_1_2 in
      match res with
      | (_, _, Some e) =>
          ret (None, Some (if decide (e = EOF) then ErrUnexpectedEOF else e))
      | (None, _, None) => ret (None, None)
      | (Some event, _, None) =>
          let* (_, err) := Seek start SeekStart in
          match err with
          | Some e => ret (None, Some e)
          | None =>
              match parseTCG2LogHeader event with
              | Some algSizes =>
                  match collectAlgorithms algSizes [] with
                  | inl e => ret (None, Some e)
                  | inr algorithms =>
                      ret (Some (mkLog Format2 algorithms
                                   (Stream_2 (mkStream_2 algSizes false))),
                           None)
                  end
              | None =>
                  ret (Some (mkLog Format1_2 [AlgorithmSha1] Stream_1_2), None)
              end
          end
      end
  end.

(** [Log.HasAlgorithm] *)
Definition HasAlgorithm (l : Log) (alg : AlgorithmId) : bool :=
  existsb (λ a, bool_decide (a = alg)) (lAlgorithms l).

(** [Log.NextEvent] ([log.go], lines 429-435); the stream is held by
    pointer, so the call returns the updated log as well. *)
Definition NextEvent (l : Log)
    : M (option (Event (list byte)) * option error * Log) :=
  let* (res, s') := ReadNextEvent (lstream l) in
  let '(event, partial, err) := res in
  let err' := if partial && bool_decide (err = Some EOF)
              then Some ErrUnexpectedEOF else err in
  ret (event, err', mkLog (lFormat l) (lAlgorithms l) s').

End Decoder.

(** ** The event validator ([checkEvent] and [hash]) *)

(** Modelled from the spec: the [EventData] interface and the
    [SeparatorEventData] type that [checkEvent] asserts [e.Data] to be are
    declared in a file that is not among the translated ones.  A payload
    either decoded as a recognized separator record, which carries its
    separator type, or it did not; both keep the raw bytes that [Bytes()]
    returns. *)
Inductive EventData :=
  | SeparatorEventData (sType : Z) (data : list byte)
  | OtherEventData (data : list byte).

Definition Bytes (d : EventData) : list byte :=
  match d with
  | SeparatorEventData _ data => data
  | OtherEventData data => data
  end.

Inductive checkError :=
  | UnexpectedEventTypeError (eventType : EventType) (pcrIndex : PCRIndex)
  | UnexpectedDigestValueError (eventType : EventType) (alg : AlgorithmId)
      (digest : Digest)
  | InvalidEventDataError (eventType : EventType) (data : EventData).

(** A call either returns an [error] ([None] for [nil]) or panics. *)
Inductive outcome :=
  | Returns (err : option checkError)
  | Panics (msg : string).

Section Validator.
Context `{K : Constants}.
Variable host : ByteOrder.
(** [sha1.Sum], [sha256.Sum256], [sha512.Sum384], [sha512.Sum512] of the Go
    standard library. *)
Variables sha1_Sum sha256_Sum256 sha512_Sum384 sha512_Sum512
  : list byte → list byte.

(** [hash]; [None] is the [panic("Unhandled algorithm")]. *)
Definition hash (data : list byte) (alg : AlgorithmId) : option (list byte) :=
  if decide (alg = AlgorithmSha1) then Some (sha1_Sum data)
  else if decide (alg = AlgorithmSha256) then Some (sha256_Sum256 data)
  else if decide (alg = AlgorithmSha384) then Some (sha512_Sum384 data)
  else if decide (alg = AlgorithmSha512) then Some (sha512_Sum512 data)
  else None.

(** [for alg, digest := range e.Digests] visits the entries of the map in
    an unspecified order: the loops take the sequence of the visit, and the
    properties quantify over every permutation of the map's entries. *)
Fixpoint checkZeroDigests (eventType : EventType)
    (visit : list (AlgorithmId * Digest)) : outcome :=
  match visit with
  | [] => Returns None
  | (alg, digest) :: visit' =>
      if negb (isZeroDigest digest) then
        Returns (Some (UnexpectedDigestValueError eventType alg digest))
      else checkZeroDigests eventType visit'
  end.

Fixpoint checkSeparatorDigests (eventType : EventType) (d : list byte)
    (visit : list (AlgorithmId * Digest)) : outcome :=
  match visit with
  | [] => Returns None
  | (alg, digest) :: visit' =>
      match hash d alg with
      | None => Panics "Unhandled algorithm"
      | Some h =>
          if decide (digest ≠ h) then
            Returns (Some (UnexpectedDigestValueError eventType alg digest))
          else checkSeparatorDigests eventType d visit'
      end
  end.

(** The bytes an error-indicating separator measures: a [uint32] 1 written
    through an [unsafe.Pointer] into a 4-byte slice. *)
Definition separatorErrorValue : list byte := PutUint32 host 1.

(** [checkEvent]; [visit] is the order in which [range e.Digests] yields
    the entries. *)
Definition checkEvent (e : Event EventData) (f : Format)
    (visit : list (AlgorithmId * Digest)) : outcome :=
  if decide (eEventType e = EventTypePostCode) then
    if decide (ePCRIndex e ≠ 0) then
      Returns (Some (UnexpectedEventTypeError (eEventType e) (ePCRIndex e)))
    else Returns None
  else if decide (eEventType e = EventTypeNoAction) then
    if decide (ePCRIndex e ≠ 0 ∧ ePCRIndex e ≠ 6) then
      Returns (Some (UnexpectedEventTypeError (eEventType e) (ePCRIndex e)))
    else checkZeroDigests (eEventType e) visit
  else if decide (eEventType e = EventTypeSeparator) then
    if decide (ePCRIndex e > 7) then
      Returns (Some (UnexpectedEventTypeError (eEventType e) (ePCRIndex e)))
    else
      match eData e with
      | OtherEventData _ =>
          Returns (Some (InvalidEventDataError (eEventType e) (eData e)))
      | SeparatorEventData sType _ =>
          let d := if decide (sType = SeparatorEventTypeError)
                   then separatorErrorValue else Bytes (eData e) in
          checkSeparatorDigests (eEventType e) d visit
      end
  else if decide (eEventType e = EventTypeEventTag) then
    if decide (ePCRIndex e > 4 ∨ (ePCRIndex e < 4 ∧ f = Format2)) then
      Returns (Some (UnexpectedEventTypeError (eEventType e) (ePCRIndex e)))
    else Returns None
  else Returns None.

End Validator.

(** ** Wire layouts

    The byte sequences the properties below are stated on: the two record
    layouts of the decoder, written with the byte order's own encoder. *)

(** The reader [n] bytes further. *)
Definition advance (n : nat) (r : Reader) : Reader :=
  mkReader (buf r) (pos r + n).

Definition wire_digests (host : ByteOrder)
    (entries : list (AlgorithmId * Digest)) : list byte :=
  concat (map (λ e, PutUint16 host e.1 ++ e.2) entries).

Definition wire_record_1_2 (host : ByteOrder) (pcrIndex : PCRIndex)
    (eventType : EventType) (digest : Digest) (data : list byte) : list byte :=
  PutUint32 host pcrIndex ++ PutUint32 host eventType ++ digest ++
  PutUint32 host (Z.of_nat (length data)) ++ data.

Definition wire_record_2 (host : ByteOrder) (pcrIndex : PCRIndex)
    (eventType : EventType) (entries : list (AlgorithmId * Digest))
    (data : list byte) : list byte :=
  PutUint32 host pcrIndex ++ PutUint32 host eventType ++
  PutUint32 host (Z.of_nat (length entries)) ++ wire_digests host entries ++
  PutUint32 host (Z.of_nat (length data)) ++ data.

(** The payload of a crypto-agile header: the signature, the 8 bytes of
    platform class, version and word size, the descriptor of the algorithm
    sizes, and the vendor information. *)
Definition wire_algorithm_sizes (host : ByteOrder)
    (sizes : list algorithmSize) : list byte :=
  concat (map (λ a, PutUint16 host (algorithmId a) ++
                    PutUint16 host (digestSize a)) sizes).

Definition wire_header_data (host : ByteOrder) (info : list byte)
    (sizes : list algorithmSize) (vendor : list byte) : list byte :=
  signature ++ info ++ PutUint32 host (Z.of_nat (length sizes)) ++
  wire_algorithm_sizes host sizes ++ vendor.

(** The value of a byte sequence read least significant byte first, most
    significant byte first, and in the order of a host. *)
Fixpoint little_endian (bs : list byte) : Z :=
  match bs with
  | [] => 0
  | b :: bs' => byte_to_Z b + 256 * little_endian bs'
  end.

Definition big_endian (bs : list byte) : Z := little_endian (rev bs).

Definition native_value (host : ByteOrder) (bs : list byte) : Z :=
  match host with
  | LittleEndian => little_endian bs
  | BigEndian => big_endian bs
  end.

Section Layouts.
Context `{K : Constants}.

(** A digest entry of a record is declared by the header: its identifier is
    a [uint16] and the header's first entry for it gives the length of its
    digest. *)
Definition declared (sizes : list algorithmSize)
    (e : AlgorithmId * Digest) : Prop :=
  0 ≤ e.1 < 2 ^ 16 ∧ findDigestSize sizes e.1 = Some (Z.of_nat (length e.2)).

(** The digest map after the entries of a record, in their order. *)
Definition retained (entries : list (AlgorithmId * Digest)) (m : DigestMap)
    : DigestMap :=
  foldl (λ m e, if decide (is_Some (knownAlgorithms !! e.1))
                then <[e.1 := e.2]> m else m) m entries.

(** How a call of [ReadNextEvent] on the reader [r] can end: with what it
    returns and the reader it leaves. *)
Definition ends (r : Reader) (res : Result) (r' : Reader) : Prop :=
  buf r' = buf r ∧
  match res with
  | (None, false, Some e) =>
      (e = EOF ∧ remaining r = [] ∧ r' = r) ∨
      (e = ErrUnexpectedEOF ∧ remaining r ≠ [])
  | (None, true, Some e) => remaining r ≠ []
  | (Some ev, false, None) => remaining r ≠ [] ∧ 0 ≤ ePCRIndex ev ≤ 31
  | _ => False
  end.

(** The shape of the first record of a crypto-agile log: PCR 0, the
    no-action type, an all-zero SHA-1 digest and a payload that starts with
    the 16 bytes of the signature. *)
Definition header_shape (ev : Event (list byte)) : Prop :=
  ePCRIndex ev = 0 ∧ eEventType ev = EventTypeNoAction ∧
  (∀ d, eDigests ev !! AlgorithmSha1 = Some d → Forall (λ b, b = x00) d) ∧
  take 16 (eData ev) = signature.

End Layouts.

(** ** Sample logs

    Concrete inputs, with the constants of [tcg] on a little-endian host,
    on which the properties below are evaluated. *)

(** A header that declares SHA-1 and SHA-256. *)
Definition sample_sizes : list algorithmSize :=
  [mkAlgorithmSize 4 20; mkAlgorithmSize 11 32].

(** A header that declares SHA-1 and an algorithm outside the catalog, with
    digests of 3 bytes. *)
Definition sample_sizes_unrecognized : list algorithmSize :=
  [mkAlgorithmSize 4 20; mkAlgorithmSize 18 3].

Definition sample_data : list byte := [x61; x62].

(** A source that starts with the PCR index 32. *)
Definition sample_pcr32 : Reader :=
  mkReader ([x20; x00; x00; x00] ++ [x03; x00; x00; x00] ++ zeros 20) 0.

(** A source that ends after the PCR index of a record. *)
Definition sample_truncated : Reader := mkReader [x00; x00; x00; x00] 0.

Definition sample_empty : Reader := mkReader [] 0.

Definition sample_log : Log :=
  mkLog 2 [4; 11] (Stream_2 (mkStream_2 sample_sizes true)).

(** A legacy record for PCR 1 written on a little-endian machine: type 13,
    a zero digest, the payload [sample_data]. *)
Definition sample_legacy : Reader :=
  mkReader (wire_record_1_2 LittleEndian 1 13 (zeros 20) sample_data) 0.

(** The payload of a crypto-agile header: the signature, 8 bytes of
    platform class and version, the algorithm descriptor and an empty
    vendor information. *)
Definition sample_header_data (sizes : list algorithmSize) : list byte :=
  wire_header_data LittleEndian (zeros 8) sizes [x00].

Definition sample_header (sizes : list algorithmSize) : Reader :=
  mkReader
    (wire_record_1_2 LittleEndian 0 3 (zeros 20) (sample_header_data sizes)) 0.

(** A header that declares SHA-256 with digests of 20 bytes. *)
Definition sample_sizes_mismatch : list algorithmSize :=
  [mkAlgorithmSize 4 20; mkAlgorithmSize 11 20].

(** The record after the header of a log that declares [sample_sizes]: two
    digest entries, the second for SHA-384. *)
Definition sample_undeclared : Reader :=
  mkReader (PutUint32 LittleEndian 0 ++ PutUint32 LittleEndian 13 ++
            PutUint32 LittleEndian 2 ++
            wire_digests LittleEndian [(4, zeros 20)] ++
            PutUint16 LittleEndian 12 ++ zeros 48) 0.

(** A record with a digest for an algorithm outside the catalog. *)
Definition sample_unrecognized : Reader :=
  mkReader (wire_record_2 LittleEndian 0 13
              [(18, [x01; x02; x03]); (4, zeros 20)] sample_data) 0.

(** A record with two digests for SHA-1. *)
Definition sample_duplicate : Reader :=
  mkReader (wire_record_2 LittleEndian 0 13
              ([(4, zeros 20)] ++ (4, replicate 20 x01) :: [(11, zeros 32)])
              sample_data) 0.

(** Events for the validator, and stand-ins for the hash functions. *)
Definition sample_separator : Event EventData :=
  mkEvent 7 4 {[ 4 := [x01; x00; x00; x00] ]}
    (SeparatorEventData 1 [x00; x00; x00; x00]).

Definition sample_event_tag : Event EventData :=
  mkEvent 4 6 ∅ (OtherEventData []).

Definition sample_hash (d : list byte) : list byte := d.

(** ** Further functions of the package

    The remaining methods of [nativeEndian_], the command-line helpers
    [PCRArgList] and [ParseAlgorithm], and what a caller that reads a log to
    its end does with [Log.NextEvent]. *)

(** [nativeEndian_.Uint64] and [nativeEndian_.PutUint64] ([log.go], lines
    61-64 and 76-79). *)
Definition Uint64 (host : ByteOrder) (b : list byte) : option Z :=
  if decide (8 ≤ length b)%nat then Some (load host (take 8 b)) else None.

Definition PutUint64 (host : ByteOrder) (v : Z) : list byte := store host 8 v.

(** [strconv.ParseUint(s, 10, 32)] of the Go standard library: the digit
    loop with its two overflow tests on a [uint64] accumulator.  The error
    is a [*NumError] that wraps [ErrSyntax] or [ErrRange]. *)
Inductive NumError := ErrSyntax | ErrRange.

(** The value of a character as a digit: ['0'..'9'], or a letter of either
    case counted from 10. *)
Definition digit_value (c : ascii) : option Z :=
  let n := Z.of_nat (nat_of_ascii c) in
  if decide (48 ≤ n ≤ 57) then Some (n - 48)
  else
    let lower := Z.lor n 32 in
    if decide (97 ≤ lower ≤ 122) then Some (lower - 97 + 10) else None.

Definition maxUint64 : Z := 2 ^ 64 - 1.

Fixpoint ParseUint_loop (base maxVal cutoff : Z) (s : string) (n : Z)
    : Z * option NumError :=
  match s with
  | EmptyString => (n, None)
  | String c s' =>
      match digit_value c with
      | None => (0, Some ErrSyntax)
      | Some d =>
          if decide (base ≤ d) then (0, Some ErrSyntax)
          else if decide (cutoff ≤ n) then (maxVal, Some ErrRange)
          else
            let n' := (n * base) `mod` 2 ^ 64 in
            let n1 := (n' + d) `mod` 2 ^ 64 in
            if decide (n1 < n' ∨ n1 > maxVal) then (maxVal, Some ErrRange)
            else ParseUint_loop base maxVal cutoff s' n1
      end
  end.

Definition ParseUint_10_32 (s : string) : Z * option NumError :=
  if decide (s = EmptyString) then (0, Some ErrSyntax)
  else ParseUint_loop 10 (2 ^ 32 - 1) (maxUint64 `div` 10 + 1) s 0.

(** [PCRArgList.String] (and [pcrList.String] of the command):
    the indices in decimal, separated by a comma and a space.  [i] is the
    index of the head of [l] in the whole list. *)
Fixpoint PCRArgList_String_loop (i : nat) (l : list PCRIndex)
    (builder : string) : string :=
  match l with
  | [] => builder
  | pcr :: l' =>
      let builder := if decide (0 < i)%nat then (builder +:+ ", ")%string
                     else builder in
      PCRArgList_String_loop (S i) l' (builder +:+ pretty pcr)%string
  end.

Definition PCRArgList_String (l : list PCRIndex) : string :=
  PCRArgList_String_loop 0 l EmptyString.

(** [PCRArgList.Set] (and [pcrList.Set]): the list after the call and the
    error returned. *)
Definition PCRArgList_Set (l : list PCRIndex) (value : string)
    : list PCRIndex * option NumError :=
  let '(v, err) := ParseUint_10_32 value in
  match err with
  | Some e => (l, Some e)
  | None => (l ++ [v `mod` 2 ^ 32], None)
  end.

(** The double quote, for the messages that hold one. *)
Definition dquote : string := String (ascii_of_nat 34) EmptyString.

Section Helpers.
Context `{K : Constants}.
Variable host : ByteOrder.

(** [ParseAlgorithm]: the identifier and the error of [fmt.Errorf]. *)
Definition ParseAlgorithm (alg : string) : AlgorithmId * option string :=
  if decide (alg = "sha1"%string) then (AlgorithmSha1, None)
  else if decide (alg = "sha256"%string) then (AlgorithmSha256, None)
  else if decide (alg = "sha384"%string) then (AlgorithmSha384, None)
  else if decide (alg = "sha512"%string) then (AlgorithmSha512, None)
  else (0, Some ("Unrecognized algorithm " +:+ dquote +:+ alg +:+ dquote)%string).

(** A caller that reads a log to its end: up to [n] calls of
    [Log.NextEvent], stopping at the first error.  It returns the events
    read, the error that stopped it if any, and the log. *)
Fixpoint NextEvents (n : nat) (l : Log)
    : M (list (Event (list byte)) * option error * Log) :=
  match n with
  | O => ret ([], None, l)
  | S n' =>
      let* (ev, err, l') := NextEvent host l in
      match err, ev with
      | Some e, _ => ret ([], Some e, l')
      | None, None => ret ([], None, l')
      | None, Some ev =>
          let* (evs, err', l'') := NextEvents n' l' in
          ret (ev :: evs, err', l'')
      end
  end.

(** A record of a crypto-agile log: PCR index, event type, digest entries
    and payload; and a record of a legacy log, with its one digest. *)
Definition record_2 : Type :=
  PCRIndex * EventType * list (AlgorithmId * Digest) * list byte.

Definition record_1_2 : Type := PCRIndex * EventType * Digest * list byte.

Definition wire_records_2 (rs : list record_2) : list byte :=
  concat (map (λ '(pcr, et, entries, data),
                 wire_record_2 host pcr et entries data) rs).

Definition wire_records_1_2 (rs : list record_1_2) : list byte :=
  concat (map (λ '(pcr, et, digest, data),
                 wire_record_1_2 host pcr et digest data) rs).

Definition event_of_2 (rc : record_2) : Event (list byte) :=
  let '(pcr, et, entries, data) := rc in
  mkEvent pcr et (retained entries ∅) data.

Definition event_of_1_2 (rc : record_1_2) : Event (list byte) :=
  let '(pcr, et, digest, data) := rc in
  mkEvent pcr et (<[AlgorithmSha1 := digest]> ∅) data.

(** A record that fits its layout: a valid PCR index, fields in the range
    of their types and, for the crypto-agile layout, digest entries that
    the header declares. *)
Definition valid_record_2 (sizes : list algorithmSize) (rc : record_2)
    : Prop :=
  let '(pcr, et, entries, data) := rc in
  0 ≤ pcr ≤ 31 ∧ 0 ≤ et < 2 ^ 32 ∧ Z.of_nat (length entries) < 2 ^ 32 ∧
  Z.of_nat (length data) < 2 ^ 32 ∧ Forall (declared sizes) entries.

Definition valid_record_1_2 (rc : record_1_2) : Prop :=
  let '(pcr, et, digest, data) := rc in
  0 ≤ pcr ≤ 31 ∧ 0 ≤ et < 2 ^ 32 ∧ length digest = 20%nat ∧
  Z.of_nat (length data) < 2 ^ 32.

(** What [newLogFromReader] establishes and [Log.NextEvent] keeps: a legacy
    log lists SHA-1; in a crypto-agile log every entry of the header for an
    algorithm of the catalog has the catalog's size, and the log lists the
    identifiers of those entries in the header's order. *)
Definition log_consistent (l : Log) : Prop :=
  match lstream l with
  | Stream_1_2 => lFormat l = Format1_2 ∧ lAlgorithms l = [AlgorithmSha1]
  | Stream_2 s =>
      lFormat l = Format2 ∧
      (∀ a known, a ∈ algorithmSizes s →
                  knownAlgorithms !! algorithmId a = Some known →
                  known = digestSize a) ∧
      lAlgorithms l
      = filter (λ a, is_Some (knownAlgorithms !! a))
          (algorithmId <$> algorithmSizes s)
  end.

End Helpers.

(** ** Event type labels ([log.go], lines 330-395)

    The event type codes of the [switch] of [EventType.Label], beyond the
    four that [checkEvent] uses: declared outside the translated files, they
    are parameters, different from one another as the Go compiler demands of
    the cases of a [switch]. *)
Class EventTypes `{K : Constants} := {
  EventTypePrebootCert : Z;
  EventTypeAction : Z;
  EventTypeSCRTMContents : Z;
  EventTypeSCRTMVersion : Z;
  EventTypeCPUMicrocode : Z;
  EventTypePlatformConfigFlags : Z;
  EventTypeTableOfDevices : Z;
  EventTypeCompactHash : Z;
  EventTypeIPL : Z;
  EventTypeIPLPartitionData : Z;
  EventTypeNonhostCode : Z;
  EventTypeNonhostConfig : Z;
  EventTypeNonhostInfo : Z;
  EventTypeOmitBootDeviceEvents : Z;
  EventTypeEFIVariableDriverConfig : Z;
  EventTypeEFIVariableBoot : Z;
  EventTypeEFIBootServicesApplication : Z;
  EventTypeEFIBootServicesDriver : Z;
  EventTypeEFIRuntimeServicesDriver : Z;
  EventTypeEFIGPTEvent : Z;
  EventTypeEFIAction : Z;
  EventTypeEFIPlatformFirmwareBlob : Z;
  EventTypeEFIHandoffTables : Z;
  EventTypeEFIHCRTMEvent : Z;
  EventTypeEFIVariableAuthority : Z;
  labelled_types_distinct :
    NoDup [EventTypePrebootCert; EventTypePostCode; EventTypeNoAction;
           EventTypeSeparator; EventTypeAction; EventTypeEventTag;
           EventTypeSCRTMContents; EventTypeSCRTMVersion;
           EventTypeCPUMicrocode; EventTypePlatformConfigFlags;
           EventTypeTableOfDevices; EventTypeCompactHash; EventTypeIPL;
           EventTypeIPLPartitionData; EventTypeNonhostCode;
           EventTypeNonhostConfig; EventTypeNonhostInfo;
           EventTypeOmitBootDeviceEvents; EventTypeEFIVariableDriverConfig;
           EventTypeEFIVariableBoot; EventTypeEFIBootServicesApplication;
           EventTypeEFIBootServicesDriver; EventTypeEFIRuntimeServicesDriver;
           EventTypeEFIGPTEvent; EventTypeEFIAction;
           EventTypeEFIPlatformFirmwareBlob; EventTypeEFIHandoffTables;
           EventTypeEFIHCRTMEvent; EventTypeEFIVariableAuthority]
}.

(** The codes of the PC Client specifications, in the order of the fields:
    0 for the pre-boot certificate, 5 and 7 to 18 for the other firmware
    events, 0x80000001 to 0x80000009, 0x80000010 and 0x800000e0 for the EFI
    events. *)
Definition tcg_event_types : @EventTypes tcg :=
  @Build_EventTypes tcg
    0 5 7 8 9 10 11 12 13 14 15 16 17 18
    2147483649 2147483650 2147483651 2147483652 2147483653 2147483654
    2147483655 2147483656 2147483657 2147483664 2147483872
    ltac:(by apply (bool_decide_unpack _)).

(** [%08x] of a [uint32]: eight lower-case hexadecimal digits. *)
Definition fmt_08x (v : Z) : string :=
  String (hex_digit (Z.land (Z.shiftr v 28) 15))
    (String (hex_digit (Z.land (Z.shiftr v 24) 15))
      (String (hex_digit (Z.land (Z.shiftr v 20) 15))
        (String (hex_digit (Z.land (Z.shiftr v 16) 15)) (fmt_04x v)))).

Section Labels.
Context `{T : EventTypes}.

(** The cases of the [switch] of [EventType.Label], in their order. *)
Definition labels : list (EventType * string) :=
  [(EventTypePrebootCert, "EV_PREBOOT_CERT");
   (EventTypePostCode, "EV_POST_CODE");
   (EventTypeNoAction, "EV_NO_ACTION");
   (EventTypeSeparator, "EV_SEPARATOR");
   (EventTypeAction, "EV_ACTION");
   (EventTypeEventTag, "EV_EVENT_TAG");
   (EventTypeSCRTMContents, "EV_S_CRTM_CONTENTS");
   (EventTypeSCRTMVersion, "EV_S_CRTM_VERSION");
   (EventTypeCPUMicrocode, "EV_CPU_MICROCODE");
   (EventTypePlatformConfigFlags, "EV_PLATFORM_CONFIG_FLAGS");
   (EventTypeTableOfDevices, "EV_TABLE_OF_DEVICES");
   (EventTypeCompactHash, "EV_COMPACT_HASH");
   (EventTypeIPL, "EV_IPL");
   (EventTypeIPLPartitionData, "EV_IPL_PARTITION_DATA");
   (EventTypeNonhostCode, "EV_NONHOST_CODE");
   (EventTypeNonhostConfig, "EV_NONHOST_CONFIG");
   (EventTypeNonhostInfo, "EV_NONHOST_INFO");
   (EventTypeOmitBootDeviceEvents, "EV_OMIT_BOOT_DEVICE_EVENTS");
   (EventTypeEFIVariableDriverConfig, "EV_EFI_VARIABLE_DRIVER_CONFIG");
   (EventTypeEFIVariableBoot, "EV_EFI_VARIABLE_BOOT");
   (EventTypeEFIBootServicesApplication, "EV_EFI_BOOT_SERVICES_APPLICATION");
   (EventTypeEFIBootServicesDriver, "EV_EFI_BOOT_SERVICES_DRIVER");
   (EventTypeEFIRuntimeServicesDriver, "EV_EFI_RUNTIME_SERVICES_DRIVER");
   (EventTypeEFIGPTEvent, "EF_EFI_GPT_EVENT");
   (EventTypeEFIAction, "EV_EFI_ACTION");
   (EventTypeEFIPlatformFirmwareBlob, "EV_EFI_PLATFORM_FIRMWARE_BLOB");
   (EventTypeEFIHandoffTables, "EV_EFI_HANDOFF_TABLES");
   (EventTypeEFIHCRTMEvent, "EV_EFI_HCRTM_EVENT");
   (EventTypeEFIVariableAuthority, "EV_EFI_VARIABLE_AUTHORITY")]%string.

(** The first case that matches, if any. *)
Fixpoint switch_label (cases : list (EventType * string)) (e : EventType)
    : option string :=
  match cases with
  | [] => None
  | (c, label) :: cases' =>
      if decide (e = c) then Some label else switch_label cases' e
  end.

(** [EventType.Label]: the name of the case, or [%08x] by default. *)
Definition Label (e : EventType) : string :=
  default (fmt_08x e) (switch_label labels e).

(** The [Error] methods of the validator's errors. [%s] of an [EventType]
    goes through [EventType.Format], which prints [Label] for the verb [s];
    [%d] of a [PCRIndex] is its decimal. *)
Definition checkError_Error (err : checkError) : string :=
  match err with
  | UnexpectedEventTypeError eventType pcrIndex =>
      ("Unexpected " +:+ Label eventType +:+
       " event type measured to PCR index " +:+ pretty pcrIndex)%string
  | UnexpectedDigestValueError eventType _ _ =>
      ("Unexpected digest value for event type " +:+ Label eventType)%string
  | InvalidEventDataError eventType _ =>
      ("Invalid data for event type " +:+ Label eventType)%string
  end.

End Labels.

(** A source that ends inside the digest of a legacy record, and one that
    ends inside a SHA-1 digest of a crypto-agile record. *)
Definition sample_short_digest : Reader :=
  mkReader (PutUint32 LittleEndian 1 ++ PutUint32 LittleEndian 13 ++
            [x01; x02; x03]) 0.

Definition sample_short_digest_2 : Reader :=
  mkReader (PutUint32 LittleEndian 1 ++ PutUint32 LittleEndian 13 ++
            PutUint32 LittleEndian 1 ++ PutUint16 LittleEndian 4 ++
            [x01; x02; x03]) 0.

(** A crypto-agile log: the header for [sample_sizes_unrecognized] and two
    records. *)
Definition sample_records : list record_2 :=
  [(0, 13, [(18, [x01; x02; x03]); (4, zeros 20)], sample_data);
   (7, 4, [(4, replicate 20 x01)], [])].

Definition sample_log_2 : Reader :=
  mkReader (wire_record_1_2 LittleEndian 0 3 (zeros 20)
              (sample_header_data sample_sizes_unrecognized) ++
            wire_records_2 LittleEndian sample_records) 0.

(** A legacy log of two records. *)
Definition sample_records_1_2 : list record_1_2 :=
  [(1, 13, zeros 20, sample_data); (0, 4, replicate 20 x01, [])].

Definition sample_log_1_2 : Reader :=
  mkReader (wire_records_1_2 LittleEndian sample_records_1_2) 0.

(** Events for the validator. *)
Definition sample_post_code : Event EventData :=
  mkEvent 0 1 {[ 4 := replicate 20 x01 ]} (OtherEventData []).

Definition sample_post_code_misplaced : Event EventData :=
  mkEvent 1 1 {[ 4 := replicate 20 x01 ]} (OtherEventData []).

Definition sample_no_action : Event EventData :=
  mkEvent 6 3 {[ 4 := zeros 20; 11 := zeros 32 ]} (OtherEventData []).

Definition sample_other_type : Event EventData :=
  mkEvent 31 13 {[ 99 := [x01] ]} (OtherEventData []).

Definition sample_separator_unrecognized : Event EventData :=
  mkEvent 0 4 {[ 99 := [x01] ]} (SeparatorEventData 0 []).

(** * Properties *)

(** ** Bytes and byte order *)

Lemma byte_to_Z_range b : 0 ≤ byte_to_Z b < 256.
Proof. unfold byte_to_Z. pose proof (Byte.to_N_bounded b). lia. Qed.

Lemma land_255_range z : 0 ≤ Z.land z 255 < 256.
Proof.
  change 255 with (Z.ones 8). rewrite Z.land_ones by lia.
  apply Z.mod_pos_bound. lia.
Qed.

Lemma byte_to_of_Z z : byte_to_Z (byte_of_Z z) = Z.land z 255.
Proof.
  unfold byte_to_Z, byte_of_Z. pose proof (land_255_range z) as Hr.
  destruct (Byte.of_N (Z.to_N (Z.land z 255))) as [b|] eqn:E.
  - apply Byte.to_of_N in E. simpl. rewrite E. lia.
  - apply Byte.of_N_None_iff in E. lia.
Qed.

(** Below bit 8 and from bit 8 on: [lor] is a sum. *)
Lemma lor_shiftl_8 a x : 0 ≤ a < 256 → Z.lor a (Z.shiftl x 8) = a + 256 * x.
Proof.
  intros Ha. rewrite Z.shiftl_mul_pow2 by lia.
  assert (Hl : Z.land a (x * 2 ^ 8) = 0).
  { apply Z.bits_inj'. intros n Hn. rewrite Z.land_spec, Z.bits_0.
    destruct (decide (n < 8)).
    - rewrite Z.mul_pow2_bits_low by lia. apply andb_false_r.
    - rewrite (Z.bits_above_log2 a n); [done|lia|].
      destruct (decide (a = 0)) as [->|]; [simpl; lia|].
      apply Z.log2_lt_pow2; [lia|].
      assert (2 ^ 8 ≤ 2 ^ n) by (apply Z.pow_le_mono_r; lia). lia. }
  rewrite <- Z.lxor_lor by done. rewrite <- Z.add_nocarry_lxor by done.
  change (2 ^ 8) with 256. lia.
Qed.

Lemma le_value_cons b bs : le_value (b :: bs) = byte_to_Z b + 256 * le_value bs.
Proof. cbn [le_value]. apply lor_shiftl_8, byte_to_Z_range. Qed.

Lemma le_value_range bs : 0 ≤ le_value bs < 2 ^ (8 * Z.of_nat (length bs)).
Proof.
  induction bs as [|b bs IH]; [simpl; lia|].
  rewrite le_value_cons. pose proof (byte_to_Z_range b).
  replace (8 * Z.of_nat (length (b :: bs)))
    with (8 + 8 * Z.of_nat (length bs)) by (simpl length; lia).
  rewrite Z.pow_add_r by lia. change (2 ^ 8) with 256. nia.
Qed.

Lemma le_value_le_bytes n v :
  le_value (le_bytes n v) = v `mod` 2 ^ (8 * Z.of_nat n).
Proof.
  revert v. induction n as [|n IH]; intros v.
  - simpl. by rewrite Z.mod_1_r.
  - cbn [le_bytes]. rewrite le_value_cons, byte_to_of_Z, IH.
    change 255 with (Z.ones 8). rewrite Z.land_ones by lia.
    rewrite Z.shiftr_div_pow2 by lia.
    replace (8 * Z.of_nat (S n)) with (8 + 8 * Z.of_nat n) by lia.
    rewrite Z.pow_add_r by lia. change (2 ^ 8) with 256.
    rewrite Z.rem_mul_r by lia. lia.
Qed.

Lemma length_le_bytes n v : length (le_bytes n v) = n.
Proof. revert v. induction n; intros; simpl; auto. Qed.

Lemma length_store host n v : length (store host n v) = n.
Proof. destruct host; simpl; rewrite ?length_rev; apply length_le_bytes. Qed.

Lemma load_store host n v :
  0 ≤ v < 2 ^ (8 * Z.of_nat n) → load host (store host n v) = v.
Proof.
  intros Hv. destruct host; simpl; rewrite ?rev_involutive;
    rewrite le_value_le_bytes; by apply Z.mod_small.
Qed.

Lemma load_nonneg host bs : 0 ≤ load host bs.
Proof. destruct host; simpl; apply le_value_range. Qed.

Lemma Uint32_PutUint32 host v :
  0 ≤ v < 2 ^ 32 → Uint32 host (PutUint32 host v) = Some v.
Proof.
  intros Hv. unfold Uint32, PutUint32.
  rewrite decide_True by (by rewrite length_store).
  rewrite firstn_all2 by (by rewrite length_store).
  by rewrite load_store.
Qed.

Lemma Uint16_PutUint16 host v :
  0 ≤ v < 2 ^ 16 → Uint16 host (PutUint16 host v) = Some v.
Proof.
  intros Hv. unfold Uint16, PutUint16.
  rewrite decide_True by (by rewrite length_store).
  rewrite firstn_all2 by (by rewrite length_store).
  by rewrite load_store.
Qed.

(** ** The byte source *)

Lemma advance_0 r : advance 0 r = r.
Proof. destruct r. unfold advance. simpl. f_equal. lia. Qed.

Lemma advance_advance n m r : advance m (advance n r) = advance (n + m) r.
Proof. unfold advance. simpl. f_equal. lia. Qed.

Lemma remaining_advance n r : remaining (advance n r) = drop n (remaining r).
Proof. unfold remaining, advance. simpl. by rewrite drop_drop. Qed.

Lemma remaining_advance_app n r bs rest :
  remaining r = bs ++ rest → length bs = n → remaining (advance n r) = rest.
Proof.
  intros Hr <-. rewrite remaining_advance, Hr. by rewrite drop_app_length.
Qed.

Lemma buf_advance n r : buf (advance n r) = buf r.
Proof. done. Qed.

(** [io.ReadFull] on a source that holds the bytes. *)
Lemma ReadFull_ok r bs rest :
  remaining r = bs ++ rest →
  ReadFull (length bs) r = ((bs, None), advance (length bs) r).
Proof.
  intros Hr. unfold ReadFull. case_decide as Hn.
  - rewrite Hn, advance_0. by destruct bs.
  - rewrite Hr, length_app.
    rewrite decide_False by lia. rewrite decide_False by lia.
    by rewrite take_app_length.
Qed.

(** The three ways [io.ReadFull] ends, by what it reports. *)
Lemma ReadFull_inv n r bs err r' :
  ReadFull n r = ((bs, err), r') →
  buf r' = buf r ∧
  match err with
  | None => ∃ rest, remaining r = bs ++ rest ∧ length bs = n ∧ r' = advance n r
  | Some e =>
      n ≠ 0%nat ∧
      ((e = EOF ∧ remaining r = [] ∧ r' = r) ∨
       (e = ErrUnexpectedEOF ∧ remaining r ≠ []))
  end.
Proof.
  unfold ReadFull. intros H. repeat case_decide; injection H as <- <- <-; simpl.
  - split; [done|]. exists (remaining r). subst n. by rewrite advance_0.
  - split; [done|]. split; [done|]. left. by rewrite <- length_zero_iff_nil.
  - split; [done|]. split; [done|]. right.
    by rewrite <- length_zero_iff_nil.
  - split; [done|]. exists (drop n (remaining r)).
    rewrite take_drop, length_take. split; [done|]. split; [lia|done].
Qed.

Lemma Read_inv n r bs k err r' :
  Read n r = ((bs, k, err), r') →
  buf r' = buf r ∧
  match err with
  | None => remaining r ≠ []
  | Some e => e = EOF ∧ remaining r = [] ∧ r' = r
  end.
Proof.
  unfold Read. intros H. case_decide as Hl; injection H as <- <- <- <-; simpl.
  - split; [done|]. split; [done|]. split; [|done].
    unfold remaining. by rewrite drop_ge.
  - split; [done|]. unfold remaining.
    rewrite <- length_zero_iff_nil, length_drop. lia.
Qed.

Lemma Read_ok r bs rest :
  remaining r = bs ++ rest → bs ≠ [] →
  Read (length bs) r = ((bs, length bs, None), advance (length bs) r).
Proof.
  intros Hr Hbs. unfold Read.
  assert (length (remaining r) = (length bs + length rest)%nat) as Hlen
    by (by rewrite Hr, length_app).
  assert (length bs ≠ 0%nat) by (by destruct bs).
  rewrite decide_False.
  2:{ unfold remaining in Hlen. rewrite length_drop in Hlen. lia. }
  rewrite Hlen. replace (length bs `min` (length bs + length rest))%nat
    with (length bs) by lia.
  rewrite Hr, take_app_length, Nat.sub_diag. simpl.
  by rewrite app_nil_r.
Qed.

Section DecoderProperties.
Context `{K : Constants}.
Variable host : ByteOrder.

Lemma knownAlgorithms_lookup a n :
  knownAlgorithms !! a = Some n ↔
  (a = AlgorithmSha1 ∧ n = 20) ∨ (a = AlgorithmSha256 ∧ n = 32) ∨
  (a = AlgorithmSha384 ∧ n = 48) ∨ (a = AlgorithmSha512 ∧ n = 64).
Proof.
  pose proof algorithms_distinct as Hd.
  rewrite !NoDup_cons, !not_elem_of_cons in Hd. unfold knownAlgorithms.
  rewrite !lookup_insert_Some, lookup_empty.
  destruct (decide (a = AlgorithmSha1)); destruct (decide (a = AlgorithmSha256));
    destruct (decide (a = AlgorithmSha384));
    destruct (decide (a = AlgorithmSha512)); intuition (subst; congruence).
Qed.

Lemma knownAlgorithms_is_Some a :
  is_Some (knownAlgorithms !! a) ↔
  a ∈ [AlgorithmSha1; AlgorithmSha256; AlgorithmSha384; AlgorithmSha512].
Proof.
  unfold is_Some. setoid_rewrite knownAlgorithms_lookup.
  rewrite !elem_of_cons, elem_of_nil. split.
  - intros [n Hn]. tauto.
  - intros [->|[->|[->|[->|[]]]]]; eauto 10.
Qed.

Lemma DigestLength_Sha1 : DigestLength AlgorithmSha1 = 20.
Proof. unfold DigestLength, knownAlgorithms. by rewrite lookup_insert_eq. Qed.

Lemma binary_Read32_ok r bs rest :
  remaining r = bs ++ rest → length bs = 4%nat →
  binary_Read32 host r = ((load host bs, None), advance 4 r).
Proof.
  intros Hr Hl. unfold binary_Read32, bind.
  rewrite <- Hl at 1. rewrite (ReadFull_ok _ _ _ Hr), Hl.
  unfold Uint32. rewrite decide_True by lia.
  by rewrite firstn_all2 by lia.
Qed.

Lemma binary_Read16_ok r bs rest :
  remaining r = bs ++ rest → length bs = 2%nat →
  binary_Read16 host r = ((load host bs, None), advance 2 r).
Proof.
  intros Hr Hl. unfold binary_Read16, bind.
  rewrite <- Hl at 1. rewrite (ReadFull_ok _ _ _ Hr), Hl.
  unfold Uint16. rewrite decide_True by lia.
  by rewrite firstn_all2 by lia.
Qed.

Lemma binary_Read32_put r v rest :
  remaining r = PutUint32 host v ++ rest → 0 ≤ v < 2 ^ 32 →
  binary_Read32 host r = ((v, None), advance 4 r).
Proof.
  intros Hr Hv. rewrite (binary_Read32_ok _ _ _ Hr) by apply length_store.
  unfold PutUint32. by rewrite load_store.
Qed.

Lemma binary_Read16_put r v rest :
  remaining r = PutUint16 host v ++ rest → 0 ≤ v < 2 ^ 16 →
  binary_Read16 host r = ((v, None), advance 2 r).
Proof.
  intros Hr Hv. rewrite (binary_Read16_ok _ _ _ Hr) by apply length_store.
  unfold PutUint16. by rewrite load_store.
Qed.

(** What a read of an integer reports, by its error. *)
Lemma binary_Read32_inv r v err r' :
  binary_Read32 host r = ((v, err), r') →
  buf r' = buf r ∧ 0 ≤ v ∧
  match err with
  | None => ∃ bs rest, remaining r = bs ++ rest ∧ length bs = 4%nat ∧
                       v = load host bs ∧ r' = advance 4 r
  | Some e => (e = EOF ∧ remaining r = [] ∧ r' = r) ∨
              (e = ErrUnexpectedEOF ∧ remaining r ≠ [])
  end.
Proof.
  unfold binary_Read32, bind. intros H.
  destruct (ReadFull 4 r) as [[bs e] r1] eqn:E.
  apply ReadFull_inv in E as [Hb E].
  destruct e; simplify_eq; unfold ret in H; simplify_eq.
  - split; [done|]. split; [done|]. tauto.
  - destruct E as (rest & Hr & Hl & ->). split; [done|].
    unfold Uint32. rewrite decide_True by lia. simpl.
    rewrite firstn_all2 by lia. split; [apply load_nonneg|].
    by exists bs, rest.
Qed.

Lemma binary_Read16_inv r v err r' :
  binary_Read16 host r = ((v, err), r') →
  buf r' = buf r ∧
  match err with
  | None => True
  | Some e => (e = EOF ∧ remaining r = [] ∧ r' = r) ∨
              (e = ErrUnexpectedEOF ∧ remaining r ≠ [])
  end.
Proof.
  unfold binary_Read16, bind. intros H.
  destruct (ReadFull 2 r) as [[bs e] r1] eqn:E.
  apply ReadFull_inv in E as [Hb E].
  destruct e; simplify_eq; unfold ret in H; simplify_eq; [|done].
  split; [done|]. tauto.
Qed.

Lemma nonempty_prefix {A} (l bs rest : list A) :
  l = bs ++ rest → length bs = 4%nat → l ≠ [].
Proof. intros -> Hl ?. destruct bs; simplify_eq. Qed.

(** ** The legacy decoder *)

Lemma ReadNextEvent_1_2_ends r res r' :
  ReadNextEvent_1_2 host r = (res, r') → ends r res r'.
Proof.
  unfold ReadNextEvent_1_2, check, bind, ret, ends. intros H.
  destruct (binary_Read32 host r) as [[v1 e1] r1] eqn:E1.
  apply binary_Read32_inv in E1 as (Hb1 & Hv1 & E1).
  destruct e1 as [e1|]; [injection H as <- <-; done|].
  destruct E1 as (bs & rest & Hr & Hl & -> & ->).
  pose proof (nonempty_prefix _ _ _ Hr Hl) as Hne.
  case_decide; [injection H as <- <-; done|].
  destruct (binary_Read32 host (advance 4 r)) as [[v2 e2] r2] eqn:E2.
  apply binary_Read32_inv in E2 as (Hb2 & Hv2 & E2).
  destruct e2 as [e2|]; [injection H as <- <-; split; [congruence|done]|].
  destruct (Read _ r2) as [[[d k] e3] r3] eqn:E3.
  apply Read_inv in E3 as [Hb3 E3].
  destruct e3 as [e3|]; [injection H as <- <-; split; [congruence|done]|].
  destruct (binary_Read32 host r3) as [[v4 e4] r4] eqn:E4.
  apply binary_Read32_inv in E4 as (Hb4 & Hv4 & E4).
  destruct e4 as [e4|]; [injection H as <- <-; split; [congruence|done]|].
  destruct (ReadFull _ r4) as [[d5 e5] r5] eqn:E5.
  apply ReadFull_inv in E5 as [Hb5 E5].
  destruct e5 as [e5|]; injection H as <- <-; (split; [congruence|]); [done|].
  simpl. split; [done|]. pose proof (load_nonneg host bs).
  unfold maxPCRIndex in *. lia.
Qed.

(** A PCR index above 31 ends the call after its four bytes. *)
Lemma ReadNextEvent_1_2_pcr r bs rest :
  remaining r = bs ++ rest → length bs = 4%nat → load host bs > 31 →
  ReadNextEvent_1_2 host r
  = ((None, true, Some (invalidPCRIndex (load host bs))), advance 4 r).
Proof.
  intros Hr Hl Hv. unfold ReadNextEvent_1_2, check, bind.
  rewrite (binary_Read32_ok _ _ _ Hr Hl).
  by rewrite decide_True by (unfold maxPCRIndex; lia).
Qed.

(** A record in the legacy layout decodes to its fields. *)
Lemma ReadNextEvent_1_2_record r pcrIndex eventType digest data rest :
  0 ≤ pcrIndex ≤ 31 → 0 ≤ eventType < 2 ^ 32 → length digest = 20%nat →
  Z.of_nat (length data) < 2 ^ 32 →
  remaining r = wire_record_1_2 host pcrIndex eventType digest data ++ rest →
  ReadNextEvent_1_2 host r
  = ((Some (mkEvent pcrIndex eventType (<[AlgorithmSha1 := digest]> ∅) data),
      false, None),
     advance (length (wire_record_1_2 host pcrIndex eventType digest data)) r).
Proof.
  intros Hp He Hd Hs Hr. unfold wire_record_1_2 in *.
  rewrite <- !app_assoc in Hr.
  unfold ReadNextEvent_1_2, check, bind.
  rewrite (binary_Read32_put _ _ _ Hr) by lia.
  rewrite decide_False by (unfold maxPCRIndex; lia).
  eapply remaining_advance_app in Hr; [|apply length_store].
  rewrite (binary_Read32_put _ _ _ Hr) by lia.
  eapply remaining_advance_app in Hr; [|apply length_store].
  rewrite DigestLength_Sha1. change (Z.to_nat 20) with 20%nat.
  rewrite <- Hd at 1. rewrite (Read_ok _ _ _ Hr) by (by destruct digest).
  eapply remaining_advance_app in Hr; [|reflexivity].
  unfold ret at 1.
  rewrite (binary_Read32_put _ _ _ Hr) by lia.
  eapply remaining_advance_app in Hr; [|apply length_store].
  rewrite Nat2Z.id. rewrite (ReadFull_ok _ _ _ Hr).
  unfold ret. rewrite !advance_advance.
  do 2 f_equal. rewrite !length_app. unfold PutUint32.
  rewrite !length_store. lia.
Qed.

(** ** The crypto-agile decoder *)

Lemma readDigests_buf sizes n m r m' err r' :
  readDigests host sizes n m r = ((m', err), r') → buf r' = buf r.
Proof.
  revert m r. induction n as [|n IH]; intros m r H.
  - by injection H as <- <- <-.
  - cbn [readDigests] in H. unfold bind, ret in H.
    destruct (binary_Read16 host r) as [[a e1] r1] eqn:E1.
    apply binary_Read16_inv in E1 as [Hb1 _].
    destruct e1; [injection H as <- <- <-; done|].
    destruct (findDigestSize sizes a); [|injection H as <- <- <-; done].
    destruct (ReadFull _ r1) as [[d e2] r2] eqn:E2.
    apply ReadFull_inv in E2 as [Hb2 _].
    destruct e2; [injection H as <- <- <-; congruence|].
    apply IH in H. congruence.
Qed.

Lemma ReadNextEvent_2_rest_ends sizes r res r' :
  ReadNextEvent_2_rest host sizes r = (res, r') → ends r res r'.
Proof.
  unfold ReadNextEvent_2_rest, check, bind, ret, ends. intros H.
  destruct (binary_Read32 host r) as [[v1 e1] r1] eqn:E1.
  apply binary_Read32_inv in E1 as (Hb1 & Hv1 & E1).
  destruct e1 as [e1|]; [injection H as <- <-; done|].
  destruct E1 as (bs & rest & Hr & Hl & -> & ->).
  pose proof (nonempty_prefix _ _ _ Hr Hl) as Hne.
  case_decide; [injection H as <- <-; done|].
  destruct (binary_Read32 host (advance 4 r)) as [[v2 e2] r2] eqn:E2.
  apply binary_Read32_inv in E2 as (Hb2 & Hv2 & E2).
  destruct e2 as [e2|]; [injection H as <- <-; split; [congruence|done]|].
  destruct (binary_Read32 host r2) as [[v3 e3] r3] eqn:E3.
  apply binary_Read32_inv in E3 as (Hb3 & Hv3 & E3).
  destruct e3 as [e3|]; [injection H as <- <-; split; [congruence|done]|].
  destruct (readDigests _ _ _ _ r3) as [[m e6] r6] eqn:E6.
  apply readDigests_buf in E6.
  destruct e6 as [e6|]; [injection H as <- <-; split; [congruence|done]|].
  destruct (binary_Read32 host r6) as [[v4 e4] r4] eqn:E4.
  apply binary_Read32_inv in E4 as (Hb4 & Hv4 & E4).
  destruct e4 as [e4|]; [injection H as <- <-; split; [congruence|done]|].
  destruct (ReadFull _ r4) as [[d5 e5] r5] eqn:E5.
  apply ReadFull_inv in E5 as [Hb5 E5].
  destruct e5 as [e5|]; injection H as <- <-; (split; [congruence|]); [done|].
  simpl. split; [done|]. pose proof (load_nonneg host bs).
  unfold maxPCRIndex in *. lia.
Qed.

Lemma ReadNextEvent_2_rest_pcr sizes r bs rest :
  remaining r = bs ++ rest → length bs = 4%nat → load host bs > 31 →
  ReadNextEvent_2_rest host sizes r
  = ((None, true, Some (invalidPCRIndex (load host bs))), advance 4 r).
Proof.
  intros Hr Hl Hv. unfold ReadNextEvent_2_rest, check, bind.
  rewrite (binary_Read32_ok _ _ _ Hr Hl).
  by rewrite decide_True by (unfold maxPCRIndex; lia).
Qed.

Lemma wire_digests_cons e entries :
  wire_digests host (e :: entries)
  = PutUint16 host e.1 ++ e.2 ++ wire_digests host entries.
Proof. unfold wire_digests. simpl. by rewrite <- app_assoc. Qed.

(** The digest loop over declared entries: it consumes them all and goes
    on with what is left of the count. *)
Lemma readDigests_entries sizes entries k m r rest :
  Forall (declared sizes) entries →
  remaining r = wire_digests host entries ++ rest →
  readDigests host sizes (length entries + k) m r
  = readDigests host sizes k (retained entries m)
      (advance (length (wire_digests host entries)) r).
Proof.
  intros Hd. revert m r.
  induction Hd as [|e entries [He Hf] _ IH]; intros m r Hr.
  - simpl. by rewrite advance_0.
  - rewrite wire_digests_cons in *. rewrite <- !app_assoc in Hr.
    cbn [length Nat.add readDigests]. unfold bind at 1.
    rewrite (binary_Read16_put _ _ _ Hr) by done. rewrite Hf.
    eapply remaining_advance_app in Hr; [|apply length_store].
    unfold bind at 1. rewrite Nat2Z.id, (ReadFull_ok _ _ _ Hr).
    eapply remaining_advance_app in Hr; [|reflexivity].
    rewrite (IH _ _ Hr). rewrite !advance_advance. cbn [retained foldl].
    do 2 f_equal. rewrite !length_app. unfold PutUint16.
    rewrite length_store. lia.
Qed.

(** A record in the crypto-agile layout whose entries are all declared
    decodes to its fields, with the digests the loop retains. *)
Lemma ReadNextEvent_2_rest_record sizes r pcrIndex eventType entries data rest :
  0 ≤ pcrIndex ≤ 31 → 0 ≤ eventType < 2 ^ 32 →
  Z.of_nat (length entries) < 2 ^ 32 → Z.of_nat (length data) < 2 ^ 32 →
  Forall (declared sizes) entries →
  remaining r = wire_record_2 host pcrIndex eventType entries data ++ rest →
  ReadNextEvent_2_rest host sizes r
  = ((Some (mkEvent pcrIndex eventType (retained entries ∅) data),
      false, None),
     advance (length (wire_record_2 host pcrIndex eventType entries data)) r).
Proof.
  intros Hp He Hn Hs Hd Hr. unfold wire_record_2 in *.
  rewrite <- !app_assoc in Hr.
  unfold ReadNextEvent_2_rest, check, bind.
  rewrite (binary_Read32_put _ _ _ Hr) by lia.
  rewrite decide_False by (unfold maxPCRIndex; lia).
  eapply remaining_advance_app in Hr; [|apply length_store].
  rewrite (binary_Read32_put _ _ _ Hr) by lia.
  eapply remaining_advance_app in Hr; [|apply length_store].
  rewrite (binary_Read32_put _ _ _ Hr) by lia.
  eapply remaining_advance_app in Hr; [|apply length_store].
  rewrite Nat2Z.id.
  rewrite <- (Nat.add_0_r (length entries)) at 1.
  rewrite (readDigests_entries _ _ _ _ _ _ Hd Hr).
  eapply remaining_advance_app in Hr; [|reflexivity].
  cbn [readDigests]. unfold ret at 1.
  rewrite (binary_Read32_put _ _ _ Hr) by lia.
  eapply remaining_advance_app in Hr; [|apply length_store].
  rewrite Nat2Z.id. rewrite (ReadFull_ok _ _ _ Hr).
  unfold ret. rewrite !advance_advance.
  do 2 f_equal. rewrite !length_app. unfold PutUint32.
  rewrite !length_store. lia.
Qed.

(** An identifier the header does not declare, after [pre] declared
    entries and within the count, ends the call. *)
Lemma ReadNextEvent_2_rest_undeclared sizes r pcrIndex eventType count pre
    alg rest :
  0 ≤ pcrIndex ≤ 31 → 0 ≤ eventType < 2 ^ 32 → 0 ≤ count < 2 ^ 32 →
  Z.of_nat (length pre) < count →
  Forall (declared sizes) pre →
  0 ≤ alg < 2 ^ 16 → findDigestSize sizes alg = None →
  remaining r = PutUint32 host pcrIndex ++ PutUint32 host eventType ++
                PutUint32 host count ++ wire_digests host pre ++
                PutUint16 host alg ++ rest →
  ReadNextEvent_2_rest host sizes r
  = ((None, true, Some (algorithmNotFound alg)),
     advance (4 + 4 + 4 + length (wire_digests host pre) + 2) r).
Proof.
  intros Hp He Hc Hn Hd Ha Hf Hr.
  unfold ReadNextEvent_2_rest, check, bind.
  rewrite (binary_Read32_put _ _ _ Hr) by lia.
  rewrite decide_False by (unfold maxPCRIndex; lia).
  eapply remaining_advance_app in Hr; [|apply length_store].
  rewrite (binary_Read32_put _ _ _ Hr) by lia.
  eapply remaining_advance_app in Hr; [|apply length_store].
  rewrite (binary_Read32_put _ _ _ Hr) by lia.
  eapply remaining_advance_app in Hr; [|apply length_store].
  replace (Z.to_nat count)
    with (length pre + S (Z.to_nat count - length pre - 1))%nat by lia.
  rewrite (readDigests_entries _ _ _ _ _ _ Hd Hr).
  eapply remaining_advance_app in Hr; [|reflexivity].
  cbn [readDigests]. unfold bind at 1.
  rewrite (binary_Read16_put _ _ _ Hr) by done. rewrite Hf.
  unfold ret. by rewrite !advance_advance.
Qed.

(** ** The [stream] interface *)

Lemma ReadNextEvent_ends s r res s' r' :
  ReadNextEvent host s r = ((res, s'), r') → ends r res r'.
Proof.
  destruct s as [|[sizes first]]; cbn -[ReadNextEvent_1_2 ReadNextEvent_2_rest];
    unfold ReadNextEvent_2, bind, ret; [|destruct first; simpl].
  - destruct (ReadNextEvent_1_2 host r) as [res1 r1] eqn:E.
    intros [= <- <- <-]. by apply ReadNextEvent_1_2_ends.
  - destruct (ReadNextEvent_2_rest host sizes r) as [res1 r1] eqn:E.
    intros [= <- <- <-]. by eapply ReadNextEvent_2_rest_ends.
  - destruct (ReadNextEvent_1_2 host r) as [res1 r1] eqn:E.
    intros [= <- <- <-]. by apply ReadNextEvent_1_2_ends.
Qed.

Lemma ReadNextEvent_pcr s r bs rest :
  remaining r = bs ++ rest → length bs = 4%nat → load host bs > 31 →
  ∃ s', ReadNextEvent host s r
        = ((None, true, Some (invalidPCRIndex (load host bs)), s'),
           advance 4 r).
Proof.
  intros Hr Hl Hv.
  destruct s as [|[sizes first]]; cbn -[ReadNextEvent_1_2 ReadNextEvent_2_rest];
    unfold ReadNextEvent_2, bind, ret; [|destruct first; simpl].
  - rewrite (ReadNextEvent_1_2_pcr _ _ _ Hr Hl Hv). eauto.
  - rewrite (ReadNextEvent_2_rest_pcr _ _ _ _ Hr Hl Hv). eauto.
  - rewrite (ReadNextEvent_1_2_pcr _ _ _ Hr Hl Hv). eauto.
Qed.

(** ** The digests a record leaves in the map *)

Lemma retained_app es1 es2 m : retained (es1 ++ es2) m = retained es2 (retained es1 m).
Proof. unfold retained. by rewrite foldl_app. Qed.

Lemma retained_cons e es m :
  retained (e :: es) m
  = retained es (if decide (is_Some (knownAlgorithms !! e.1))
                 then <[e.1 := e.2]> m else m).
Proof. done. Qed.

Lemma retained_lookup_notin a es m :
  a ∉ es.*1 → retained es m !! a = m !! a.
Proof.
  revert m. induction es as [|e es IH]; intros m Ha; [done|].
  rewrite fmap_cons, not_elem_of_cons in Ha. destruct Ha as [Hne Ha].
  rewrite retained_cons, IH by done.
  case_decide; [|done]. by rewrite lookup_insert_ne.
Qed.

Lemma retained_lookup_inv es m a d :
  retained es m !! a = Some d →
  m !! a = Some d ∨ (is_Some (knownAlgorithms !! a) ∧ (a, d) ∈ es).
Proof.
  revert m. induction es as [|[a' d'] es IH]; intros m H; [by left|].
  rewrite retained_cons in H. apply IH in H as [H|[? ?]].
  - simpl in H. case_decide as Hk; [|by left].
    apply lookup_insert_Some in H as [[<- <-]|[_ H]]; [|by left].
    right. split; [done|]. apply list_elem_of_here.
  - right. split; [done|]. by apply list_elem_of_further.
Qed.

Lemma retained_lookup_is_Some es m a :
  is_Some (knownAlgorithms !! a) → a ∈ es.*1 ∨ is_Some (m !! a) →
  is_Some (retained es m !! a).
Proof.
  intros Hk. revert m. induction es as [|[a' d'] es IH]; intros m Hin.
  - destruct Hin as [Hin|Hin]; [by apply elem_of_nil in Hin|done].
  - rewrite retained_cons. apply IH. simpl.
    rewrite fmap_cons, elem_of_cons in Hin.
    destruct Hin as [[Heq|Hin]|Hin]; [right|by left|right].
    + simpl in Heq. subst a'. rewrite decide_True by done.
      rewrite lookup_insert_eq. eauto.
    + case_decide; [|done]. rewrite lookup_insert_is_Some'. by right.
Qed.

Lemma retained_lookup_elem es m a d :
  (a, d) ∈ es → is_Some (knownAlgorithms !! a) → is_Some (retained es m !! a).
Proof.
  intros Hin Hk. apply retained_lookup_is_Some; [done|]. left.
  apply list_elem_of_fmap. by exists (a, d).
Qed.

Lemma retained_lookup_last es1 a d es2 m :
  is_Some (knownAlgorithms !! a) → a ∉ es2.*1 →
  retained (es1 ++ (a, d) :: es2) m !! a = Some d.
Proof.
  intros Hk Ha. rewrite retained_app, retained_cons. simpl.
  rewrite decide_True by done. rewrite retained_lookup_notin by done.
  apply lookup_insert_eq.
Qed.
(** ** The claims on the record decoder *)

(** C5. In either encoding a record whose PCR index field decodes to more
    than 31 makes [ReadNextEvent] fail with an [InvalidLogError], the
    partial flag set and no event, with the reader exactly four bytes
    further: no byte of the event type, of a digest or of the payload has
    been consumed.  And every event [ReadNextEvent] returns has a PCR index
    of at most 31. *)
Theorem pcr_index_above_31_rejected (s : stream) (r : Reader) :
  (∀ bs rest,
     remaining r = bs ++ rest → length bs = 4%nat → load host bs > 31 →
     ∃ s', ReadNextEvent host s r
           = ((None, true, Some (invalidPCRIndex (load host bs)), s'),
              advance 4 r)) ∧
  (∀ ev partial err s' r',
     ReadNextEvent host s r = ((Some ev, partial, err, s'), r') →
     0 ≤ ePCRIndex ev ≤ 31).
Proof.
  split.
  - intros bs rest Hr Hl Hv. by eapply ReadNextEvent_pcr.
  - intros ev partial err s' r' H. apply ReadNextEvent_ends in H as [_ H].
    destruct partial, err; try done. tauto.
Qed.

(** C6. [Log.NextEvent] returns [io.EOF] only when the source had no byte
    left when the call started; it then returns no event and leaves the
    reader where it was, and on an exhausted source it does return
    [io.EOF].  When the decoder returns [io.EOF] with the partial flag set,
    [NextEvent] returns [io.ErrUnexpectedEOF] instead; and whenever the
    source still held a byte at the start of the call, the error of
    [NextEvent] is not [io.EOF]. *)
Theorem NextEvent_end_of_log (l : Log) (r : Reader) :
  (∀ ev l' r',
     NextEvent host l r = ((ev, Some EOF, l'), r') →
     remaining r = [] ∧ ev = None ∧ r' = r) ∧
  (remaining r = [] → ∃ l', NextEvent host l r = ((None, Some EOF, l'), r)) ∧
  (∀ ev s' r',
     ReadNextEvent host (lstream l) r = ((ev, true, Some EOF, s'), r') →
     NextEvent host l r
     = ((ev, Some ErrUnexpectedEOF, mkLog (lFormat l) (lAlgorithms l) s'),
        r')) ∧
  (remaining r ≠ [] →
   ∀ ev err l' r', NextEvent host l r = ((ev, err, l'), r') → err ≠ Some EOF).
Proof.
  assert (Hclean : ∀ ev l' r',
    NextEvent host l r = ((ev, Some EOF, l'), r') →
    remaining r = [] ∧ ev = None ∧ r' = r).
  { intros ev l' r'. unfold NextEvent, bind, ret.
    destruct (ReadNextEvent host (lstream l) r) as [[[[ev1 p] err] s1] r1] eqn:E.
    apply ReadNextEvent_ends in E as [_ E]. intros [= <- Herr <- <-].
    destruct p; simpl in Herr.
    - case_bool_decide; [done|]. subst err. by destruct ev1.
    - subst err. destruct ev1; [done|]. destruct E as [E|[[=] _]]. tauto. }
  split; [done|]. split; [|split].
  - intros Hr. unfold NextEvent, bind, ret.
    destruct (ReadNextEvent host (lstream l) r) as [[[[ev1 p] err] s1] r1] eqn:E.
    apply ReadNextEvent_ends in E as [_ E].
    destruct ev1 as [ev1|], p, err as [e|]; try done; try tauto.
    destruct E as [(-> & _ & ->)|[_ ?]]; [|done]. simpl. eauto.
  - intros ev s' r' H. unfold NextEvent, bind, ret. by rewrite H.
  - intros Hr ev err l' r' H ->. apply Hclean in H. tauto.
Qed.

(** C2. A record after the first of a crypto-agile log, with a valid PCR
    index, in which the entries [pre] of the digest list are declared by
    the header and are followed, within the count, by an identifier that
    has no entry in the header's [algorithmSizes]: [ReadNextEvent] returns
    no event, the partial flag, and the [InvalidLogError] whose message
    holds that identifier as four hexadecimal digits. *)
Theorem undeclared_algorithm_rejected (sizes : list algorithmSize)
    (r : Reader) (pcrIndex eventType count : Z)
    (pre : list (AlgorithmId * Digest)) (alg : AlgorithmId)
    (rest : list byte) :
  0 ≤ pcrIndex ≤ 31 → 0 ≤ eventType < 2 ^ 32 → 0 ≤ count < 2 ^ 32 →
  Z.of_nat (length pre) < count →
  Forall (declared sizes) pre →
  0 ≤ alg < 2 ^ 16 → findDigestSize sizes alg = None →
  remaining r = PutUint32 host pcrIndex ++ PutUint32 host eventType ++
                PutUint32 host count ++ wire_digests host pre ++
                PutUint16 host alg ++ rest →
  fst (ReadNextEvent host (Stream_2 (mkStream_2 sizes true)) r)
  = ((None, true,
      Some (InvalidLogError ("Entry for algorithm '" +:+ fmt_04x alg +:+
                             "' not found in log header"))),
     Stream_2 (mkStream_2 sizes true)).
Proof.
  intros Hp He Hc Hn Hd Ha Hf Hr.
  cbn -[ReadNextEvent_2_rest]. unfold bind.
  by rewrite (ReadNextEvent_2_rest_undeclared _ _ _ _ _ _ _ _
                Hp He Hc Hn Hd Ha Hf Hr).
Qed.

(** C7. A record after the first of a crypto-agile log whose digest
    entries are all declared by the header, each with a digest of the
    length the header gives for its identifier: [ReadNextEvent] succeeds,
    leaves the reader at the end of the record, and returns an event whose
    digest map holds an entry of the record for every identifier of the
    digest catalog the record carries and nothing else; an entry for an
    identifier outside the catalog is read and dropped. *)
Theorem recognized_digests_retained (sizes : list algorithmSize) (r : Reader)
    (pcrIndex eventType : Z) (entries : list (AlgorithmId * Digest))
    (data rest : list byte) :
  0 ≤ pcrIndex ≤ 31 → 0 ≤ eventType < 2 ^ 32 →
  Z.of_nat (length entries) < 2 ^ 32 → Z.of_nat (length data) < 2 ^ 32 →
  Forall (declared sizes) entries →
  remaining r = wire_record_2 host pcrIndex eventType entries data ++ rest →
  ∃ digests r',
    ReadNextEvent host (Stream_2 (mkStream_2 sizes true)) r
    = ((Some (mkEvent pcrIndex eventType digests data), false, None,
        Stream_2 (mkStream_2 sizes true)), r') ∧
    remaining r' = rest ∧
    (∀ a d, digests !! a = Some d →
            a ∈ [AlgorithmSha1; AlgorithmSha256; AlgorithmSha384;
                 AlgorithmSha512] ∧ (a, d) ∈ entries) ∧
    (∀ a d, (a, d) ∈ entries →
            a ∈ [AlgorithmSha1; AlgorithmSha256; AlgorithmSha384;
                 AlgorithmSha512] → is_Some (digests !! a)) ∧
    (∀ a, a ∉ [AlgorithmSha1; AlgorithmSha256; AlgorithmSha384;
               AlgorithmSha512] → digests !! a = None).
Proof.
  intros Hp He Hn Hs Hd Hr. eexists _, _. split; [|split; [|split; [|split]]].
  - cbn -[ReadNextEvent_2_rest]. unfold bind, ret.
    by rewrite (ReadNextEvent_2_rest_record _ _ _ _ _ _ _ Hp He Hn Hs Hd Hr).
  - by eapply remaining_advance_app.
  - intros a d H. apply retained_lookup_inv in H as [H|[Hk Hin]]; [done|].
    by rewrite <- knownAlgorithms_is_Some.
  - intros a d Hin Hk. eapply retained_lookup_elem; [done|].
    by rewrite knownAlgorithms_is_Some.
  - intros a Ha. rewrite <- knownAlgorithms_is_Some in Ha.
    destruct (retained entries ∅ !! a) as [d|] eqn:E; [|done].
    apply retained_lookup_inv in E as [E|[Hk _]]; done.
Qed.

(** C10. A record after the first of a crypto-agile log in which an
    identifier of the digest catalog occurs again after an earlier entry
    for it (all entries being declared by the header): [ReadNextEvent]
    succeeds, leaves the reader at the end of the record, and the digest map
    binds the identifier to the digest of its last occurrence; the map has
    one entry per identifier. *)
Theorem duplicate_algorithm_last_wins (sizes : list algorithmSize)
    (r : Reader) (pcrIndex eventType : Z)
    (es1 es2 : list (AlgorithmId * Digest)) (a : AlgorithmId) (d : Digest)
    (data rest : list byte) :
  0 ≤ pcrIndex ≤ 31 → 0 ≤ eventType < 2 ^ 32 →
  Z.of_nat (length (es1 ++ (a, d) :: es2)) < 2 ^ 32 →
  Z.of_nat (length data) < 2 ^ 32 →
  Forall (declared sizes) (es1 ++ (a, d) :: es2) →
  a ∈ [AlgorithmSha1; AlgorithmSha256; AlgorithmSha384; AlgorithmSha512] →
  a ∈ es1.*1 → a ∉ es2.*1 →
  remaining r
  = wire_record_2 host pcrIndex eventType (es1 ++ (a, d) :: es2) data ++ rest →
  ∃ digests r',
    ReadNextEvent host (Stream_2 (mkStream_2 sizes true)) r
    = ((Some (mkEvent pcrIndex eventType digests data), false, None,
        Stream_2 (mkStream_2 sizes true)), r') ∧
    remaining r' = rest ∧
    digests !! a = Some d ∧
    NoDup (map_to_list digests).*1.
Proof.
  intros Hp He Hn Hs Hd Hk _ Ha Hr. eexists _, _.
  split; [|split; [|split]].
  - cbn -[ReadNextEvent_2_rest]. unfold bind, ret.
    by rewrite (ReadNextEvent_2_rest_record _ _ _ _ _ _ _ Hp He Hn Hs Hd Hr).
  - by eapply remaining_advance_app.
  - apply retained_lookup_last; [|done]. by rewrite knownAlgorithms_is_Some.
  - apply NoDup_fst_map_to_list.
Qed.

(** ** The header parser *)

Lemma wire_algorithm_sizes_cons a sizes :
  wire_algorithm_sizes host (a :: sizes)
  = PutUint16 host (algorithmId a) ++ PutUint16 host (digestSize a) ++
    wire_algorithm_sizes host sizes.
Proof. unfold wire_algorithm_sizes. simpl. by rewrite <- app_assoc. Qed.

Lemma readAlgorithmSizes_wire sizes r rest :
  Forall (λ a, 0 ≤ algorithmId a < 2 ^ 16 ∧ 0 ≤ digestSize a < 2 ^ 16) sizes →
  remaining r = wire_algorithm_sizes host sizes ++ rest →
  fst (readAlgorithmSizes host (length sizes) r) = Some sizes.
Proof.
  intros Hs. revert r. induction Hs as [|[a n] sizes [Ha Hn] _ IH]; intros r Hr.
  - done.
  - rewrite wire_algorithm_sizes_cons in Hr. rewrite <- !app_assoc in Hr.
    cbn [length readAlgorithmSizes algorithmId digestSize] in *.
    unfold bind at 1. rewrite (binary_Read16_put _ _ _ Hr) by done.
    eapply remaining_advance_app in Hr; [|apply length_store].
    unfold bind at 1. rewrite (binary_Read16_put _ _ _ Hr) by done.
    eapply remaining_advance_app in Hr; [|apply length_store].
    unfold bind, ret. specialize (IH _ Hr).
    destruct (readAlgorithmSizes host (length sizes) _) as [tl r'].
    simpl in *. by rewrite IH.
Qed.

Lemma isZeroDigest_zeros n : isZeroDigest (zeros n) = true.
Proof.
  unfold isZeroDigest, zeros. induction n as [|n IH]; [done|].
  cbn [replicate forallb]. by rewrite bool_decide_eq_true_2.
Qed.

(** A header laid out in the host's order is parsed to the algorithm sizes
    it declares, in their order. *)
Lemma parseTCG2LogHeader_wire info sizes vendor :
  length info = 8%nat →
  Forall (λ a, 0 ≤ algorithmId a < 2 ^ 16 ∧ 0 ≤ digestSize a < 2 ^ 16) sizes →
  Z.of_nat (length sizes) < 2 ^ 32 →
  (29 ≤ length (wire_header_data host info sizes vendor))%nat →
  parseTCG2LogHeader host
    (mkEvent 0 EventTypeNoAction (<[AlgorithmSha1 := zeros 20]> ∅)
       (wire_header_data host info sizes vendor))
  = Some sizes.
Proof.
  intros Hi Hs Hn Hlen. unfold parseTCG2LogHeader.
  cbn [ePCRIndex eEventType eDigests eData].
  rewrite decide_False by (intros H; by apply H).
  rewrite decide_False by (intros H; by apply H).
  rewrite lookup_insert_eq. cbn [default from_option id].
  rewrite isZeroDigest_zeros. cbn [negb].
  rewrite decide_False by lia.
  assert (Hsig : length signature = 16%nat) by done.
  unfold wire_header_data in *.
  rewrite decide_False.
  2:{ intros H. apply H. rewrite <- Hsig. by rewrite take_app_length. }
  assert (Hrem : remaining (mkReader (drop 24 (signature ++ info ++
      PutUint32 host (Z.of_nat (length sizes)) ++
      wire_algorithm_sizes host sizes ++ vendor)) 0)
    = PutUint32 host (Z.of_nat (length sizes)) ++
      wire_algorithm_sizes host sizes ++ vendor).
  { unfold remaining. cbn [buf pos]. rewrite drop_0.
    rewrite (app_assoc signature info).
    rewrite drop_app_length'; [done|]. rewrite length_app. lia. }
  rewrite (binary_Read32_put _ _ _ Hrem) by lia.
  eapply remaining_advance_app in Hrem; [|apply length_store].
  rewrite Nat2Z.id. by apply readAlgorithmSizes_wire with (rest := vendor).
Qed.

(** ** Opening a log *)

Lemma Seek_current r : Seek 0 SeekCurrent r = ((Z.of_nat (pos r), None), r).
Proof.
  unfold Seek. rewrite decide_False by lia. rewrite Z.add_0_r, Nat2Z.id.
  by destruct r.
Qed.

Lemma Seek_start r n :
  Seek (Z.of_nat n) SeekStart r = ((Z.of_nat n, None), mkReader (buf r) n).
Proof. unfold Seek. rewrite decide_False by lia. by rewrite Nat2Z.id. Qed.

(** Once the first record has been read, [newLogFromReader] is at the
    start again and what it returns is decided by the header parser. *)
Lemma newLogFromReader_read r ev partial r1 :
  ReadNextEvent_1_2 host r = ((Some ev, partial, None), r1) →
  newLogFromReader host r
  = (match parseTCG2LogHeader host ev with
     | Some algSizes =>
         match collectAlgorithms algSizes [] with
         | inl e => (None, Some e)
         | inr algorithms =>
             (Some (mkLog Format2 algorithms
                      (Stream_2 (mkStream_2 algSizes false))), None)
         end
     | None => (Some (mkLog Format1_2 [AlgorithmSha1] Stream_1_2), None)
     end, r).
Proof.
  intros H. pose proof (ReadNextEvent_1_2_ends _ _ _ H) as [Hb _].
  unfold newLogFromReader, bind. rewrite Seek_current.
  cbn -[ReadNextEvent_1_2 parseTCG2LogHeader]. unfold bind. rewrite H.
  cbn -[ReadNextEvent_1_2 parseTCG2LogHeader Seek]. rewrite Seek_start, Hb.
  replace (mkReader (buf r) (pos r)) with r by (by destruct r).
  destruct (parseTCG2LogHeader host ev); [|done].
  by destruct (collectAlgorithms _ _).
Qed.

(** When the first record cannot be read, [newLogFromReader] returns the
    error of the read, with [io.EOF] turned into [io.ErrUnexpectedEOF], and
    does not seek: the reader stays where the read left it. *)
Lemma newLogFromReader_read_error r e partial r1 :
  ReadNextEvent_1_2 host r = ((None, partial, Some e), r1) →
  newLogFromReader host r
  = ((None, Some (if decide (e = EOF) then ErrUnexpectedEOF else e)), r1).
Proof.
  intros H. unfold newLogFromReader, bind. rewrite Seek_current.
  cbn -[ReadNextEvent_1_2]. unfold bind. by rewrite H.
Qed.


Lemma collectAlgorithms_match algSizes algorithms :
  (∀ a known, a ∈ algSizes → knownAlgorithms !! algorithmId a = Some known →
              known = digestSize a) →
  collectAlgorithms algSizes algorithms
  = inr (algorithms ++
         filter (λ a, is_Some (knownAlgorithms !! a)) (algorithmId <$> algSizes)).
Proof.
  revert algorithms. induction algSizes as [|a algSizes IH];
    intros algorithms Hm.
  - simpl. by rewrite app_nil_r.
  - cbn [collectAlgorithms]. rewrite fmap_cons, filter_cons.
    destruct (knownAlgorithms !! algorithmId a) as [k|] eqn:Hk.
    + rewrite decide_False.
      2:{ intros Hne. apply Hne. eapply Hm; [apply list_elem_of_here|done]. }
      rewrite decide_True by eauto.
      rewrite IH by (intros; eapply Hm; [by apply list_elem_of_further|done]).
      by rewrite <- app_assoc.
    + rewrite decide_False by (by intros [? ?]).
      apply IH. intros; eapply Hm; [by apply list_elem_of_further|done].
Qed.

(** A record without the header's shape is not parsed as a header. *)
Lemma parseTCG2LogHeader_shape ev algSizes :
  parseTCG2LogHeader host ev = Some algSizes → header_shape ev.
Proof.
  unfold parseTCG2LogHeader, header_shape. intros H.
  destruct (decide (ePCRIndex ev ≠ 0)) as [|Hp]; [done|].
  destruct (decide (eEventType ev ≠ EventTypeNoAction)) as [|Ht]; [done|].
  destruct (isZeroDigest _) eqn:Hz; [|done]. cbn [negb] in H.
  destruct (decide (length (eData ev) < 29)%nat); [done|].
  destruct (decide (take 16 (eData ev) ≠ signature)) as [|Hs]; [done|].
  split; [lia|]. split; [by destruct (decide (eEventType ev = EventTypeNoAction))|].
  split; [|by destruct (decide (take 16 (eData ev) = signature))].
  intros d Hd. rewrite Hd in Hz. simpl in Hz. unfold isZeroDigest in Hz.
  rewrite forallb_forall in Hz. rewrite Forall_forall. intros b Hb.
  apply list_elem_of_In, Hz in Hb. by apply bool_decide_eq_true in Hb.
Qed.


(** C4. When the first record of the source can be read in the legacy
    layout, [newLogFromReader] leaves the reader exactly as it found it,
    whether it returns a log or the size-mismatch error.  If that record
    has not the shape of a crypto-agile header, the log has the legacy
    format and the algorithms [[AlgorithmSha1]].  And whatever the format of
    the log returned, its first [NextEvent] returns the event and leaves
    the reader that the legacy decoder gives on the source from its
    start. *)
Theorem format_detection_restores_position (r : Reader)
    (ev : Event (list byte)) (partial : bool) (r1 : Reader) :
  ReadNextEvent_1_2 host r = ((Some ev, partial, None), r1) →
  snd (newLogFromReader host r) = r ∧
  (¬ header_shape ev →
   fst (newLogFromReader host r)
   = (Some (mkLog Format1_2 [AlgorithmSha1] Stream_1_2), None)) ∧
  (∀ l, fst (newLogFromReader host r) = (Some l, None) →
        (lFormat l = Format1_2 ∨ lFormat l = Format2) ∧
        ∃ l', NextEvent host l (snd (newLogFromReader host r))
              = ((Some ev, None, l'), r1)).
Proof.
  intros Hread. rewrite (newLogFromReader_read _ _ _ _ Hread).
  pose proof (ReadNextEvent_1_2_ends _ _ _ Hread) as [_ Hends].
  assert (partial = false) as -> by (by destruct partial).
  split; [done|]. split.
  - intros Hshape.
    destruct (parseTCG2LogHeader host ev) as [algSizes|] eqn:Hp; [|done].
    by apply parseTCG2LogHeader_shape in Hp.
  - intros l Hl. cbn [fst snd] in *.
    destruct (parseTCG2LogHeader host ev) as [algSizes|].
    + destruct (collectAlgorithms algSizes []) as [e|algs]; [done|].
      injection Hl as <-. split; [by right|].
      unfold NextEvent, bind. cbn -[ReadNextEvent_1_2].
      unfold bind. rewrite Hread. simpl. eauto.
    + injection Hl as <-. split; [by left|].
      unfold NextEvent, bind. cbn -[ReadNextEvent_1_2].
      unfold bind. rewrite Hread. simpl. eauto.
Qed.

End DecoderProperties.

(** ** The claims on the event validator *)

Section ValidatorProperties.
Context `{K : Constants}.
Variables sha1_Sum sha256_Sum256 sha512_Sum384 sha512_Sum512
  : list byte → list byte.

Local Abbreviation hash_of := (hash sha1_Sum sha256_Sum256 sha512_Sum384 sha512_Sum512).
Local Abbreviation separator_loop :=
  (checkSeparatorDigests sha1_Sum sha256_Sum256 sha512_Sum384 sha512_Sum512).
Local Abbreviation check_event :=
  (checkEvent LittleEndian sha1_Sum sha256_Sum256 sha512_Sum384 sha512_Sum512).
Local Abbreviation check_event_on host :=
  (checkEvent host sha1_Sum sha256_Sum256 sha512_Sum384 sha512_Sum512).

Lemma hash_is_Some d alg :
  alg ∈ [AlgorithmSha1; AlgorithmSha256; AlgorithmSha384; AlgorithmSha512] →
  is_Some (hash_of d alg).
Proof.
  rewrite !elem_of_cons, elem_of_nil. unfold hash.
  intros [->|[->|[->|[->|[]]]]]; repeat case_decide; try done; eauto.
Qed.

(** The loop over the digests of a separator, when every bank visited has
    a hash function: either every digest is the hash and the loop falls
    through, or it returns the error for a bank whose digest is not. *)
Lemma checkSeparatorDigests_cases eventType d visit :
  (∀ alg digest, (alg, digest) ∈ visit → is_Some (hash_of d alg)) →
  ((∀ alg digest, (alg, digest) ∈ visit → hash_of d alg = Some digest) ∧
   separator_loop eventType d visit = Returns None) ∨
  (∃ alg digest,
     (alg, digest) ∈ visit ∧ hash_of d alg ≠ Some digest ∧
     separator_loop eventType d visit
     = Returns (Some (UnexpectedDigestValueError eventType alg digest))).
Proof.
  induction visit as [|[alg digest] visit IH]; intros Hh.
  - left. split; [|done]. intros ?? Hin. by apply elem_of_nil in Hin.
  - cbn [checkSeparatorDigests].
    destruct (Hh alg digest) as [h Hhash]; [apply list_elem_of_here|].
    rewrite Hhash. case_decide as Hne.
    + right. exists alg, digest. split; [apply list_elem_of_here|].
      split; [congruence|done].
    + subst h.
      destruct IH as [[Hall ->]|(a & dg & Hin & Hm & ->)].
      * intros ?? Hin. eapply Hh. by apply list_elem_of_further.
      * left. split; [|done]. intros a dg [[= -> ->]|Hin]%elem_of_cons; eauto.
      * right. exists a, dg. split; [by apply list_elem_of_further|done].
Qed.

(** C8. [checkEvent] on a separator event whose digest map holds banks of
    the digest catalog only, on either host and for every order in which
    the map is visited: it returns an [UnexpectedEventTypeError] if the PCR
    index exceeds 7 and otherwise an [InvalidEventDataError] if the payload
    did not decode as a separator record; when neither is the case, it
    returns [nil] if every bank's digest is that bank's hash of [d], and an
    [UnexpectedDigestValueError] that names a bank whose digest is not that
    hash if there is such a bank, where [d] is the payload bytes for a
    normal separator and, for an error-indicating one, the [uint32] 1 in
    the byte order of the host: the bytes 01 00 00 00 on a little-endian
    host and 00 00 00 01 on a big-endian one. *)
Theorem separator_check (host : ByteOrder) (e : Event EventData) (f : Format)
    (visit : list (AlgorithmId * Digest)) :
  eEventType e = EventTypeSeparator →
  visit ≡ₚ map_to_list (eDigests e) →
  (∀ alg, is_Some (eDigests e !! alg) →
     alg ∈ [AlgorithmSha1; AlgorithmSha256; AlgorithmSha384; AlgorithmSha512]) →
  (ePCRIndex e > 7 →
   check_event_on host e f visit
   = Returns (Some (UnexpectedEventTypeError (eEventType e) (ePCRIndex e)))) ∧
  (ePCRIndex e ≤ 7 → ∀ data, eData e = OtherEventData data →
   check_event_on host e f visit
   = Returns (Some (InvalidEventDataError (eEventType e) (eData e)))) ∧
  (ePCRIndex e ≤ 7 → ∀ sType data, eData e = SeparatorEventData sType data →
   let d := if decide (sType = SeparatorEventTypeError)
            then separatorErrorValue host else data in
   ((∀ alg digest, eDigests e !! alg = Some digest →
                   hash_of d alg = Some digest) →
    check_event_on host e f visit = Returns None) ∧
   ((∃ alg digest, eDigests e !! alg = Some digest ∧
                   hash_of d alg ≠ Some digest) →
    ∃ alg digest,
      check_event_on host e f visit
      = Returns (Some (UnexpectedDigestValueError (eEventType e) alg digest)) ∧
      eDigests e !! alg = Some digest ∧ hash_of d alg ≠ Some digest)) ∧
  separatorErrorValue host
  = match host with
    | LittleEndian => [x01; x00; x00; x00]
    | BigEndian => [x00; x00; x00; x01]
    end.
Proof.
  intros Ht Hperm Hbanks.
  pose proof event_types_distinct as Hd.
  rewrite !NoDup_cons, !not_elem_of_cons in Hd.
  assert (Hvisit : ∀ alg digest,
    (alg, digest) ∈ visit ↔ eDigests e !! alg = Some digest).
  { intros. rewrite Hperm. apply elem_of_map_to_list. }
  unfold checkEvent. rewrite Ht.
  rewrite decide_False by (intros Heq; symmetry in Heq; tauto).
  rewrite decide_False by (intros Heq; symmetry in Heq; tauto).
  rewrite decide_True by done.
  split; [|split; [|split]].
  - intros Hp. by rewrite decide_True.
  - intros Hp data Hdata. rewrite decide_False by lia. by rewrite Hdata.
  - intros Hp sType data Hdata.
    rewrite (decide_False (P := ePCRIndex e > 7)) by lia.
    rewrite Hdata. cbn [Bytes].
    set (d := if decide (sType = SeparatorEventTypeError)
              then separatorErrorValue host else data).
    destruct (checkSeparatorDigests_cases EventTypeSeparator d visit)
      as [[Hall Hres]|(a & dg & Hin & Hm & Hres)].
    { intros alg digest Hin. apply hash_is_Some, Hbanks.
      apply Hvisit in Hin. eauto. }
    + split; [done|]. intros (a & dg & Hin & Hm).
      apply Hvisit, Hall in Hin. done.
    + split.
      * intros Hall. apply Hvisit, Hall in Hin. done.
      * intros _. exists a, dg. split; [done|]. by rewrite <- Hvisit.
  - by destruct host.
Qed.

(** C9. [checkEvent] on an event-tag event returns an
    [UnexpectedEventTypeError] exactly when the PCR index exceeds 4 or the
    format is the crypto-agile one and the PCR index is in 0..3, and [nil]
    otherwise: at PCR 4 it returns [nil] under both formats, at PCR 0..3
    under the legacy format only. *)
Theorem event_tag_check (e : Event EventData) (f : Format)
    (visit : list (AlgorithmId * Digest)) :
  eEventType e = EventTypeEventTag → 0 ≤ ePCRIndex e →
  (check_event e f visit
   = Returns (Some (UnexpectedEventTypeError (eEventType e) (ePCRIndex e))) ↔
   ePCRIndex e > 4 ∨ (f = Format2 ∧ 0 ≤ ePCRIndex e ≤ 3)) ∧
  (check_event e f visit = Returns None ↔
   ¬ (ePCRIndex e > 4 ∨ (f = Format2 ∧ 0 ≤ ePCRIndex e ≤ 3))) ∧
  (ePCRIndex e = 4 →
   check_event e Format1_2 visit = Returns None ∧
   check_event e Format2 visit = Returns None) ∧
  (0 ≤ ePCRIndex e ≤ 3 →
   check_event e Format1_2 visit = Returns None ∧
   check_event e Format2 visit
   = Returns (Some (UnexpectedEventTypeError (eEventType e) (ePCRIndex e)))).
Proof.
  intros Ht Hp.
  pose proof event_types_distinct as Hd. pose proof formats_distinct as Hf.
  rewrite !NoDup_cons, !not_elem_of_cons in Hd.
  assert (Hcheck : ∀ f', check_event e f' visit
    = if decide (ePCRIndex e > 4 ∨ (ePCRIndex e < 4 ∧ f' = Format2))
      then Returns (Some (UnexpectedEventTypeError (eEventType e) (ePCRIndex e)))
      else Returns None).
  { intros f'. unfold checkEvent. rewrite Ht.
    rewrite decide_False by (intros Heq; symmetry in Heq; tauto).
    rewrite decide_False by (intros Heq; symmetry in Heq; tauto).
    rewrite decide_False by (intros Heq; symmetry in Heq; tauto).
    by rewrite decide_True. }
  rewrite !Hcheck. repeat split; repeat case_decide; try done; try lia;
    try tauto; intros; try lia; try tauto.
Qed.

End ValidatorProperties.

(** ** Byte order of the decoded fields *)

Lemma le_value_little_endian bs : le_value bs = little_endian bs.
Proof.
  induction bs as [|b bs IH]; [done|].
  rewrite le_value_cons, IH. done.
Qed.

Lemma load_native_value host bs : load host bs = native_value host bs.
Proof. destruct host; apply le_value_little_endian. Qed.

(** C1, as the code has it.  Every multi-byte integer field is decoded in
    the byte order of the executing machine: a 32-bit or 16-bit field read
    from the source has the little-endian value of its bytes on a
    little-endian host and their big-endian value on a big-endian host; a
    record laid out in the host's order, in either encoding, decodes to its
    fields, and so does a crypto-agile header; and the value an error-indicating separator measures is the
    host's encoding of 1, the bytes 01 00 00 00 on a little-endian host and
    00 00 00 01 on a big-endian one. *)
Theorem native_byte_order_decoding `{K : Constants} (host : ByteOrder) :
  (∀ r bs rest, length bs = 4%nat → remaining r = bs ++ rest →
     binary_Read32 host r = ((native_value host bs, None), advance 4 r)) ∧
  (∀ r bs rest, length bs = 2%nat → remaining r = bs ++ rest →
     binary_Read16 host r = ((native_value host bs, None), advance 2 r)) ∧
  (∀ r pcrIndex eventType digest data rest,
     0 ≤ pcrIndex ≤ 31 → 0 ≤ eventType < 2 ^ 32 → length digest = 20%nat →
     Z.of_nat (length data) < 2 ^ 32 →
     remaining r = wire_record_1_2 host pcrIndex eventType digest data ++ rest →
     fst (ReadNextEvent_1_2 host r)
     = (Some (mkEvent pcrIndex eventType (<[AlgorithmSha1 := digest]> ∅) data),
        false, None)) ∧
  (∀ sizes r pcrIndex eventType entries data rest,
     0 ≤ pcrIndex ≤ 31 → 0 ≤ eventType < 2 ^ 32 →
     Z.of_nat (length entries) < 2 ^ 32 → Z.of_nat (length data) < 2 ^ 32 →
     Forall (declared sizes) entries →
     remaining r = wire_record_2 host pcrIndex eventType entries data ++ rest →
     fst (ReadNextEvent_2_rest host sizes r)
     = (Some (mkEvent pcrIndex eventType (retained entries ∅) data),
        false, None)) ∧
  (∀ info sizes vendor,
     length info = 8%nat →
     Forall (λ a, 0 ≤ algorithmId a < 2 ^ 16 ∧ 0 ≤ digestSize a < 2 ^ 16)
       sizes →
     Z.of_nat (length sizes) < 2 ^ 32 →
     (29 ≤ length (wire_header_data host info sizes vendor))%nat →
     parseTCG2LogHeader host
       (mkEvent 0 EventTypeNoAction (<[AlgorithmSha1 := zeros 20]> ∅)
          (wire_header_data host info sizes vendor))
     = Some sizes) ∧
  separatorErrorValue host
  = match host with
    | LittleEndian => [x01; x00; x00; x00]
    | BigEndian => [x00; x00; x00; x01]
    end.
Proof.
  split; [|split; [|split; [|split; [|split]]]].
  - intros r bs rest Hl Hr. rewrite <- load_native_value.
    by apply (binary_Read32_ok host r bs rest).
  - intros r bs rest Hl Hr. rewrite <- load_native_value.
    by apply (binary_Read16_ok host r bs rest).
  - intros r pcrIndex eventType digest data rest Hp He Hd Hs Hr.
    by rewrite (ReadNextEvent_1_2_record _ _ _ _ _ _ _ Hp He Hd Hs Hr).
  - intros sizes r pcrIndex eventType entries data rest Hp He Hn Hs Hd Hr.
    by rewrite (ReadNextEvent_2_rest_record _ _ _ _ _ _ _ _ Hp He Hn Hs Hd Hr).
  - intros info sizes vendor. apply parseTCG2LogHeader_wire.
  - by destruct host.
Qed.

(** ** The properties on the sample logs *)

(** Against C1 as the specification words it: on a big-endian host the
    record of [sample_legacy], written on a little-endian machine for PCR 1,
    is rejected for its PCR index.  What is decoded is not a function of the
    wire bytes alone. *)
Lemma decoding_depends_on_host :
  fst (ReadNextEvent_1_2 (K := tcg) LittleEndian sample_legacy)
  = (Some (mkEvent 1 13 {[ 4 := zeros 20 ]} sample_data), false, None) ∧
  fst (ReadNextEvent_1_2 (K := tcg) BigEndian sample_legacy)
  = (None, true, Some (InvalidLogError "Invalid PCR index '16777216'")) ∧
  ¬ (∀ host, ReadNextEvent_1_2 (K := tcg) host sample_legacy
             = ReadNextEvent_1_2 (K := tcg) LittleEndian sample_legacy).
Proof.
  split; [by vm_compute|]. split; [by vm_compute|].
  intros H. specialize (H BigEndian). by vm_compute in H.
Qed.

Lemma native_byte_order_decoding_witness :
  binary_Read32 BigEndian sample_legacy
  = ((16777216, None), advance 4 sample_legacy) ∧
  binary_Read32 LittleEndian sample_legacy
  = ((1, None), advance 4 sample_legacy).
Proof.
  split.
  - apply (proj1 (native_byte_order_decoding (K := tcg) BigEndian)
             sample_legacy [x01; x00; x00; x00]
             (drop 4 (buf sample_legacy))); reflexivity.
  - apply (proj1 (native_byte_order_decoding (K := tcg) LittleEndian)
             sample_legacy [x01; x00; x00; x00]
             (drop 4 (buf sample_legacy))); reflexivity.
Defined.

Lemma pcr_index_above_31_rejected_witness :
  ∃ s', ReadNextEvent (K := tcg) LittleEndian
          (Stream_2 (mkStream_2 sample_sizes true)) sample_pcr32
        = ((None, true, Some (InvalidLogError "Invalid PCR index '32'"), s'),
           advance 4 sample_pcr32).
Proof.
  apply (proj1 (pcr_index_above_31_rejected (K := tcg) LittleEndian
                  (Stream_2 (mkStream_2 sample_sizes true)) sample_pcr32)
           [x20; x00; x00; x00] ([x03; x00; x00; x00] ++ zeros 20));
    reflexivity.
Defined.

Lemma NextEvent_end_of_log_witness :
  (∃ l', NextEvent (K := tcg) LittleEndian sample_log sample_empty
         = ((None, Some EOF, l'), sample_empty)) ∧
  NextEvent (K := tcg) LittleEndian sample_log sample_truncated
  = ((None, Some ErrUnexpectedEOF, sample_log), advance 4 sample_truncated).
Proof.
  split.
  - apply (proj1 (proj2 (NextEvent_end_of_log (K := tcg) LittleEndian
                           sample_log sample_empty))).
    reflexivity.
  - apply (proj1 (proj2 (proj2 (NextEvent_end_of_log (K := tcg) LittleEndian
                                  sample_log sample_truncated)))).
    reflexivity.
Defined.

Lemma undeclared_algorithm_rejected_witness :
  fst (ReadNextEvent (K := tcg) LittleEndian
         (Stream_2 (mkStream_2 sample_sizes true)) sample_undeclared)
  = ((None, true,
      Some (InvalidLogError
              "Entry for algorithm '000c' not found in log header")),
     Stream_2 (mkStream_2 sample_sizes true)).
Proof.
  apply (undeclared_algorithm_rejected (K := tcg) LittleEndian sample_sizes
           sample_undeclared 0 13 2 [(4, zeros 20)] 12 (zeros 48));
    try (simpl; lia); try reflexivity.
  repeat constructor; simpl; lia.
Defined.

Lemma recognized_digests_retained_witness :
  ∃ digests r',
    ReadNextEvent (K := tcg) LittleEndian
      (Stream_2 (mkStream_2 sample_sizes_unrecognized true)) sample_unrecognized
    = ((Some (mkEvent 0 13 digests sample_data), false, None,
        Stream_2 (mkStream_2 sample_sizes_unrecognized true)), r') ∧
    remaining r' = [] ∧
    (∀ a d, digests !! a = Some d →
            a ∈ [4; 11; 12; 13] ∧
            (a, d) ∈ [(18, [x01; x02; x03]); (4, zeros 20)]) ∧
    (∀ a d, (a, d) ∈ [(18, [x01; x02; x03]); (4, zeros 20)] →
            a ∈ [4; 11; 12; 13] → is_Some (digests !! a)) ∧
    (∀ a, a ∉ [4; 11; 12; 13] → digests !! a = None).
Proof.
  apply (recognized_digests_retained (K := tcg) LittleEndian
           sample_sizes_unrecognized sample_unrecognized 0 13
           [(18, [x01; x02; x03]); (4, zeros 20)] sample_data []);
    try (simpl; lia); try reflexivity.
  repeat constructor; simpl; lia.
Defined.

Lemma duplicate_algorithm_last_wins_witness :
  ∃ digests r',
    ReadNextEvent (K := tcg) LittleEndian
      (Stream_2 (mkStream_2 sample_sizes true)) sample_duplicate
    = ((Some (mkEvent 0 13 digests sample_data), false, None,
        Stream_2 (mkStream_2 sample_sizes true)), r') ∧
    remaining r' = [] ∧
    digests !! 4 = Some (replicate 20 x01) ∧
    NoDup (map_to_list digests).*1.
Proof.
  apply (duplicate_algorithm_last_wins (K := tcg) LittleEndian sample_sizes
           sample_duplicate 0 13 [(4, zeros 20)] [(11, zeros 32)] 4
           (replicate 20 x01) sample_data []);
    try (simpl; lia); try reflexivity.
  - repeat constructor; simpl; lia.
  - by apply (bool_decide_unpack _).
  - by apply (bool_decide_unpack _).
  - by apply (bool_decide_unpack _).
Defined.


Lemma format_detection_restores_position_witness :
  snd (newLogFromReader (K := tcg) LittleEndian sample_legacy) = sample_legacy ∧
  snd (newLogFromReader (K := tcg) LittleEndian
         (sample_header sample_sizes_mismatch))
  = sample_header sample_sizes_mismatch.
Proof.
  split.
  - refine (proj1 (format_detection_restores_position (K := tcg) LittleEndian
                     sample_legacy
                     (mkEvent 1 13 {[ 4 := zeros 20 ]} sample_data) false
                     (advance 34 sample_legacy) _)).
    reflexivity.
  - refine (proj1 (format_detection_restores_position (K := tcg) LittleEndian
                     (sample_header sample_sizes_mismatch)
                     (mkEvent 0 3 {[ 4 := zeros 20 ]}
                        (sample_header_data sample_sizes_mismatch))
                     false (advance 69 (sample_header sample_sizes_mismatch))
                     _)).
    reflexivity.
Defined.

(** Against C8 as the specification words it: the error-indicating
    separator of [sample_separator] carries the digest of the bytes
    01 00 00 00, the little-endian value the specification names.  It
    passes on a little-endian host; on a big-endian host [checkEvent]
    measures 00 00 00 01 instead and reports the digest. *)
Lemma separator_value_depends_on_host :
  eDigests sample_separator !! 4 = Some (sample_hash [x01; x00; x00; x00]) ∧
  checkEvent (K := tcg) LittleEndian sample_hash sample_hash sample_hash
    sample_hash sample_separator 2 (map_to_list (eDigests sample_separator))
  = Returns None ∧
  checkEvent (K := tcg) BigEndian sample_hash sample_hash sample_hash
    sample_hash sample_separator 2 (map_to_list (eDigests sample_separator))
  = Returns (Some (UnexpectedDigestValueError 4 4 [x01; x00; x00; x00])) ∧
  ¬ (∀ host,
       checkEvent (K := tcg) host sample_hash sample_hash sample_hash
         sample_hash sample_separator 2
         (map_to_list (eDigests sample_separator))
       = Returns None).
Proof.
  split; [by vm_compute|]. split; [by vm_compute|]. split; [by vm_compute|].
  intros H. specialize (H BigEndian). by vm_compute in H.
Qed.

Lemma separator_check_witness :
  checkEvent (K := tcg) LittleEndian sample_hash sample_hash sample_hash
    sample_hash sample_separator 2 (map_to_list (eDigests sample_separator))
  = Returns None.
Proof.
  refine (proj1 (proj1 (proj2 (proj2 (separator_check (K := tcg) sample_hash
            sample_hash sample_hash sample_hash LittleEndian sample_separator
            2 (map_to_list (eDigests sample_separator)) _ _ _)))
            _ 1 [x00; x00; x00; x00] _) _).
  - reflexivity.
  - reflexivity.
  - intros alg [d Hd]. unfold sample_separator in Hd. cbn [eDigests] in Hd.
    apply lookup_singleton_Some in Hd as [<- _].
    by apply (bool_decide_unpack _).
  - simpl. lia.
  - reflexivity.
  - intros alg digest Hd. unfold sample_separator in Hd. cbn [eDigests] in Hd.
    apply lookup_singleton_Some in Hd as [<- <-].
    reflexivity.
Defined.

Lemma event_tag_check_witness :
  checkEvent (K := tcg) LittleEndian sample_hash sample_hash sample_hash
    sample_hash sample_event_tag 1 [] = Returns None ∧
  checkEvent (K := tcg) LittleEndian sample_hash sample_hash sample_hash
    sample_hash sample_event_tag 2 [] = Returns None.
Proof.
  refine (proj1 (proj2 (proj2 (event_tag_check (K := tcg) sample_hash
            sample_hash sample_hash sample_hash sample_event_tag 2 [] _ _)))
            _).
  - reflexivity.
  - simpl. lia.
  - reflexivity.
Defined.

(** * Further properties

    Properties of the functions that the claims above leave aside, read
    off the code. *)

(** ** Round trips of the byte order *)

Lemma byte_of_to_Z b : byte_of_Z (byte_to_Z b) = b.
Proof.
  unfold byte_of_Z, byte_to_Z. pose proof (Byte.to_N_bounded b) as Hb.
  change 255 with (Z.ones 8). rewrite Z.land_ones by lia.
  rewrite Z.mod_small by lia. rewrite N2Z.id, Byte.of_to_N. done.
Qed.

Lemma le_bytes_le_value bs : le_bytes (length bs) (le_value bs) = bs.
Proof.
  induction bs as [|b bs IH]; [done|].
  cbn [length le_bytes]. rewrite le_value_cons.
  pose proof (byte_to_Z_range b) as Hb.
  f_equal.
  - assert (Hl : Z.land (byte_to_Z b + 256 * le_value bs) 255
                 = Z.land (byte_to_Z b) 255).
    { change 255 with (Z.ones 8). rewrite !Z.land_ones by lia.
      replace (byte_to_Z b + 256 * le_value bs)
        with (byte_to_Z b + le_value bs * 2 ^ 8) by lia.
      by rewrite Z.mod_add by lia. }
    transitivity (byte_of_Z (byte_to_Z b)); [|apply byte_of_to_Z].
    unfold byte_of_Z. by rewrite Hl.
  - rewrite Z.shiftr_div_pow2 by lia. change (2 ^ 8) with 256.
    replace ((byte_to_Z b + 256 * le_value bs) `div` 256) with (le_value bs);
      [done|].
    replace (byte_to_Z b + 256 * le_value bs)
      with (le_value bs * 256 + byte_to_Z b) by lia.
    rewrite Z.div_add_l by lia. rewrite Z.div_small by lia. lia.
Qed.

Lemma store_load host bs : store host (length bs) (load host bs) = bs.
Proof.
  destruct host; simpl; [apply le_bytes_le_value|].
  rewrite <- (length_rev bs), le_bytes_le_value. apply rev_involutive.
Qed.

Lemma load_range host bs : 0 ≤ load host bs < 2 ^ (8 * Z.of_nat (length bs)).
Proof.
  destruct host; simpl; [apply le_value_range|].
  rewrite <- (length_rev bs). apply le_value_range.
Qed.

(** X1. For every host byte order, [PutUintN] followed by [UintN] gives
    the value back (N = 16, 32, 64), [UintN] on a slice of exactly N/8
    bytes followed by [PutUintN] gives the bytes back, and the big-endian
    encoding is the little-endian one reversed. *)
Theorem nativeEndian_round_trip (host : ByteOrder) :
  (∀ v, 0 ≤ v < 2 ^ 16 → Uint16 host (PutUint16 host v) = Some v) ∧
  (∀ v, 0 ≤ v < 2 ^ 32 → Uint32 host (PutUint32 host v) = Some v) ∧
  (∀ v, 0 ≤ v < 2 ^ 64 → Uint64 host (PutUint64 host v) = Some v) ∧
  (∀ b, length b = 2%nat →
        ∃ v, Uint16 host b = Some v ∧ 0 ≤ v < 2 ^ 16 ∧ PutUint16 host v = b) ∧
  (∀ b, length b = 4%nat →
        ∃ v, Uint32 host b = Some v ∧ 0 ≤ v < 2 ^ 32 ∧ PutUint32 host v = b) ∧
  (∀ b, length b = 8%nat →
        ∃ v, Uint64 host b = Some v ∧ 0 ≤ v < 2 ^ 64 ∧ PutUint64 host v = b) ∧
  (∀ v, PutUint32 BigEndian v = rev (PutUint32 LittleEndian v)).
Proof.
  assert (Hput : ∀ n v, 0 ≤ v < 2 ^ (8 * Z.of_nat n) →
    (if decide (n ≤ length (store host n v))%nat
     then Some (load host (take n (store host n v))) else None) = Some v).
  { intros n v Hv. rewrite decide_True by (by rewrite length_store).
    rewrite firstn_all2 by (by rewrite length_store). by rewrite load_store. }
  assert (Hget : ∀ n b, length b = n →
    ∃ v, (if decide (n ≤ length b)%nat then Some (load host (take n b))
          else None) = Some v ∧ 0 ≤ v < 2 ^ (8 * Z.of_nat n) ∧
         store host n v = b).
  { intros n b Hl. exists (load host b). rewrite decide_True by lia.
    rewrite firstn_all2 by lia. split; [done|]. subst n.
    split; [apply load_range|apply store_load]. }
  repeat split.
  - intros v Hv. by apply (Hput 2%nat).
  - intros v Hv. by apply (Hput 4%nat).
  - intros v Hv. by apply (Hput 8%nat).
  - intros b Hl. by apply (Hget 2%nat).
  - intros b Hl. by apply (Hget 4%nat).
  - intros b Hl. by apply (Hget 8%nat).
Qed.

Lemma nativeEndian_round_trip_witness :
  Uint32 BigEndian (PutUint32 BigEndian 305419896) = Some 305419896 ∧
  ∃ v, Uint16 LittleEndian [x0b; x00] = Some v ∧ 0 ≤ v < 2 ^ 16 ∧
       PutUint16 LittleEndian v = [x0b; x00].
Proof.
  split.
  - apply (proj1 (proj2 (nativeEndian_round_trip BigEndian))). lia.
  - apply (proj1 (proj2 (proj2 (proj2 (nativeEndian_round_trip LittleEndian))))).
    reflexivity.
Defined.

Section MoreDecoderProperties.
Context `{K : Constants}.
Variable host : ByteOrder.

(** ** Sources that end inside a record *)

Lemma binary_Read32_eof r :
  remaining r = [] → binary_Read32 host r = ((0, Some EOF), r).
Proof.
  intros Hr. unfold binary_Read32, bind, ReadFull.
  rewrite decide_False by lia. by rewrite decide_True by (by rewrite Hr).
Qed.

Lemma Read_short r d n :
  remaining r = d → d ≠ [] → (length d ≤ n)%nat →
  Read n r = ((d ++ zeros (n - length d), length d, None),
              advance (length d) r).
Proof.
  intros Hr Hd Hn. unfold Read.
  assert (length d ≠ 0%nat) by (by destruct d).
  rewrite decide_False.
  2:{ unfold remaining in Hr. rewrite <- Hr, length_drop in *. lia. }
  rewrite Hr. replace (n `min` length d)%nat with (length d) by lia.
  by rewrite firstn_all.
Qed.

Lemma Read_eof r n : remaining r = [] → Read n r = ((zeros n, 0%nat, Some EOF), r).
Proof.
  intros Hr. unfold Read. rewrite decide_True; [done|].
  unfold remaining in Hr. apply (f_equal length) in Hr.
  rewrite length_drop in Hr. simpl in Hr. lia.
Qed.

(** X2. A source that ends before, inside or right after the digest of a legacy
    record, after a valid PCR index and the event type: the decoder fails
    with [io.EOF] and the partial flag, the reader at the end of the source.
    With no byte of the digest left it is the read of the digest that
    fails; with some bytes left that read takes them without an error and
    the read of the event size fails.  [Log.NextEvent] on a legacy log
    returns [io.ErrUnexpectedEOF]. *)
Theorem legacy_short_digest (r : Reader) (pcrIndex eventType : Z)
    (d : list byte) (l : Log) :
  0 ≤ pcrIndex ≤ 31 → 0 ≤ eventType < 2 ^ 32 → (length d ≤ 20)%nat →
  remaining r = PutUint32 host pcrIndex ++ PutUint32 host eventType ++ d →
  lstream l = Stream_1_2 →
  ReadNextEvent_1_2 host r = ((None, true, Some EOF), advance (8 + length d) r) ∧
  NextEvent host l r
  = ((None, Some ErrUnexpectedEOF, l), advance (8 + length d) r).
Proof.
  intros Hp He Hd Hr Hl.
  assert (Hread : ReadNextEvent_1_2 host r
                  = ((None, true, Some EOF), advance (8 + length d) r)).
  { unfold ReadNextEvent_1_2, check, bind.
    rewrite (binary_Read32_put _ _ _ _ Hr) by lia.
    rewrite decide_False by (unfold maxPCRIndex; lia).
    eapply remaining_advance_app in Hr; [|apply length_store].
    rewrite (binary_Read32_put _ _ _ _ Hr) by lia.
    eapply remaining_advance_app in Hr; [|apply length_store].
    rewrite DigestLength_Sha1. change (Z.to_nat 20) with 20%nat.
    rewrite advance_advance in *. change (4 + 4)%nat with 8%nat in *.
    destruct d as [|b d].
    - rewrite (Read_eof _ _ Hr). by unfold ret.
    - rewrite (Read_short _ _ 20 Hr) by (done || simpl in *; lia).
      unfold ret at 1.
      rewrite binary_Read32_eof; [by rewrite advance_advance|].
      rewrite remaining_advance, Hr. by rewrite drop_all. }
  split; [done|].
  unfold NextEvent, bind. rewrite Hl. cbn -[ReadNextEvent_1_2].
  unfold bind. rewrite Hread. simpl. unfold ret. by destruct l; simpl in *; subst.
Qed.

(** X3. A source that ends inside a digest of a crypto-agile record, after
    declared entries and the identifier of a declared algorithm: the
    decoder fails with the partial flag, with [io.ErrUnexpectedEOF] if some
    bytes of the digest were there and [io.EOF] if none were. *)
Theorem crypto_agile_short_digest (sizes : list algorithmSize) (r : Reader)
    (pcrIndex eventType count : Z) (pre : list (AlgorithmId * Digest))
    (alg size : Z) (d : list byte) :
  0 ≤ pcrIndex ≤ 31 → 0 ≤ eventType < 2 ^ 32 → 0 ≤ count < 2 ^ 32 →
  Z.of_nat (length pre) < count →
  Forall (declared sizes) pre →
  0 ≤ alg < 2 ^ 16 → findDigestSize sizes alg = Some size →
  Z.of_nat (length d) < size →
  remaining r = PutUint32 host pcrIndex ++ PutUint32 host eventType ++
                PutUint32 host count ++ wire_digests host pre ++
                PutUint16 host alg ++ d →
  fst (ReadNextEvent_2_rest host sizes r)
  = (None, true,
     Some (if decide (d = []) then EOF else ErrUnexpectedEOF)).
Proof.
  intros Hp He Hc Hn Hd Ha Hf Hs Hr.
  unfold ReadNextEvent_2_rest, check, bind.
  rewrite (binary_Read32_put _ _ _ _ Hr) by lia.
  rewrite decide_False by (unfold maxPCRIndex; lia).
  eapply remaining_advance_app in Hr; [|apply length_store].
  rewrite (binary_Read32_put _ _ _ _ Hr) by lia.
  eapply remaining_advance_app in Hr; [|apply length_store].
  rewrite (binary_Read32_put _ _ _ _ Hr) by lia.
  eapply remaining_advance_app in Hr; [|apply length_store].
  replace (Z.to_nat count)
    with (length pre + S (Z.to_nat count - length pre - 1))%nat by lia.
  rewrite (readDigests_entries _ _ _ _ _ _ _ Hd Hr).
  eapply remaining_advance_app in Hr; [|reflexivity].
  cbn [readDigests]. unfold bind at 1.
  rewrite (binary_Read16_put _ _ _ _ Hr) by done. rewrite Hf.
  eapply remaining_advance_app in Hr; [|apply length_store].
  unfold bind at 1, ReadFull. rewrite Hr.
  rewrite decide_False by lia.
  destruct d as [|b d]; simpl length.
  - rewrite decide_True by done. done.
  - rewrite decide_False by done. rewrite decide_True by (simpl in Hs; lia).
    done.
Qed.

End MoreDecoderProperties.

Section LogInvariants.
Context `{K : Constants}.
Variable host : ByteOrder.

(** ** What the decoders put in the digest map *)

Lemma Read_length n r bs k err r' :
  Read n r = ((bs, k, err), r') → length bs = n.
Proof.
  unfold Read. intros H. case_decide; injection H as <- <- <- <-.
  - apply length_replicate.
  - rewrite length_app, length_take. unfold zeros. rewrite length_replicate. lia.
Qed.

Lemma ReadNextEvent_1_2_digests r ev partial err r' :
  ReadNextEvent_1_2 host r = ((Some ev, partial, err), r') →
  ∃ d, eDigests ev = <[AlgorithmSha1 := d]> ∅ ∧ length d = 20%nat.
Proof.
  unfold ReadNextEvent_1_2, check, bind, ret. intros H.
  destruct (binary_Read32 host r) as [[v1 e1] r1].
  destruct e1; [done|]. case_decide; [done|].
  destruct (binary_Read32 host r1) as [[v2 e2] r2].
  destruct e2; [done|].
  destruct (Read _ r2) as [[[d k] e3] r3] eqn:E3.
  apply Read_length in E3. rewrite DigestLength_Sha1 in E3.
  destruct e3; [done|].
  destruct (binary_Read32 host r3) as [[v4 e4] r4].
  destruct e4; [done|].
  destruct (ReadFull _ r4) as [[d5 e5] r5].
  destruct e5; [done|]. injection H as <- _ _ _. by exists d.
Qed.

Lemma findDigestSize_Some sizes alg size :
  findDigestSize sizes alg = Some size → mkAlgorithmSize alg size ∈ sizes.
Proof.
  induction sizes as [|[a n] sizes IH]; [done|]. cbn [findDigestSize].
  cbn [algorithmId digestSize]. case_decide as Ha.
  - intros [= <-]. subst a. apply list_elem_of_here.
  - intros H. by apply list_elem_of_further, IH.
Qed.

Lemma readDigests_inv sizes n m r m' err r' :
  readDigests host sizes n m r = ((m', err), r') →
  ∀ a d, m' !! a = Some d →
    m !! a = Some d ∨
    (is_Some (knownAlgorithms !! a) ∧
     ∃ size, findDigestSize sizes a = Some size ∧ length d = Z.to_nat size).
Proof.
  revert m r. induction n as [|n IH]; intros m r H a d Hm.
  - injection H as <- <- <-. by left.
  - cbn [readDigests] in H. unfold bind, ret in H.
    destruct (binary_Read16 host r) as [[alg e1] r1].
    destruct e1; [injection H as <- <- <-; by left|].
    destruct (findDigestSize sizes alg) as [size|] eqn:Hf;
      [|injection H as <- <- <-; by left].
    destruct (ReadFull _ r1) as [[dg e2] r2] eqn:E2.
    apply ReadFull_inv in E2 as [_ E2].
    destruct e2; [injection H as <- <- <-; by left|].
    destruct E2 as (rest & _ & Hl & _).
    destruct (IH _ _ H a d Hm) as [Hin|?]; [|by right].
    case_decide as Hk; [|by left].
    apply lookup_insert_Some in Hin as [[<- <-]|[_ Hin]]; [|by left].
    right. split; [done|]. eauto.
Qed.

Lemma ReadNextEvent_2_rest_digests sizes r ev partial err r' :
  ReadNextEvent_2_rest host sizes r = ((Some ev, partial, err), r') →
  ∀ a d, eDigests ev !! a = Some d →
    is_Some (knownAlgorithms !! a) ∧
    ∃ size, findDigestSize sizes a = Some size ∧ length d = Z.to_nat size.
Proof.
  unfold ReadNextEvent_2_rest, check, bind, ret. intros H.
  destruct (binary_Read32 host r) as [[v1 e1] r1].
  destruct e1; [done|]. case_decide; [done|].
  destruct (binary_Read32 host r1) as [[v2 e2] r2].
  destruct e2; [done|].
  destruct (binary_Read32 host r2) as [[v3 e3] r3].
  destruct e3; [done|].
  destruct (readDigests _ _ _ _ r3) as [[m e6] r6] eqn:E6.
  destruct e6; [done|].
  destruct (binary_Read32 host r6) as [[v4 e4] r4].
  destruct e4; [done|].
  destruct (ReadFull _ r4) as [[d5 e5] r5].
  destruct e5; [done|]. injection H as <- _ _ _. cbn [eDigests].
  intros a d Hm. by destruct (readDigests_inv _ _ _ _ _ _ _ E6 a d Hm).
Qed.

(** X10. The size the digest loop uses for an identifier is that of the
    header's first entry for it, and the lookup fails exactly when the
    header has no entry for the identifier. *)
Theorem findDigestSize_first (sizes : list algorithmSize) (alg : AlgorithmId) :
  (findDigestSize sizes alg = None ↔ alg ∉ algorithmId <$> sizes) ∧
  (∀ s1 size s2,
     sizes = s1 ++ mkAlgorithmSize alg size :: s2 →
     alg ∉ algorithmId <$> s1 →
     findDigestSize sizes alg = Some size).
Proof.
  split.
  - induction sizes as [|a sizes IH].
    + split; [intros _; apply not_elem_of_nil|done].
    + cbn [findDigestSize]. rewrite fmap_cons, not_elem_of_cons.
      case_decide as Ha; [split; [done|intros [Hne _]; by destruct Hne]|].
      rewrite IH. split; [intros ?; split; [by intros ->|done]|tauto].
  - intros s1 size s2 -> Hs1. induction s1 as [|a s1 IH]; cbn [findDigestSize app].
    + by rewrite decide_True.
    + rewrite fmap_cons, not_elem_of_cons in Hs1. destruct Hs1 as [Hne Hs1].
      rewrite decide_False by done. by apply IH.
Qed.

(** ** Opening a log: what comes out *)

Lemma collectAlgorithms_inr algSizes algorithms result :
  collectAlgorithms algSizes algorithms = inr result →
  (∀ a known, a ∈ algSizes → knownAlgorithms !! algorithmId a = Some known →
              known = digestSize a) ∧
  result = algorithms ++
           filter (λ a, is_Some (knownAlgorithms !! a)) (algorithmId <$> algSizes).
Proof.
  revert algorithms. induction algSizes as [|a algSizes IH]; intros algorithms H.
  - injection H as <-. split; [|by rewrite app_nil_r].
    intros ?? Hin. by apply elem_of_nil in Hin.
  - cbn [collectAlgorithms] in H. rewrite fmap_cons, filter_cons.
    destruct (knownAlgorithms !! algorithmId a) as [k|] eqn:Hk.
    + case_decide as Hne; [done|]. apply IH in H as [Hall ->].
      rewrite decide_True by eauto. split; [|by rewrite <- app_assoc].
      intros a' known [->|Hin]%elem_of_cons Hk'; [|by eapply Hall].
      rewrite Hk in Hk'. injection Hk' as <-.
      by destruct (decide (k = digestSize a)).
    + apply IH in H as [Hall ->].
      rewrite decide_False by (by intros [? ?]). split; [|done].
      intros a' known [->|Hin]%elem_of_cons Hk'; [congruence|by eapply Hall].
Qed.

Lemma collectAlgorithms_inl algSizes algorithms e :
  collectAlgorithms algSizes algorithms = inl e → ∃ msg, e = InvalidLogError msg.
Proof.
  revert algorithms. induction algSizes as [|a algSizes IH]; intros algorithms H;
    [done|].
  cbn [collectAlgorithms] in H.
  destruct (knownAlgorithms !! algorithmId a); [case_decide|]; eauto.
  injection H as <-. unfold digestSizeMismatch. eauto.
Qed.

(** X4. [newLogFromReader] returns a log exactly when it returns no
    error; the error is never [io.EOF]; on an exhausted source it is
    [io.ErrUnexpectedEOF]; and no call changes the bytes of the source. *)
Theorem newLogFromReader_outcomes (r : Reader) :
  (is_Some (newLogFromReader host r).1.1 ↔ (newLogFromReader host r).1.2 = None) ∧
  (newLogFromReader host r).1.2 ≠ Some EOF ∧
  (remaining r = [] →
   newLogFromReader host r = ((None, Some ErrUnexpectedEOF), r)) ∧
  buf (newLogFromReader host r).2 = buf r.
Proof.
  destruct (ReadNextEvent_1_2 host r) as [[[ev partial] err] r1] eqn:E.
  pose proof (ReadNextEvent_1_2_ends _ _ _ _ E) as [Hbuf Hends].
  destruct ev as [ev|], partial, err as [e|]; try done.
  - rewrite (newLogFromReader_read _ _ _ _ _ E).
    destruct Hends as [Hne _].
    destruct (parseTCG2LogHeader host ev) as [algSizes|];
      [destruct (collectAlgorithms algSizes []) as [e|algs] eqn:Hc|]; simpl;
      repeat split; try done; try (by intros [? ?]); eauto.
    apply collectAlgorithms_inl in Hc as [msg ->]. done.
  - rewrite (newLogFromReader_read_error _ _ _ _ _ E). simpl.
    repeat split; try done; try (by intros [? ?]).
    case_decide; congruence.
  - rewrite (newLogFromReader_read_error _ _ _ _ _ E). simpl.
    repeat split; try done; try (by intros [? ?]).
    + case_decide; congruence.
    + intros Hr. destruct Hends as [(-> & _ & ->)|[_ Hne]]; [|done].
      by rewrite decide_True.
Qed.

(** X5. The log [newLogFromReader] returns is consistent with its
    header: a legacy log has the legacy decoder and lists SHA-1 only; a
    crypto-agile log has the crypto-agile decoder with its first event
    still to read, every header entry for an algorithm of the catalog has
    the catalog's size, and [HasAlgorithm] holds exactly for the
    algorithms of the catalog that the header declares. *)
Theorem opened_log_algorithms (r : Reader) (l : Log) :
  (newLogFromReader host r).1 = (Some l, None) →
  log_consistent l ∧
  match lstream l with
  | Stream_1_2 => ∀ a, HasAlgorithm l a = true ↔ a = AlgorithmSha1
  | Stream_2 s =>
      readFirstEvent s = false ∧
      ∀ a, HasAlgorithm l a = true ↔
           a ∈ [AlgorithmSha1; AlgorithmSha256; AlgorithmSha384;
                AlgorithmSha512] ∧ a ∈ algorithmId <$> algorithmSizes s
  end.
Proof.
  intros H.
  assert (Hhas : ∀ l a, HasAlgorithm l a = true ↔ a ∈ lAlgorithms l).
  { intros l0 a. unfold HasAlgorithm. rewrite existsb_exists.
    setoid_rewrite bool_decide_eq_true. setoid_rewrite <- list_elem_of_In.
    split; [by intros (x & Hx & ->)|eauto]. }
  destruct (ReadNextEvent_1_2 host r) as [[[ev partial] err] r1] eqn:E.
  pose proof (ReadNextEvent_1_2_ends _ _ _ _ E) as [_ Hends].
  destruct ev as [ev|], partial, err as [e|]; try done;
    [|by rewrite (newLogFromReader_read_error _ _ _ _ _ E) in H..].
  rewrite (newLogFromReader_read _ _ _ _ _ E) in H. cbn [fst] in H.
  destruct (parseTCG2LogHeader host ev) as [algSizes|].
  - destruct (collectAlgorithms algSizes []) as [e|algs] eqn:Hc; [done|].
    injection H as <-. apply collectAlgorithms_inr in Hc as [Hall ->].
    split; [done|]. cbn [lstream readFirstEvent algorithmSizes].
    split; [done|]. intros a. rewrite Hhas. cbn [lAlgorithms app].
    rewrite list_elem_of_filter. by rewrite knownAlgorithms_is_Some.
  - injection H as <-. split; [done|]. intros a. rewrite Hhas.
    cbn [lAlgorithms]. by rewrite list_elem_of_singleton.
Qed.

(** X6. On a consistent log, whatever [Log.NextEvent] returns, the log
    stays consistent with the same format and algorithms; and every digest
    of an event it returns belongs to an algorithm of the catalog and has
    the catalog's length for it.  Except for the first event of a
    crypto-agile log, which is read in the legacy layout and carries a
    SHA-1 digest whatever the header declares, the log has the algorithm
    of every digest. *)
Theorem NextEvent_digest_lengths (l : Log) (r : Reader)
    (ev : option (Event (list byte))) (err : option error) (l' : Log)
    (r' : Reader) :
  log_consistent l →
  NextEvent host l r = ((ev, err, l'), r') →
  log_consistent l' ∧ lFormat l' = lFormat l ∧ lAlgorithms l' = lAlgorithms l ∧
  ∀ e a d, ev = Some e → eDigests e !! a = Some d →
    a ∈ [AlgorithmSha1; AlgorithmSha256; AlgorithmSha384; AlgorithmSha512] ∧
    Z.of_nat (length d) = DigestLength a ∧
    (match lstream l with
     | Stream_1_2 => True
     | Stream_2 s => readFirstEvent s = true
     end → HasAlgorithm l a = true).
Proof.
  intros Hc H.
  assert (Hhas : ∀ a, HasAlgorithm l a = true ↔ a ∈ lAlgorithms l).
  { intros a. unfold HasAlgorithm. rewrite existsb_exists.
    setoid_rewrite bool_decide_eq_true. setoid_rewrite <- list_elem_of_In.
    split; [by intros (x & Hx & ->)|eauto]. }
  assert (Hlegacy : ∀ e a d rr pp ee rr',
    ReadNextEvent_1_2 host rr = ((Some e, pp, ee), rr') →
    eDigests e !! a = Some d →
    a = AlgorithmSha1 ∧ Z.of_nat (length d) = DigestLength a).
  { intros e a d rr pp ee rr' Hr Hd.
    apply ReadNextEvent_1_2_digests in Hr as (d0 & Hm & Hl).
    rewrite Hm in Hd. apply lookup_insert_Some in Hd as [[<- <-]|[_ Hd]]; [|done].
    rewrite DigestLength_Sha1. split; [done|lia]. }
  unfold NextEvent, bind, ret in H. unfold log_consistent in *.
  destruct l as [f algs st]. cbn [lstream lFormat lAlgorithms] in *.
  destruct st as [|[sizes first]]; cbn -[ReadNextEvent_1_2 ReadNextEvent_2_rest] in H.
  - unfold bind, ret in H.
    destruct (ReadNextEvent_1_2 host r) as [[[ev1 p1] e1] r1] eqn:E.
    injection H as <- _ <- _. cbn [lstream lFormat lAlgorithms].
    split; [done|]. split; [done|]. split; [done|].
    intros evt alg dg -> Hd.
    destruct (Hlegacy _ _ _ _ _ _ _ E Hd) as [-> ?].
    split; [apply list_elem_of_here|]. split; [done|]. intros _.
    apply Hhas. cbn [lAlgorithms]. destruct Hc as [_ ->]. apply list_elem_of_here.
  - unfold ReadNextEvent_2, bind, ret in H. cbn [readFirstEvent algorithmSizes] in *.
    destruct first; cbn [negb] in H.
    + destruct (ReadNextEvent_2_rest host sizes r) as [[[ev1 p1] e1] r1] eqn:E.
      injection H as <- _ <- _. cbn [lstream lFormat lAlgorithms].
      split; [done|]. split; [done|]. split; [done|].
      intros evt alg dg -> Hd.
      destruct (ReadNextEvent_2_rest_digests _ _ _ _ _ _ E alg dg Hd)
        as (Hk & size & Hf & Hl).
      destruct Hc as (_ & Hall & Halgs).
      apply findDigestSize_Some in Hf as Hin.
      destruct Hk as [known Hk].
      pose proof (Hall _ _ Hin Hk) as Hsize. cbn [digestSize] in Hsize. subst size.
      assert (0 ≤ known).
      { apply knownAlgorithms_lookup in Hk. lia. }
      split; [rewrite <- knownAlgorithms_is_Some; eauto|].
      split; [unfold DigestLength; rewrite Hk; simpl; lia|].
      intros _. apply Hhas. cbn [lAlgorithms]. rewrite Halgs.
      apply list_elem_of_filter. split; [eauto|].
      apply list_elem_of_fmap. by exists (mkAlgorithmSize alg known).
    + destruct (ReadNextEvent_1_2 host r) as [[[ev1 p1] e1] r1] eqn:E.
      injection H as <- _ <- _. cbn [lstream lFormat lAlgorithms algorithmSizes].
      split; [done|]. split; [done|]. split; [done|].
      intros evt alg dg -> Hd.
      destruct (Hlegacy _ _ _ _ _ _ _ E Hd) as [-> ?].
      split; [apply list_elem_of_here|]. split; [done|]. done.
Qed.

End LogInvariants.

Section HeaderLayout.
Context `{K : Constants}.
Variable host : ByteOrder.

(** ** The layout of what parses as a header *)

Lemma binary_Read16_value r v r' :
  binary_Read16 host r = ((v, None), r') →
  ∃ bs rest, remaining r = bs ++ rest ∧ length bs = 2%nat ∧
             v = load host bs ∧ r' = advance 2 r.
Proof.
  unfold binary_Read16, bind. intros H.
  destruct (ReadFull 2 r) as [[bs e] r1] eqn:E.
  apply ReadFull_inv in E as [_ E].
  destruct e; [done|]. destruct E as (rest & Hr & Hl & ->).
  unfold ret in H. injection H as <- <-. exists bs, rest.
  unfold Uint16. rewrite decide_True by lia. simpl.
  by rewrite firstn_all2 by lia.
Qed.

Lemma readAlgorithmSizes_inv n r sizes :
  (readAlgorithmSizes host n r).1 = Some sizes →
  length sizes = n ∧ Forall (λ a, 0 ≤ algorithmId a < 2 ^ 16 ∧ 0 ≤ digestSize a < 2 ^ 16) sizes ∧
  ∃ rest, remaining r = wire_algorithm_sizes host sizes ++ rest.
Proof.
  revert r sizes. induction n as [|n IH]; intros r sizes H.
  - injection H as <-. split; [done|]. split; [done|]. by exists (remaining r).
  - cbn [readAlgorithmSizes] in H. unfold bind, ret in H.
    destruct (binary_Read16 host r) as [[a e1] r1] eqn:E1.
    destruct e1; [done|].
    apply binary_Read16_value in E1 as (bs1 & rest1 & Hr1 & Hl1 & -> & ->).
    destruct (binary_Read16 host (advance 2 r)) as [[sz e2] r2] eqn:E2.
    destruct e2; [done|].
    apply binary_Read16_value in E2 as (bs2 & rest2 & Hr2 & Hl2 & -> & ->).
    destruct (readAlgorithmSizes host n _) as [tl r3] eqn:E3.
    cbn [fst] in H. destruct tl as [tl|]; [|done]. injection H as <-.
    specialize (IH (advance 2 (advance 2 r)) tl). rewrite E3 in IH.
    destruct (IH eq_refl) as (Hlen & Hall & rest & Hrest).
    split; [simpl; lia|]. split.
    + constructor; [|done]. cbn [algorithmId digestSize].
      pose proof (load_range host bs1). pose proof (load_range host bs2).
      rewrite Hl1 in *. rewrite Hl2 in *. done.
    + exists rest. unfold wire_algorithm_sizes. cbn [map concat algorithmId digestSize].
      fold (wire_algorithm_sizes host tl). unfold PutUint16.
      assert (store host 2 (load host bs1) = bs1) as ->
        by (rewrite <- Hl1; apply store_load).
      assert (store host 2 (load host bs2) = bs2) as ->
        by (rewrite <- Hl2; apply store_load).
      pose proof (remaining_advance_app _ _ _ _ Hr1 Hl1) as A1.
      pose proof (remaining_advance_app _ _ _ _ Hr2 Hl2) as A2.
      rewrite Hr1. rewrite <- A1, Hr2. rewrite <- A2, Hrest.
      by rewrite <- !app_assoc.
Qed.

(** X7. [parseTCG2LogHeader] returns algorithm sizes exactly for an event
    with PCR index 0, the no-action type, an all-zero (or absent) SHA-1
    digest and a payload of at least 29 bytes made of the signature, 8
    bytes, the count of the sizes in the host's order, the sizes as pairs
    of 16-bit integers and any trailing bytes; what it returns is those
    sizes, in their order.  In particular a payload shorter than 29 bytes
    is never a header. *)
Theorem parseTCG2LogHeader_layout (ev : Event (list byte))
    (sizes : list algorithmSize) :
  parseTCG2LogHeader host ev = Some sizes ↔
  ePCRIndex ev = 0 ∧ eEventType ev = EventTypeNoAction ∧
  isZeroDigest (default [] (eDigests ev !! AlgorithmSha1)) = true ∧
  (29 ≤ length (eData ev))%nat ∧
  Z.of_nat (length sizes) < 2 ^ 32 ∧
  Forall (λ a, 0 ≤ algorithmId a < 2 ^ 16 ∧ 0 ≤ digestSize a < 2 ^ 16) sizes ∧
  ∃ info vendor,
    length info = 8%nat ∧ eData ev = wire_header_data host info sizes vendor.
Proof.
  assert (Hsig : length signature = 16%nat) by done.
  split.
  - unfold parseTCG2LogHeader. intros H.
    destruct (decide (ePCRIndex ev ≠ 0)) as [|Hp]; [done|].
    destruct (decide (eEventType ev ≠ EventTypeNoAction)) as [|Ht]; [done|].
    destruct (isZeroDigest _) eqn:Hz; [|done]. cbn [negb] in H.
    destruct (decide (length (eData ev) < 29)%nat) as [|Hlen]; [done|].
    destruct (decide (take 16 (eData ev) ≠ signature)) as [|Hs]; [done|].
    destruct (binary_Read32 host _) as [[num e] r1] eqn:E.
    destruct e; [done|].
    apply binary_Read32_inv in E as (_ & Hnum & bs & rest & Hr & Hl & -> & ->).
    apply readAlgorithmSizes_inv in H as (Hn & Hall & vendor & Hv).
    rewrite (remaining_advance_app _ _ _ _ Hr Hl) in Hv. subst rest.
    unfold remaining in Hr. cbn [buf pos] in Hr. rewrite drop_0 in Hr.
    pose proof (load_range host bs) as Hrange. rewrite Hl in Hrange.
    split; [lia|].
    split; [by destruct (decide (eEventType ev = EventTypeNoAction))|].
    split; [done|]. split; [lia|]. split; [lia|]. split; [done|].
    exists (take 8 (drop 16 (eData ev))), vendor.
    split; [rewrite length_take, length_drop; lia|].
    unfold wire_header_data.
    replace (Z.of_nat (length sizes)) with (load host bs) by lia.
    assert (PutUint32 host (load host bs) = bs) as ->
      by (unfold PutUint32; rewrite <- Hl; apply store_load).
    rewrite <- Hr.
    assert (take 16 (eData ev) = signature) as <-
      by (by destruct (decide (take 16 (eData ev) = signature))).
    replace (drop 24 (eData ev)) with (drop 8 (drop 16 (eData ev)))
      by (by rewrite drop_drop).
    by rewrite !take_drop.
  - intros (Hp & Ht & Hz & Hlen & Hn & Hall & info & vendor & Hi & Hd).
    unfold parseTCG2LogHeader.
    rewrite decide_False by (intros H; by apply H).
    rewrite decide_False by (intros H; by apply H).
    rewrite Hz. cbn [negb]. rewrite decide_False by lia.
    rewrite Hd in *. unfold wire_header_data in *.
    rewrite decide_False.
    2:{ intros H. apply H. rewrite <- Hsig. by rewrite take_app_length. }
    assert (Hrem : remaining (mkReader (drop 24 (signature ++ info ++
        PutUint32 host (Z.of_nat (length sizes)) ++
        wire_algorithm_sizes host sizes ++ vendor)) 0)
      = PutUint32 host (Z.of_nat (length sizes)) ++
        wire_algorithm_sizes host sizes ++ vendor).
    { unfold remaining. cbn [buf pos]. rewrite drop_0.
      rewrite (app_assoc signature info).
      rewrite drop_app_length'; [done|]. rewrite length_app. lia. }
    rewrite (binary_Read32_put _ _ _ _ Hrem) by lia.
    eapply remaining_advance_app in Hrem; [|apply length_store].
    rewrite Nat2Z.id. by apply readAlgorithmSizes_wire with (rest := vendor).
Qed.

End HeaderLayout.

Section ReadingALog.
Context `{K : Constants}.
Variable host : ByteOrder.

(** ** Reading a log to its end *)

Lemma ReadNextEvent_1_2_eof r :
  remaining r = [] → ReadNextEvent_1_2 host r = ((None, false, Some EOF), r).
Proof.
  intros Hr. unfold ReadNextEvent_1_2, check, bind.
  by rewrite binary_Read32_eof.
Qed.

Lemma ReadNextEvent_2_rest_eof sizes r :
  remaining r = [] →
  ReadNextEvent_2_rest host sizes r = ((None, false, Some EOF), r).
Proof.
  intros Hr. unfold ReadNextEvent_2_rest, check, bind.
  by rewrite binary_Read32_eof.
Qed.

Lemma NextEvents_legacy f algs rs : ∀ n r,
  Forall valid_record_1_2 rs →
  remaining r = wire_records_1_2 host rs →
  NextEvents host n (mkLog f algs Stream_1_2) r
  = ((event_of_1_2 <$> take n rs,
      if decide (n ≤ length rs)%nat then None else Some EOF,
      mkLog f algs Stream_1_2),
     advance (length (wire_records_1_2 host (take n rs))) r).
Proof.
  induction rs as [|[[[pcr et] dg] data] rs IH]; intros n r Hv Hr.
  - destruct n as [|n]; [simpl; by rewrite advance_0|].
    cbn [NextEvents]. unfold bind at 1.
    unfold NextEvent, bind at 1. cbn -[ReadNextEvent_1_2]. unfold bind at 1.
    rewrite (ReadNextEvent_1_2_eof _ Hr). simpl. unfold ret.
    by rewrite advance_0.
  - destruct n as [|n]; [simpl; by rewrite advance_0|].
    apply Forall_cons in Hv as [(Hp & He & Hd & Hs) Hv].
    unfold wire_records_1_2 in Hr. cbn [map concat] in Hr.
    fold (wire_records_1_2 host rs) in Hr.
    cbn [NextEvents]. unfold bind at 1, NextEvent, bind at 1.
    cbn -[ReadNextEvent_1_2 NextEvents]. unfold bind at 1.
    rewrite (ReadNextEvent_1_2_record _ _ _ _ _ _ _ Hp He Hd Hs Hr).
    cbn -[NextEvents wire_record_1_2]. unfold ret at 1.
    cbn -[NextEvents wire_record_1_2]. unfold bind at 1.
    eapply remaining_advance_app in Hr; [|reflexivity].
    rewrite (IH n _ Hv Hr). unfold ret.
    cbn [take fmap list_fmap length]. rewrite advance_advance.
    do 2 f_equal.
    + f_equal. repeat case_decide; done || lia.
    + unfold wire_records_1_2. cbn [map concat]. by rewrite length_app.
Qed.

Lemma NextEvents_crypto_agile f algs sizes rs : ∀ n r,
  Forall (valid_record_2 sizes) rs →
  remaining r = wire_records_2 host rs →
  NextEvents host n (mkLog f algs (Stream_2 (mkStream_2 sizes true))) r
  = ((event_of_2 <$> take n rs,
      if decide (n ≤ length rs)%nat then None else Some EOF,
      mkLog f algs (Stream_2 (mkStream_2 sizes true))),
     advance (length (wire_records_2 host (take n rs))) r).
Proof.
  induction rs as [|[[[pcr et] es] data] rs IH]; intros n r Hv Hr.
  - destruct n as [|n]; [simpl; by rewrite advance_0|].
    cbn [NextEvents]. unfold bind at 1.
    unfold NextEvent, bind at 1. cbn -[ReadNextEvent_2_rest].
    unfold bind at 1, bind at 1.
    rewrite (ReadNextEvent_2_rest_eof _ _ Hr). simpl. unfold ret.
    by rewrite advance_0.
  - destruct n as [|n]; [simpl; by rewrite advance_0|].
    apply Forall_cons in Hv as [(Hp & He & Hn & Hs & Hd) Hv].
    unfold wire_records_2 in Hr. cbn [map concat] in Hr.
    fold (wire_records_2 host rs) in Hr.
    cbn [NextEvents]. unfold bind at 1, NextEvent, bind at 1.
    cbn -[ReadNextEvent_2_rest NextEvents]. unfold bind at 1, bind at 1.
    rewrite (ReadNextEvent_2_rest_record _ _ _ _ _ _ _ _ Hp He Hn Hs Hd Hr).
    cbn -[NextEvents wire_record_2]. unfold ret at 1.
    cbn -[NextEvents wire_record_2]. unfold bind at 1.
    eapply remaining_advance_app in Hr; [|reflexivity].
    rewrite (IH n _ Hv Hr). unfold ret.
    cbn [take fmap list_fmap length]. rewrite advance_advance.
    do 2 f_equal.
    + f_equal. repeat case_decide; done || lia.
    + unfold wire_records_2. cbn [map concat]. by rewrite length_app.
Qed.

(** X8. A source made of legacy records whose first has not the shape of
    a crypto-agile header opens as a legacy log that lists SHA-1, with the
    reader left at the start; [n] calls of [Log.NextEvent] then return the
    first [n] records as events, in the order of the source, each with its
    one SHA-1 digest, and the call after the last record returns
    [io.EOF]. *)
Theorem read_legacy_log (rc : record_1_2) (rs : list record_1_2)
    (r : Reader) :
  Forall valid_record_1_2 (rc :: rs) →
  ¬ header_shape (event_of_1_2 rc) →
  remaining r = wire_records_1_2 host (rc :: rs) →
  newLogFromReader host r
  = ((Some (mkLog Format1_2 [AlgorithmSha1] Stream_1_2), None), r) ∧
  ∀ n, NextEvents host n (mkLog Format1_2 [AlgorithmSha1] Stream_1_2) r
       = ((event_of_1_2 <$> take n (rc :: rs),
           if decide (n ≤ length (rc :: rs))%nat then None else Some EOF,
           mkLog Format1_2 [AlgorithmSha1] Stream_1_2),
          advance (length (wire_records_1_2 host (take n (rc :: rs)))) r).
Proof.
  intros Hv Hshape Hr. split; [|intros n; by apply NextEvents_legacy].
  destruct rc as [[[pcr et] dg] data].
  pose proof Hv as [(Hp & He & Hd & Hs) _]%Forall_cons.
  unfold wire_records_1_2 in Hr. cbn [map concat] in Hr.
  rewrite (newLogFromReader_read host r _ false _
             (ReadNextEvent_1_2_record _ _ _ _ _ _ _ Hp He Hd Hs Hr)).
  destruct (parseTCG2LogHeader host _) as [algSizes|] eqn:Hparse; [|done].
  by apply parseTCG2LogHeader_shape in Hparse.
Qed.

(** X9. A source made of a crypto-agile header, whose entries for the
    algorithms of the catalog have the catalog's sizes, followed by
    crypto-agile records whose digest entries the header declares, opens
    as a crypto-agile log with the reader left at the start.  The first
    call of [Log.NextEvent] returns the header as an event with its SHA-1
    digest, the next calls return the records in the order of the source,
    each with the digests of the catalog's algorithms only, and the call
    after the last record returns [io.EOF]. *)
Theorem read_crypto_agile_log (info : list byte) (sizes : list algorithmSize)
    (vendor : list byte) (rs : list record_2) (r : Reader) :
  0 ≤ EventTypeNoAction < 2 ^ 32 →
  length info = 8%nat →
  Forall (λ a, 0 ≤ algorithmId a < 2 ^ 16 ∧ 0 ≤ digestSize a < 2 ^ 16) sizes →
  Z.of_nat (length sizes) < 2 ^ 32 →
  (29 ≤ length (wire_header_data host info sizes vendor))%nat →
  Z.of_nat (length (wire_header_data host info sizes vendor)) < 2 ^ 32 →
  (∀ a known, a ∈ sizes → knownAlgorithms !! algorithmId a = Some known →
              known = digestSize a) →
  Forall (valid_record_2 sizes) rs →
  remaining r
  = wire_record_1_2 host 0 EventTypeNoAction (zeros 20)
      (wire_header_data host info sizes vendor) ++ wire_records_2 host rs →
  let algorithms := filter (λ a, is_Some (knownAlgorithms !! a))
                      (algorithmId <$> sizes) in
  let header := mkEvent 0 EventTypeNoAction (<[AlgorithmSha1 := zeros 20]> ∅)
                  (wire_header_data host info sizes vendor) in
  newLogFromReader host r
  = ((Some (mkLog Format2 algorithms (Stream_2 (mkStream_2 sizes false))),
      None), r) ∧
  ∀ n, NextEvents host (S n)
         (mkLog Format2 algorithms (Stream_2 (mkStream_2 sizes false))) r
       = ((header :: (event_of_2 <$> take n rs),
           if decide (n ≤ length rs)%nat then None else Some EOF,
           mkLog Format2 algorithms (Stream_2 (mkStream_2 sizes true))),
          advance (length (wire_record_1_2 host 0 EventTypeNoAction (zeros 20)
                             (wire_header_data host info sizes vendor)) +
                   length (wire_records_2 host (take n rs))) r).
Proof.
  intros Ht Hi Hsz Hn Hlen Hlen32 Hcons Hv Hr algorithms header.
  assert (Hz : length (zeros 20) = 20%nat) by done.
  assert (Hp : 0 ≤ 0 ≤ 31) by lia.
  pose proof (ReadNextEvent_1_2_record host _ _ _ _ _ _ Hp Ht Hz Hlen32 Hr)
    as Hread.
  split.
  - rewrite (newLogFromReader_read host r _ false _ Hread).
    rewrite (parseTCG2LogHeader_wire host info sizes vendor Hi Hsz Hn Hlen).
    by rewrite (collectAlgorithms_match sizes [] Hcons).
  - intros n. cbn [NextEvents]. unfold bind at 1, NextEvent, bind at 1.
    cbn -[ReadNextEvent_1_2 NextEvents]. unfold bind at 1, bind at 1.
    rewrite Hread. cbn -[NextEvents wire_record_1_2]. unfold ret at 1.
    cbn -[NextEvents wire_record_1_2]. unfold bind at 1.
    eapply remaining_advance_app in Hr; [|reflexivity].
    rewrite (NextEvents_crypto_agile Format2 algorithms sizes rs n _ Hv Hr).
    unfold ret. by rewrite advance_advance.
Qed.

End ReadingALog.

Lemma isZeroDigest_spec d : isZeroDigest d = true ↔ d = zeros (length d).
Proof.
  unfold isZeroDigest, zeros. induction d as [|b d IH]; [done|].
  cbn [forallb length replicate]. rewrite andb_true_iff, bool_decide_eq_true, IH.
  split; [by intros [-> <-]|]. intros [= -> Hd]. by rewrite <- Hd.
Qed.

Section MoreValidatorProperties.
Context `{K : Constants}.
Variable host : ByteOrder.
Variables sha1_Sum sha256_Sum256 sha512_Sum384 sha512_Sum512
  : list byte → list byte.

Local Abbreviation check_on :=
  (checkEvent host sha1_Sum sha256_Sum256 sha512_Sum384 sha512_Sum512).
Local Abbreviation hash_with :=
  (hash sha1_Sum sha256_Sum256 sha512_Sum384 sha512_Sum512).

(** The loop over the digests of a no-action event. *)
Lemma checkZeroDigests_cases eventType visit :
  ((∀ alg digest, (alg, digest) ∈ visit → digest = zeros (length digest)) ∧
   checkZeroDigests eventType visit = Returns None) ∨
  (∃ alg digest,
     (alg, digest) ∈ visit ∧ digest ≠ zeros (length digest) ∧
     checkZeroDigests eventType visit
     = Returns (Some (UnexpectedDigestValueError eventType alg digest))).
Proof.
  induction visit as [|[alg digest] visit IH].
  - left. split; [|done]. intros ?? Hin. by apply elem_of_nil in Hin.
  - cbn [checkZeroDigests]. destruct (isZeroDigest digest) eqn:Hz; cbn [negb].
    + apply isZeroDigest_spec in Hz.
      destruct IH as [[Hall ->]|(a & dg & Hin & Hne & ->)].
      * left. split; [|done].
        intros a dg [[= -> ->]|Hin]%elem_of_cons; eauto.
      * right. exists a, dg. split; [by apply list_elem_of_further|done].
    + right. exists alg, digest. split; [apply list_elem_of_here|].
      split; [|done]. intros Hd. apply isZeroDigest_spec in Hd. congruence.
Qed.

Lemma checkZeroDigests_no_type_error eventType visit t p :
  checkZeroDigests eventType visit ≠ Returns (Some (UnexpectedEventTypeError t p)).
Proof.
  destruct (checkZeroDigests_cases eventType visit)
    as [[_ ->]|(a & dg & _ & _ & ->)]; done.
Qed.

Lemma checkSeparatorDigests_no_type_error eventType d visit t p :
  checkSeparatorDigests sha1_Sum sha256_Sum256 sha512_Sum384 sha512_Sum512
    eventType d visit
  ≠ Returns (Some (UnexpectedEventTypeError t p)).
Proof.
  induction visit as [|[alg digest] visit IH]; [done|].
  cbn [checkSeparatorDigests]. destruct (hash_with d alg); [|done].
  by case_decide.
Qed.

Lemma checkSeparatorDigests_panics eventType d visit msg :
  checkSeparatorDigests sha1_Sum sha256_Sum256 sha512_Sum384 sha512_Sum512
    eventType d visit = Panics msg →
  ∃ alg, alg ∈ visit.*1 ∧
         alg ∉ [AlgorithmSha1; AlgorithmSha256; AlgorithmSha384; AlgorithmSha512].
Proof.
  induction visit as [|[alg digest] visit IH]; [done|].
  cbn [checkSeparatorDigests]. destruct (hash_with d alg) as [h|] eqn:Hh.
  - case_decide as Hdg; [done|]. intros Hpanic.
    destruct (IH Hpanic) as (a & Hin & Ha).
    exists a. split; [|done]. rewrite fmap_cons. by apply list_elem_of_further.
  - intros _. exists alg. split; [rewrite fmap_cons; apply list_elem_of_here|].
    intros Hin. apply (hash_is_Some sha1_Sum sha256_Sum256 sha512_Sum384
                         sha512_Sum512 d) in Hin.
    rewrite Hh in Hin. by destruct Hin.
Qed.

(** X11. [checkEvent] returns an [UnexpectedEventTypeError] exactly for
    these combinations of event type and PCR index, whatever the digests,
    the payload and the order in which the digests are visited: a post
    code outside PCR 0, a no-action event outside PCR 0 and 6, a separator
    above PCR 7, and an event tag above PCR 4 or, in a crypto-agile log,
    below PCR 4.  The error carries the type and the PCR index of the
    event.  An event of any other type passes. *)
Theorem checkEvent_pcr_rules (e : Event EventData) (f : Format)
    (visit : list (AlgorithmId * Digest)) :
  (∀ t p, check_on e f visit = Returns (Some (UnexpectedEventTypeError t p)) ↔
     t = eEventType e ∧ p = ePCRIndex e ∧
     ((t = EventTypePostCode ∧ p ≠ 0) ∨
      (t = EventTypeNoAction ∧ p ≠ 0 ∧ p ≠ 6) ∨
      (t = EventTypeSeparator ∧ p > 7) ∨
      (t = EventTypeEventTag ∧ (p > 4 ∨ (p < 4 ∧ f = Format2))))) ∧
  (eEventType e ∉ [EventTypePostCode; EventTypeNoAction; EventTypeSeparator;
                   EventTypeEventTag] →
   check_on e f visit = Returns None).
Proof.
  pose proof event_types_distinct as Hd.
  rewrite !NoDup_cons, !not_elem_of_cons in Hd.
  destruct Hd as ((H12 & H13 & H14 & _) & (H23 & H24 & _) & (H34 & _) & _).
  split.
  - intros t p. unfold checkEvent.
    destruct (decide (eEventType e = EventTypePostCode)) as [Ht|Ht1].
    { case_decide as Hpcr; split; try done.
      - intros [= <- <-]. rewrite Ht. tauto.
      - intros (-> & -> & _). done.
      - intros (-> & -> & Hc). exfalso. rewrite Ht in Hc.
        intuition congruence. }
    destruct (decide (eEventType e = EventTypeNoAction)) as [Ht|Ht2].
    { case_decide as Hpcr; split.
      - intros [= <- <-]. rewrite Ht. tauto.
      - intros (-> & -> & _). done.
      - intros H. by apply checkZeroDigests_no_type_error in H.
      - intros (-> & -> & Hc). exfalso. rewrite Ht in Hc.
        intuition congruence. }
    destruct (decide (eEventType e = EventTypeSeparator)) as [Ht|Ht3].
    { case_decide as Hpcr; split.
      - intros [= <- <-]. rewrite Ht. tauto.
      - intros (-> & -> & _). done.
      - destruct (eData e); [|done].
        intros H. by apply checkSeparatorDigests_no_type_error in H.
      - intros (-> & -> & Hc). exfalso. rewrite Ht in Hc.
        intuition congruence. }
    destruct (decide (eEventType e = EventTypeEventTag)) as [Ht|Ht4].
    { case_decide as Hpcr; split; try done.
      - intros [= <- <-]. rewrite Ht. tauto.
      - intros (-> & -> & _). done.
      - intros (-> & -> & Hc). exfalso. rewrite Ht in Hc.
        intuition congruence. }
    split; [done|]. intros (-> & -> & Hc). exfalso. intuition congruence.
  - rewrite !not_elem_of_cons. intros (? & ? & ? & ? & _).
    unfold checkEvent. by rewrite !decide_False by done.
Qed.

(** X12. [checkEvent] on a no-action event at PCR 0 or 6, for every order
    in which the digest map is visited: it returns [nil] if every digest
    is all zero (an empty digest counts), and otherwise an
    [UnexpectedDigestValueError] for a bank of the event whose digest has a
    non-zero byte.  It never calls [hash], so a bank outside the digest
    catalog does not make it panic. *)
Theorem no_action_check (e : Event EventData) (f : Format)
    (visit : list (AlgorithmId * Digest)) :
  eEventType e = EventTypeNoAction →
  ePCRIndex e = 0 ∨ ePCRIndex e = 6 →
  visit ≡ₚ map_to_list (eDigests e) →
  ((∀ alg digest, eDigests e !! alg = Some digest →
                  digest = zeros (length digest)) →
   check_on e f visit = Returns None) ∧
  ((∃ alg digest, eDigests e !! alg = Some digest ∧
                  digest ≠ zeros (length digest)) →
   ∃ alg digest,
     check_on e f visit
     = Returns (Some (UnexpectedDigestValueError (eEventType e) alg digest)) ∧
     eDigests e !! alg = Some digest ∧ digest ≠ zeros (length digest)).
Proof.
  intros Ht Hp Hperm.
  pose proof event_types_distinct as Hd.
  rewrite !NoDup_cons, !not_elem_of_cons in Hd.
  assert (Hvisit : ∀ alg digest,
    (alg, digest) ∈ visit ↔ eDigests e !! alg = Some digest).
  { intros. rewrite Hperm. apply elem_of_map_to_list. }
  unfold checkEvent. rewrite Ht.
  rewrite decide_False by (intros Heq; symmetry in Heq; tauto).
  rewrite decide_True by done. rewrite decide_False by lia.
  destruct (checkZeroDigests_cases EventTypeNoAction visit)
    as [[Hall ->]|(a & dg & Hin & Hne & ->)].
  - split; [done|]. intros (a & dg & Hin & Hne). apply Hvisit, Hall in Hin. done.
  - split.
    + intros Hall. apply Hvisit, Hall in Hin. done.
    + intros _. exists a, dg. by rewrite <- Hvisit.
Qed.

(** X13. [checkEvent] panics only on a separator event at PCR 0 to 7 whose
    payload decoded as a separator record and whose digest map has a bank
    outside the digest catalog; on an event whose banks all belong to the
    catalog, as the decoder produces them, it returns. *)
Theorem checkEvent_panics (e : Event EventData) (f : Format)
    (visit : list (AlgorithmId * Digest)) (msg : string) :
  check_on e f visit = Panics msg →
  eEventType e = EventTypeSeparator ∧ ePCRIndex e ≤ 7 ∧
  (∃ sType data, eData e = SeparatorEventData sType data) ∧
  ∃ alg, alg ∈ visit.*1 ∧
         alg ∉ [AlgorithmSha1; AlgorithmSha256; AlgorithmSha384; AlgorithmSha512].
Proof.
  unfold checkEvent. intros H.
  destruct (decide (eEventType e = EventTypePostCode)); [by case_decide|].
  destruct (decide (eEventType e = EventTypeNoAction)).
  { case_decide; [done|].
    by destruct (checkZeroDigests_cases (eEventType e) visit)
      as [[_ Hr]|(? & ? & _ & _ & Hr)]; rewrite Hr in H. }
  destruct (decide (eEventType e = EventTypeSeparator));
    [|by repeat case_decide].
  case_decide; [done|]. destruct (eData e) as [sType data|]; [|done].
  apply checkSeparatorDigests_panics in H.
  split; [done|]. split; [lia|]. split; [eauto|done].
Qed.

(** X14. The header of a crypto-agile log passes the validator: an event
    that the legacy decoder reads and [parseTCG2LogHeader] accepts, with
    any decoded payload in the place of its bytes, makes [checkEvent]
    return [nil] under both formats. *)
Theorem header_event_passes (r : Reader) (ev : Event (list byte))
    (partial : bool) (err : option error) (r' : Reader)
    (sizes : list algorithmSize) (payload : EventData) (f : Format)
    (visit : list (AlgorithmId * Digest)) :
  ReadNextEvent_1_2 host r = ((Some ev, partial, err), r') →
  parseTCG2LogHeader host ev = Some sizes →
  visit ≡ₚ map_to_list (eDigests ev) →
  check_on (mkEvent (ePCRIndex ev) (eEventType ev) (eDigests ev) payload)
    f visit
  = Returns None.
Proof.
  intros Hread Hparse Hperm.
  pose proof event_types_distinct as Hd.
  rewrite !NoDup_cons, !not_elem_of_cons in Hd.
  apply ReadNextEvent_1_2_digests in Hread as (d & Hm & Hl).
  unfold parseTCG2LogHeader in Hparse.
  destruct (decide (ePCRIndex ev ≠ 0)) as [|Hp]; [done|].
  destruct (decide (eEventType ev ≠ EventTypeNoAction)) as [|Ht]; [done|].
  destruct (isZeroDigest _) eqn:Hz; [|done].
  assert (eEventType ev = EventTypeNoAction) as Ht'
    by (by destruct (decide (eEventType ev = EventTypeNoAction))).
  rewrite Hm, lookup_insert_eq in Hz. cbn [default from_option id] in Hz.
  unfold checkEvent. cbn [eEventType ePCRIndex eDigests eData]. rewrite Ht'.
  rewrite decide_False by (intros Heq; symmetry in Heq; tauto).
  rewrite decide_True by done. rewrite decide_False by lia.
  destruct (checkZeroDigests_cases EventTypeNoAction visit)
    as [[_ ->]|(a & dg & Hin & Hne & _)]; [done|].
  rewrite Hperm, Hm in Hin. apply elem_of_map_to_list in Hin.
  apply lookup_insert_Some in Hin as [[<- <-]|[_ Hin]]; [|done].
  by apply isZeroDigest_spec in Hz.
Qed.

End MoreValidatorProperties.

(** ** The command-line helpers *)

Lemma append_cons c (s1 s2 : string) :
  (String c s1 +:+ s2 = String c (s1 +:+ s2))%string.
Proof. done. Qed.

Lemma append_assoc (s1 s2 s3 : string) :
  ((s1 +:+ s2) +:+ s3 = s1 +:+ (s2 +:+ s3))%string.
Proof. induction s1 as [|c s1 IH]; [done|]. by rewrite !append_cons, IH. Qed.

Lemma append_nil_r (s : string) : (s +:+ "" = s)%string.
Proof. induction s as [|c s IH]; [done|]. by rewrite append_cons, IH. Qed.

Lemma length_append (s1 s2 : string) :
  String.length (s1 +:+ s2) = (String.length s1 + String.length s2)%nat.
Proof.
  induction s1 as [|c s1 IH]; [done|].
  rewrite append_cons. cbn [String.length]. by rewrite IH.
Qed.

Lemma pretty_N_go_app x : ∀ s, pretty_N_go x s = (pretty_N_go x "" +:+ s)%string.
Proof.
  induction (N.lt_wf_0 x) as [x _ IH]. intros s.
  assert (x = 0 ∨ 0 < x)%N as [->|Hx] by lia; [by rewrite !pretty_N_go_0|].
  rewrite (pretty_N_go_step x s), (pretty_N_go_step x "") by done.
  assert (x `div` 10 < x)%N as Hlt by (apply N.div_lt; lia).
  rewrite (IH _ Hlt (String _ s)), (IH _ Hlt (String _ "")).
  by rewrite append_assoc.
Qed.

Lemma digit_value_pretty d :
  (d < 10)%N → digit_value (pretty_N_char d) = Some (Z.of_N d).
Proof.
  intros Hd. destruct d as [|p]; [done|].
  do 4 (destruct p as [p|p|]; try done; try lia).
Qed.

(** The number of decimal digits of [x] ([0] for [0]). *)
Lemma digits_step x :
  (0 < x)%N →
  String.length (pretty_N_go x "")
  = S (String.length (pretty_N_go (x `div` 10) "")).
Proof.
  intros Hx. rewrite (pretty_N_go_step x "") by done.
  rewrite pretty_N_go_app, length_append. simpl. lia.
Qed.

(** The digit loop over the decimal digits of [x], as long as the value
    stays within 32 bits. *)
Lemma ParseUint_loop_pretty x : ∀ n s,
  0 ≤ n →
  n * 10 ^ Z.of_nat (String.length (pretty_N_go x "")) + Z.of_N x ≤ 2 ^ 32 - 1 →
  ParseUint_loop 10 (2 ^ 32 - 1) (maxUint64 `div` 10 + 1) (pretty_N_go x s) n
  = ParseUint_loop 10 (2 ^ 32 - 1) (maxUint64 `div` 10 + 1) s
      (n * 10 ^ Z.of_nat (String.length (pretty_N_go x "")) + Z.of_N x).
Proof.
  induction (N.lt_wf_0 x) as [x _ IH]. intros n s Hn Hmax.
  assert (x = 0 ∨ 0 < x)%N as [->|Hx] by lia.
  { rewrite !pretty_N_go_0. simpl. f_equal. lia. }
  assert (x `div` 10 < x)%N as Hlt by (apply N.div_lt; lia).
  rewrite digits_step in * by done.
  rewrite (pretty_N_go_step x s) by done.
  set (k := String.length (pretty_N_go (x `div` 10) "")) in *.
  assert (Hx10 : Z.of_N x = 10 * Z.of_N (x `div` 10) + Z.of_N (x `mod` 10)).
  { rewrite N2Z.inj_div, N2Z.inj_mod. change (Z.of_N 10) with 10.
    apply Z.div_mod. lia. }
  assert (Hmod : (x `mod` 10 < 10)%N) by (apply N.mod_lt; lia).
  rewrite Nat2Z.inj_succ, Z.pow_succ_r in * by lia.
  assert (0 ≤ n * 10 ^ Z.of_nat k) by (apply Z.mul_nonneg_nonneg; lia).
  replace (n * (10 * 10 ^ Z.of_nat k)) with (10 * (n * 10 ^ Z.of_nat k))
    in * by ring.
  set (q := n * 10 ^ Z.of_nat k) in *.
  rewrite (IH _ Hlt n _ Hn) by (fold k; fold q; lia). fold k. fold q.
  cbn [ParseUint_loop]. rewrite (digit_value_pretty _ Hmod).
  rewrite decide_False by lia.
  assert (Hcut : maxUint64 `div` 10 + 1 = 1844674407370955162) by done.
  rewrite decide_False by (rewrite Hcut; lia).
  remember (q + Z.of_N (x `div` 10)) as m eqn:Hm.
  assert (0 ≤ Z.of_N (x `div` 10)) by lia.
  assert (0 ≤ Z.of_N (x `mod` 10) < 10)
    by (rewrite N2Z.inj_mod; apply Z.mod_pos_bound; lia).
  clearbody q. clear IH Hmod Hlt.
  rewrite (Z.mod_small (m * 10)) by lia.
  rewrite (Z.mod_small (m * 10 + _)) by lia.
  rewrite decide_False by lia. f_equal. lia.
Qed.

Lemma ParseUint_pretty v :
  0 ≤ v < 2 ^ 32 → ParseUint_10_32 (pretty v) = (v, None).
Proof.
  intros Hv. destruct v as [|p|p]; [reflexivity| |lia].
  unfold ParseUint_10_32.
  change (pretty (Z.pos p)) with (pretty (N.pos p)).
  unfold pretty, pretty_N.
  rewrite (decide_False (P := (N.pos p = 0)%N)) by done.
  rewrite decide_False.
  2:{ rewrite pretty_N_go_step by done. intros H.
      apply (f_equal String.length) in H.
      rewrite pretty_N_go_app, length_append in H. simpl in H. lia. }
  rewrite ParseUint_loop_pretty by (simpl; lia). simpl. done.
Qed.

Lemma digit_value_decimal c d :
  digit_value c = Some d → d < 10 →
  48 ≤ Z.of_nat (nat_of_ascii c) ≤ 57 ∧ d = Z.of_nat (nat_of_ascii c) - 48.
Proof.
  unfold digit_value. intros H Hd. repeat case_decide; simplify_eq; lia.
Qed.

Lemma ParseUint_loop_inv s : ∀ n v,
  0 ≤ n ≤ 2 ^ 32 - 1 →
  ParseUint_loop 10 (2 ^ 32 - 1) (maxUint64 `div` 10 + 1) s n = (v, None) →
  0 ≤ v ≤ 2 ^ 32 - 1 ∧
  ∀ c, In c (list_ascii_of_string s) → 48 ≤ Z.of_nat (nat_of_ascii c) ≤ 57.
Proof.
  induction s as [|c s IH]; intros n v Hn H.
  - injection H as <-. split; [done|]. intros c [].
  - cbn [ParseUint_loop] in H.
    destruct (digit_value c) as [d|] eqn:Hd; [|done].
    case_decide as Hbase; [done|]. case_decide as Hcut; [done|].
    case_decide as Hover; [done|].
    apply digit_value_decimal in Hd as [Hc ->]; [|lia].
    rewrite (Z.mod_small (n * 10)) in * by lia.
    rewrite (Z.mod_small (n * 10 + _)) in * by lia.
    apply IH in H as [Hv Hall]; [|lia].
    split; [done|]. intros c' [<-|Hin]; [done|by apply Hall].
Qed.

(** X16. [PCRArgList.Set] appends the value of a decimal numeral: on the
    decimal form of any [v] below [2^32] it appends [v], also when [v]
    exceeds the largest PCR index; when it succeeds, the argument is a
    non-empty string of the characters ['0'..'9'] and one index below
    [2^32] has been appended; when it fails, as on the empty string, the
    list is unchanged. *)
Theorem PCRArgList_Set_decimal (l : list PCRIndex) (value : string) :
  (∀ v, 0 ≤ v < 2 ^ 32 → PCRArgList_Set l (pretty v) = (l ++ [v], None)) ∧
  (∀ l', PCRArgList_Set l value = (l', None) →
         value ≠ EmptyString ∧
         (∀ c, In c (list_ascii_of_string value) →
               48 ≤ Z.of_nat (nat_of_ascii c) ≤ 57) ∧
         ∃ v, l' = l ++ [v] ∧ 0 ≤ v < 2 ^ 32) ∧
  (∀ l' e, PCRArgList_Set l value = (l', Some e) → l' = l) ∧
  PCRArgList_Set l EmptyString = (l, Some ErrSyntax).
Proof.
  split; [|split; [|split]].
  - intros v Hv. unfold PCRArgList_Set. rewrite ParseUint_pretty by done.
    by rewrite Z.mod_small by lia.
  - intros l'. unfold PCRArgList_Set, ParseUint_10_32.
    case_decide as Hs; [done|].
    destruct (ParseUint_loop _ _ _ value 0) as [v [e|]] eqn:E; [done|].
    intros [= <-]. apply ParseUint_loop_inv in E as [Hv Hall]; [|lia].
    split; [done|]. split; [done|]. exists v.
    rewrite Z.mod_small by lia. split; [done|lia].
  - intros l' e. unfold PCRArgList_Set.
    destruct (ParseUint_10_32 value) as [v [e'|]]; by intros [= <- _].
  - done.
Qed.

Lemma PCRArgList_Set_decimal_witness :
  PCRArgList_Set [0; 7] (pretty 4294967295) = ([0; 7; 4294967295], None).
Proof.
  apply (proj1 (PCRArgList_Set_decimal [0; 7] EmptyString)). lia.
Defined.

Lemma PCRArgList_String_loop_acc l : ∀ i b,
  (0 < i)%nat →
  PCRArgList_String_loop i l b
  = (b +:+ PCRArgList_String_loop 1 l EmptyString)%string.
Proof.
  induction l as [|x l IH]; intros i b Hi; cbn [PCRArgList_String_loop].
  - by rewrite append_nil_r.
  - rewrite decide_True by done. rewrite decide_True by lia.
    rewrite (IH (S i)) by lia. rewrite (IH 2%nat) by lia.
    by rewrite !append_assoc.
Qed.

Lemma PCRArgList_String_loop_app l1 : ∀ l2 i b,
  PCRArgList_String_loop i (l1 ++ l2) b
  = PCRArgList_String_loop (i + length l1) l2 (PCRArgList_String_loop i l1 b).
Proof.
  induction l1 as [|x l1 IH]; intros l2 i b.
  - simpl. by rewrite Nat.add_0_r.
  - cbn [app PCRArgList_String_loop length]. rewrite IH. f_equal. lia.
Qed.

(** X17. [PCRArgList.String] of the empty list is the empty string, of one
    index its decimal form, and of two non-empty lists put together the two
    results joined by a comma and a space; [PCRArgList.Set] reads the
    result for one index back. *)
Theorem PCRArgList_String_join :
  PCRArgList_String [] = EmptyString ∧
  (∀ v, PCRArgList_String [v] = pretty v) ∧
  (∀ l1 l2, l1 ≠ [] → l2 ≠ [] →
     PCRArgList_String (l1 ++ l2)
     = (PCRArgList_String l1 +:+ ", " +:+ PCRArgList_String l2)%string) ∧
  (∀ l v, 0 ≤ v < 2 ^ 32 →
     PCRArgList_Set l (PCRArgList_String [v]) = (l ++ [v], None)).
Proof.
  split; [done|]. split; [done|]. split.
  - intros l1 l2 Hl1 Hl2. unfold PCRArgList_String.
    rewrite PCRArgList_String_loop_app.
    destruct l1 as [|x l1]; [done|]. destruct l2 as [|y l2]; [done|].
    rewrite PCRArgList_String_loop_acc by (simpl; lia). f_equal.
    cbn [PCRArgList_String_loop]. rewrite decide_True by lia.
    rewrite decide_False by lia.
    rewrite (PCRArgList_String_loop_acc l2 2) by lia.
    rewrite (PCRArgList_String_loop_acc l2 1 (_ +:+ _)) by lia.
    by rewrite !append_assoc.
  - intros l v Hv. change (PCRArgList_String [v]) with (pretty v).
    unfold PCRArgList_Set. rewrite ParseUint_pretty by done.
    by rewrite Z.mod_small by lia.
Qed.

Lemma PCRArgList_String_join_witness :
  PCRArgList_String ([0; 1] ++ [7]) = "0, 1, 7"%string.
Proof.
  apply (proj1 (proj2 (proj2 PCRArgList_String_join)) [0; 1] [7]); discriminate.
Defined.

Section HelperProperties.
Context `{K : Constants}.
Variables sha1_Sum sha256_Sum256 sha512_Sum384 sha512_Sum512
  : list byte → list byte.

(** X15. [ParseAlgorithm] succeeds exactly on the four lower-case names;
    what it returns is then an algorithm of the digest catalog, different
    names give different algorithms, and [DigestLength] of it is the
    length that goes with the name. *)
Theorem ParseAlgorithm_names (name : string) :
  ((ParseAlgorithm name).2 = None ↔
   name ∈ ["sha1"; "sha256"; "sha384"; "sha512"]%string) ∧
  ((ParseAlgorithm name).2 = None →
   (ParseAlgorithm name).1 ∈ [AlgorithmSha1; AlgorithmSha256; AlgorithmSha384;
                              AlgorithmSha512] ∧
   DigestLength (ParseAlgorithm name).1
   = (if decide (name = "sha1"%string) then 20
      else if decide (name = "sha256"%string) then 32
      else if decide (name = "sha384"%string) then 48 else 64)) ∧
  (∀ name', (ParseAlgorithm name).2 = None →
            ParseAlgorithm name' = ParseAlgorithm name → name' = name).
Proof.
  pose proof algorithms_distinct as Hd.
  rewrite !NoDup_cons, !not_elem_of_cons in Hd.
  assert (H1 : knownAlgorithms !! AlgorithmSha1 = Some 20)
    by (apply knownAlgorithms_lookup; tauto).
  assert (H2 : knownAlgorithms !! AlgorithmSha256 = Some 32)
    by (apply knownAlgorithms_lookup; tauto).
  assert (H3 : knownAlgorithms !! AlgorithmSha384 = Some 48)
    by (apply knownAlgorithms_lookup; tauto).
  assert (H4 : knownAlgorithms !! AlgorithmSha512 = Some 64)
    by (apply knownAlgorithms_lookup; tauto).
  assert (HL : ∀ a n, knownAlgorithms !! a = Some n → DigestLength a = n)
    by (intros a n H; exact (f_equal (default 0) H)).
  split; [|split].
  - rewrite !elem_of_cons, elem_of_nil. unfold ParseAlgorithm.
    repeat case_decide; simpl; split; try done; try tauto.
  - unfold ParseAlgorithm. rewrite !elem_of_cons.
    repeat case_decide; cbn [fst snd]; try done; intros _;
      try (subst; discriminate);
      rewrite ?(HL _ _ H1), ?(HL _ _ H2), ?(HL _ _ H3), ?(HL _ _ H4);
      (split; [auto 10|done]).
  - intros name'. unfold ParseAlgorithm.
    repeat case_decide; simpl; try done; intros _ [=];
      try (subst; discriminate); try (subst; done); intuition congruence.
Qed.

(** X18. [DigestLength] is 20, 32, 48 or 64 on the algorithms of the
    catalog and 0 on every other identifier, and the identifiers on which
    it is not 0 are exactly those for which [hash] does not panic. *)
Theorem DigestLength_catalog (alg : AlgorithmId) (data : list byte) :
  (DigestLength alg ≠ 0 ↔
   alg ∈ [AlgorithmSha1; AlgorithmSha256; AlgorithmSha384; AlgorithmSha512]) ∧
  (DigestLength alg ≠ 0 ↔
   is_Some (hash sha1_Sum sha256_Sum256 sha512_Sum384 sha512_Sum512
              data alg)) ∧
  DigestLength AlgorithmSha1 = 20 ∧ DigestLength AlgorithmSha256 = 32 ∧
  DigestLength AlgorithmSha384 = 48 ∧ DigestLength AlgorithmSha512 = 64.
Proof.
  assert (Hk : DigestLength alg ≠ 0 ↔ is_Some (knownAlgorithms !! alg)).
  { unfold DigestLength. destruct (knownAlgorithms !! alg) as [n|] eqn:E.
    - apply knownAlgorithms_lookup in E. simpl. split; [eauto|]. lia.
    - simpl. split; [done|]. by intros [? ?]. }
  split; [by rewrite Hk, knownAlgorithms_is_Some|]. split.
  - rewrite Hk, knownAlgorithms_is_Some. split.
    + apply hash_is_Some.
    + rewrite !elem_of_cons. unfold hash.
      repeat case_decide; try tauto. by intros [? ?].
  - assert (HL : ∀ a n, knownAlgorithms !! a = Some n → DigestLength a = n)
      by (intros a n H; exact (f_equal (default 0) H)).
    repeat split; apply HL, knownAlgorithms_lookup; tauto.
Qed.

End HelperProperties.

(** ** Event type labels *)

Lemma hex_digit_inj (m n : Z) :
  0 ≤ m < 16 → 0 ≤ n < 16 → hex_digit m = hex_digit n → m = n.
Proof.
  intros Hm Hn.
  assert (Em : m ∈ (Z.of_nat <$> seq 0 16)).
  { apply list_elem_of_fmap. exists (Z.to_nat m). split; [lia|].
    apply elem_of_seq. lia. }
  assert (En : n ∈ (Z.of_nat <$> seq 0 16)).
  { apply list_elem_of_fmap. exists (Z.to_nat n). split; [lia|].
    apply elem_of_seq. lia. }
  revert Em En. generalize m n. clear.
  cbn [seq fmap list_fmap]. intros m n Em En.
  repeat (apply elem_of_cons in Em as [->|Em]);
    try (by apply elem_of_nil in Em);
    repeat (apply elem_of_cons in En as [->|En]);
    try (by apply elem_of_nil in En); (done || discriminate).
Qed.

Lemma hex_digit_lower (n : Z) : hex_digit n ≠ "E"%char.
Proof.
  unfold hex_digit.
  destruct (Z.to_nat n) as [|[|[|[|[|[|[|[|[|[|[|[|[|[|[|[|k]]]]]]]]]]]]]]]];
    try discriminate.
Qed.

Lemma nibble_ext (x y : Z) :
  x `mod` 16 = y `mod` 16 → x `div` 16 = y `div` 16 → x = y.
Proof.
  intros Hm Hd.
  rewrite (Z.div_mod x 16), (Z.div_mod y 16) by lia. congruence.
Qed.

Lemma fmt_08x_inj (v w : Z) :
  0 ≤ v < 2 ^ 32 → 0 ≤ w < 2 ^ 32 → fmt_08x v = fmt_08x w → v = w.
Proof.
  intros Hv Hw E. unfold fmt_08x, fmt_04x in E.
  assert (R : ∀ x k, 0 ≤ Z.land (Z.shiftr x k) 15 < 16).
  { intros x k. change 15 with (Z.ones 4). rewrite Z.land_ones by lia.
    apply Z.mod_pos_bound. lia. }
  assert (S : ∀ x k, 0 ≤ k →
            Z.land (Z.shiftr x k) 15 = (x `div` 2 ^ k) `mod` 16).
  { intros x k Hk. change 15 with (Z.ones 4).
    by rewrite Z.land_ones, Z.shiftr_div_pow2 by lia. }
  assert (D : ∀ x k, 0 ≤ k →
            (x `div` 2 ^ k) `div` 16 = x `div` 2 ^ (k + 4)).
  { intros x k Hk. rewrite Z.div_div by lia.
    by rewrite Z.pow_add_r by lia. }
  injection E as E7 E6 E5 E4 E3 E2 E1 E0.
  apply hex_digit_inj in E7, E6, E5, E4, E3, E2, E1; try apply R.
  apply hex_digit_inj in E0; try apply (R _ 0).
  rewrite !S in E7, E6, E5, E4, E3, E2, E1 by lia.
  rewrite <- (Z.shiftr_0_r v), <- (Z.shiftr_0_r w), !S in E0 by lia.
  assert (B : ∀ x, 0 ≤ x < 2 ^ 32 → (x `div` 2 ^ 28) `div` 16 = 0).
  { intros x Hx. rewrite D by lia. apply Z.div_small. simpl. lia. }
  assert (H28 : v `div` 2 ^ 28 = w `div` 2 ^ 28).
  { apply nibble_ext; [done|]. by rewrite !B. }
  assert (H24 : v `div` 2 ^ 24 = w `div` 2 ^ 24).
  { apply nibble_ext; [done|]. by rewrite !D. }
  assert (H20 : v `div` 2 ^ 20 = w `div` 2 ^ 20).
  { apply nibble_ext; [done|]. by rewrite !D. }
  assert (H16 : v `div` 2 ^ 16 = w `div` 2 ^ 16).
  { apply nibble_ext; [done|]. by rewrite !D. }
  assert (H12 : v `div` 2 ^ 12 = w `div` 2 ^ 12).
  { apply nibble_ext; [done|]. by rewrite !D. }
  assert (H8 : v `div` 2 ^ 8 = w `div` 2 ^ 8).
  { apply nibble_ext; [done|]. by rewrite !D. }
  assert (H4 : v `div` 2 ^ 4 = w `div` 2 ^ 4).
  { apply nibble_ext; [done|]. by rewrite !D. }
  assert (H0 : v `div` 2 ^ 0 = w `div` 2 ^ 0).
  { apply nibble_ext; [done|]. by rewrite !D. }
  by rewrite !Z.div_1_r in H0.
Qed.

Section LabelProperties.
Context `{T : EventTypes}.

Lemma switch_label_Some cases e s :
  switch_label cases e = Some s → (e, s) ∈ cases.
Proof.
  induction cases as [|[c l] cases IH]; simpl; [done|].
  case_decide as Hc.
  - intros [= <-]. subst. left.
  - intros H. right. by apply IH.
Qed.

Lemma switch_label_None cases e :
  switch_label cases e = None → e ∉ cases.*1.
Proof.
  induction cases as [|[c l] cases IH]; simpl.
  - intros _. apply not_elem_of_nil.
  - case_decide as Hc; [done|]. intros H.
    apply not_elem_of_cons. split; [done|]. by apply IH.
Qed.

Lemma switch_label_lookup cases e s :
  NoDup cases.*1 → (e, s) ∈ cases → switch_label cases e = Some s.
Proof.
  induction cases as [|[c l] cases IH]; simpl.
  - intros _ H. by apply elem_of_nil in H.
  - intros [Hc Hd]%NoDup_cons [E|E]%elem_of_cons.
    + injection E as -> ->. by rewrite decide_True.
    + case_decide as Hec; [|by apply IH].
      subst c. destruct Hc. apply list_elem_of_fmap. by exists (e, s).
Qed.

Lemma label_of_name (l : list (EventType * string)) a b s :
  NoDup l.*2 → (a, s) ∈ l → (b, s) ∈ l → a = b.
Proof.
  induction l as [|[c n] l IH]; simpl.
  - intros _ H. by apply elem_of_nil in H.
  - intros [Hc Hd]%NoDup_cons [Ea|Ea]%elem_of_cons [Eb|Eb]%elem_of_cons.
    + congruence.
    + injection Ea as -> ->. destruct Hc.
      apply list_elem_of_fmap. by exists (b, n).
    + injection Eb as -> ->. destruct Hc.
      apply list_elem_of_fmap. by exists (a, n).
    + by apply IH.
Qed.

Lemma labels_names : NoDup labels.*2.
Proof. cbn. by apply (bool_decide_unpack _). Qed.

Lemma labels_upper e s : (e, s) ∈ labels → ∃ s', s = String "E" s'.
Proof.
  unfold labels. intros H.
  repeat (apply elem_of_cons in H as [[= -> ->]|H]; [by eexists|]).
  by apply elem_of_nil in H.
Qed.

Lemma fmt_08x_lower v s' : fmt_08x v ≠ String "E" s'.
Proof. unfold fmt_08x. intros [= H _]. by apply hex_digit_lower in H. Qed.

Lemma Label_known e s : (e, s) ∈ labels → Label e = s.
Proof.
  intros H. unfold Label.
  by rewrite (switch_label_lookup labels e s labelled_types_distinct H).
Qed.

(** X19. [EventType.Label] tells the event types apart: two different
    32-bit codes never get the same label, whether they are named by the
    [switch] or printed as eight hexadecimal digits. *)
Theorem Label_injective (e1 e2 : EventType) :
  0 ≤ e1 < 2 ^ 32 → 0 ≤ e2 < 2 ^ 32 → e1 ≠ e2 → Label e1 ≠ Label e2.
Proof.
  intros H1 H2 Hne. unfold Label.
  destruct (switch_label labels e1) as [s1|] eqn:E1;
    destruct (switch_label labels e2) as [s2|] eqn:E2; simpl.
  - intros ->. apply switch_label_Some in E1, E2.
    exact (Hne (label_of_name labels e1 e2 s2 labels_names E1 E2)).
  - intros ->. apply switch_label_Some, labels_upper in E1 as [s' E1].
    by apply fmt_08x_lower in E1.
  - intros E. apply switch_label_Some, labels_upper in E2 as [s' E2].
    rewrite E2 in E. by apply fmt_08x_lower in E.
  - intros E. by apply Hne, fmt_08x_inj.
Qed.

End LabelProperties.

Section ErrorMessages.
Context `{T : EventTypes}.
Variable host : ByteOrder.
Variables sha1_Sum sha256_Sum256 sha512_Sum384 sha512_Sum512
  : list byte → list byte.

Lemma checkZeroDigests_error eventType visit err :
  checkZeroDigests eventType visit = Returns (Some err) →
  ∃ alg digest, err = UnexpectedDigestValueError eventType alg digest.
Proof.
  induction visit as [|[alg digest] visit IH]; [done|].
  cbn [checkZeroDigests]. destruct (negb (isZeroDigest digest)); [|done].
  intros [= <-]. by eexists _, _.
Qed.

Lemma checkSeparatorDigests_error eventType d visit err :
  checkSeparatorDigests sha1_Sum sha256_Sum256 sha512_Sum384 sha512_Sum512
    eventType d visit = Returns (Some err) →
  ∃ alg digest, err = UnexpectedDigestValueError eventType alg digest.
Proof.
  induction visit as [|[alg digest] visit IH]; [done|].
  cbn [checkSeparatorDigests].
  destruct (hash sha1_Sum sha256_Sum256 sha512_Sum384 sha512_Sum512 d alg);
    [|done].
  case_decide as Hd; [|done]. intros [= <-]. by eexists _, _.
Qed.

(** X20. An error of [checkEvent] always names one of the four event types
    it checks: the message of the error is one of the three texts of the
    [Error] methods, with the label of the event's own type, which is
    [EV_POST_CODE], [EV_NO_ACTION], [EV_SEPARATOR] or [EV_EVENT_TAG] and
    never a hexadecimal code, and with the event's own PCR index. *)
Theorem checkEvent_error_message (e : Event EventData) (f : Format)
    (visit : list (AlgorithmId * Digest)) (err : checkError) :
  checkEvent host sha1_Sum sha256_Sum256 sha512_Sum384 sha512_Sum512 e f visit
  = Returns (Some err) →
  ∃ name : string,
    (eEventType e, name)
    ∈ [(EventTypePostCode, "EV_POST_CODE"%string);
       (EventTypeNoAction, "EV_NO_ACTION"%string);
       (EventTypeSeparator, "EV_SEPARATOR"%string);
       (EventTypeEventTag, "EV_EVENT_TAG"%string)] ∧
    checkError_Error err
    ∈ [("Unexpected " +:+ name +:+ " event type measured to PCR index " +:+
        pretty (ePCRIndex e))%string;
       ("Unexpected digest value for event type " +:+ name)%string;
       ("Invalid data for event type " +:+ name)%string].
Proof.
  intros Hc.
  assert (Hn : ∃ name : string,
            (eEventType e, name)
            ∈ [(EventTypePostCode, "EV_POST_CODE"%string);
               (EventTypeNoAction, "EV_NO_ACTION"%string);
               (EventTypeSeparator, "EV_SEPARATOR"%string);
               (EventTypeEventTag, "EV_EVENT_TAG"%string)]).
  { unfold checkEvent in Hc.
    repeat (case_decide as Ht; [rewrite Ht; eexists;
      eauto using list_elem_of_here, list_elem_of_further|clear Ht]).
    done. }
  destruct Hn as [name Hn]. exists name. split; [done|].
  assert (Hl : Label (eEventType e) = name).
  { apply Label_known. unfold labels.
    repeat (apply elem_of_cons in Hn as [[= -> ->]|Hn];
      [eauto 10 using list_elem_of_here, list_elem_of_further|]).
    by apply elem_of_nil in Hn. }
  assert (He : err = UnexpectedEventTypeError (eEventType e) (ePCRIndex e) ∨
               (∃ alg digest,
                  err = UnexpectedDigestValueError (eEventType e) alg digest) ∨
               err = InvalidEventDataError (eEventType e) (eData e)).
  { unfold checkEvent in Hc.
    repeat case_decide; try done;
      try (injection Hc as <-; by left).
    - right. left. by apply checkZeroDigests_error in Hc.
    - destruct (eData e).
      + right. left. by apply checkSeparatorDigests_error in Hc.
      + injection Hc as <-. by right; right. }
  destruct He as [->|[(alg & digest & ->)| ->]]; cbn [checkError_Error];
    rewrite Hl.
  - apply list_elem_of_here.
  - apply list_elem_of_further, list_elem_of_here.
  - apply list_elem_of_further, list_elem_of_further, list_elem_of_here.
Qed.
End ErrorMessages.

(** ** The further properties on the sample logs *)

Lemma legacy_short_digest_witness :
  ReadNextEvent_1_2 (K := tcg) LittleEndian sample_short_digest
  = ((None, true, Some EOF), advance 11 sample_short_digest) ∧
  NextEvent (K := tcg) LittleEndian (mkLog 1 [4] Stream_1_2)
    sample_short_digest
  = ((None, Some ErrUnexpectedEOF, mkLog 1 [4] Stream_1_2),
     advance 11 sample_short_digest).
Proof.
  apply (legacy_short_digest (K := tcg) LittleEndian sample_short_digest 1 13
           [x01; x02; x03] (mkLog 1 [4] Stream_1_2));
    try (simpl; lia); reflexivity.
Defined.

Lemma crypto_agile_short_digest_witness :
  fst (ReadNextEvent_2_rest (K := tcg) LittleEndian sample_sizes
         sample_short_digest_2)
  = (None, true, Some ErrUnexpectedEOF).
Proof.
  apply (crypto_agile_short_digest (K := tcg) LittleEndian sample_sizes
           sample_short_digest_2 1 13 1 [] 4 20 [x01; x02; x03]);
    try (simpl; lia); try reflexivity.
  constructor.
Defined.

Lemma newLogFromReader_outcomes_witness :
  newLogFromReader (K := tcg) LittleEndian sample_empty
  = ((None, Some ErrUnexpectedEOF), sample_empty).
Proof.
  apply (proj1 (proj2 (proj2 (newLogFromReader_outcomes (K := tcg)
                                LittleEndian sample_empty)))).
  reflexivity.
Defined.

Lemma opened_log_algorithms_witness :
  log_consistent (K := tcg)
    (mkLog 2 [4] (Stream_2 (mkStream_2 sample_sizes_unrecognized false))).
Proof.
  refine (proj1 (opened_log_algorithms (K := tcg) LittleEndian
                   (sample_header sample_sizes_unrecognized)
                   (mkLog 2 [4]
                      (Stream_2 (mkStream_2 sample_sizes_unrecognized false)))
                   _)).
  reflexivity.
Defined.

Lemma NextEvent_digest_lengths_witness :
  log_consistent (K := tcg) sample_log ∧
  lFormat sample_log = lFormat sample_log ∧
  lAlgorithms sample_log = lAlgorithms sample_log ∧
  ∀ e a d,
    Some (mkEvent 0 13 {[ 4 := replicate 20 x01; 11 := zeros 32 ]} sample_data)
    = Some e →
    eDigests e !! a = Some d →
    a ∈ [4; 11; 12; 13] ∧
    Z.of_nat (length d) = DigestLength (K := tcg) a ∧
    (true = true → HasAlgorithm sample_log a = true).
Proof.
  apply (NextEvent_digest_lengths (K := tcg) LittleEndian sample_log
           sample_duplicate _ None sample_log
           (advance (length (buf sample_duplicate)) sample_duplicate)).
  - split; [reflexivity|]. split; [|reflexivity].
    intros a known Ha. unfold sample_log, sample_sizes in Ha.
    cbn [lstream algorithmSizes] in Ha.
    rewrite !elem_of_cons, elem_of_nil in Ha.
    destruct Ha as [->|[->|[]]]; intros [= <-]; reflexivity.
  - reflexivity.
Defined.

Lemma parseTCG2LogHeader_layout_witness :
  parseTCG2LogHeader (K := tcg) LittleEndian
    (mkEvent 0 3 {[ 4 := zeros 20 ]} (sample_header_data sample_sizes))
  = Some sample_sizes.
Proof.
  apply (proj2 (parseTCG2LogHeader_layout (K := tcg) LittleEndian
                  (mkEvent 0 3 {[ 4 := zeros 20 ]}
                     (sample_header_data sample_sizes)) sample_sizes)).
  split; [reflexivity|]. split; [reflexivity|]. split; [reflexivity|].
  split; [simpl; lia|]. split; [simpl; lia|]. split.
  - repeat constructor; simpl; lia.
  - exists (zeros 8), [x00]. split; reflexivity.
Defined.

Lemma read_legacy_log_witness :
  newLogFromReader (K := tcg) LittleEndian sample_log_1_2
  = ((Some (mkLog 1 [4] Stream_1_2), None), sample_log_1_2) ∧
  ∀ n, NextEvents (K := tcg) LittleEndian n (mkLog 1 [4] Stream_1_2)
         sample_log_1_2
       = ((event_of_1_2 (K := tcg) <$> take n sample_records_1_2,
           if decide (n ≤ 2)%nat then None else Some EOF,
           mkLog 1 [4] Stream_1_2),
          advance (length (wire_records_1_2 LittleEndian
                             (take n sample_records_1_2))) sample_log_1_2).
Proof.
  apply (read_legacy_log (K := tcg) LittleEndian (1, 13, zeros 20, sample_data)
           [(0, 4, replicate 20 x01, [])] sample_log_1_2).
  - repeat constructor; simpl; lia.
  - intros (H & _). discriminate H.
  - reflexivity.
Defined.

Lemma read_crypto_agile_log_witness :
  newLogFromReader (K := tcg) LittleEndian sample_log_2
  = ((Some (mkLog 2 [4]
              (Stream_2 (mkStream_2 sample_sizes_unrecognized false))), None),
     sample_log_2) ∧
  ∀ n, NextEvents (K := tcg) LittleEndian (S n)
         (mkLog 2 [4] (Stream_2 (mkStream_2 sample_sizes_unrecognized false)))
         sample_log_2
       = ((mkEvent 0 3 {[ 4 := zeros 20 ]}
             (sample_header_data sample_sizes_unrecognized)
           :: (event_of_2 (K := tcg) <$> take n sample_records),
           if decide (n ≤ 2)%nat then None else Some EOF,
           mkLog 2 [4] (Stream_2 (mkStream_2 sample_sizes_unrecognized true))),
          advance (69 + length (wire_records_2 LittleEndian
                                  (take n sample_records))) sample_log_2).
Proof.
  apply (read_crypto_agile_log (K := tcg) LittleEndian (zeros 8)
           sample_sizes_unrecognized [x00] sample_records sample_log_2).
  - simpl. lia.
  - reflexivity.
  - repeat constructor; simpl; lia.
  - simpl. lia.
  - simpl. lia.
  - simpl. lia.
  - intros a known Ha. unfold sample_sizes_unrecognized in Ha.
    rewrite !elem_of_cons, elem_of_nil in Ha.
    destruct Ha as [->|[->|[]]]; intros [= <-]; reflexivity.
  - repeat constructor; simpl; lia.
  - reflexivity.
Defined.

Lemma findDigestSize_first_witness :
  findDigestSize [mkAlgorithmSize 18 3; mkAlgorithmSize 4 20;
                  mkAlgorithmSize 18 5] 18 = Some 3.
Proof.
  apply (proj2 (findDigestSize_first
                  [mkAlgorithmSize 18 3; mkAlgorithmSize 4 20;
                   mkAlgorithmSize 18 5] 18)
           [] 3 [mkAlgorithmSize 4 20; mkAlgorithmSize 18 5]).
  - reflexivity.
  - apply not_elem_of_nil.
Defined.

Lemma checkEvent_pcr_rules_witness :
  checkEvent (K := tcg) LittleEndian sample_hash sample_hash sample_hash
    sample_hash sample_other_type 2 (map_to_list (eDigests sample_other_type))
  = Returns None.
Proof.
  apply (proj2 (checkEvent_pcr_rules (K := tcg) LittleEndian sample_hash
                  sample_hash sample_hash sample_hash sample_other_type 2
                  (map_to_list (eDigests sample_other_type)))).
  by apply (bool_decide_unpack _).
Defined.

Lemma no_action_check_witness :
  checkEvent (K := tcg) LittleEndian sample_hash sample_hash sample_hash
    sample_hash sample_no_action 2 (map_to_list (eDigests sample_no_action))
  = Returns None.
Proof.
  apply (proj1 (no_action_check (K := tcg) LittleEndian sample_hash
                  sample_hash sample_hash sample_hash sample_no_action 2
                  (map_to_list (eDigests sample_no_action))
                  eq_refl (or_intror eq_refl) (reflexivity _))).
  intros alg digest Hd. apply elem_of_map_to_list in Hd.
  change (map_to_list (eDigests sample_no_action))
    with [(11, zeros 32); (4, zeros 20)] in Hd.
  rewrite !elem_of_cons, elem_of_nil in Hd.
  destruct Hd as [[= -> ->]|[[= -> ->]|[]]]; reflexivity.
Defined.

Lemma checkEvent_panics_witness :
  eEventType sample_separator_unrecognized = 4 ∧
  ePCRIndex sample_separator_unrecognized ≤ 7 ∧
  (∃ sType data,
     eData sample_separator_unrecognized = SeparatorEventData sType data) ∧
  ∃ alg, alg ∈ [(99, [x01])].*1 ∧ alg ∉ [4; 11; 12; 13].
Proof.
  apply (checkEvent_panics (K := tcg) LittleEndian sample_hash sample_hash
           sample_hash sample_hash sample_separator_unrecognized 1
           [(99, [x01])] "Unhandled algorithm").
  reflexivity.
Defined.

Lemma header_event_passes_witness :
  checkEvent (K := tcg) LittleEndian sample_hash sample_hash sample_hash
    sample_hash
    (mkEvent 0 3 {[ 4 := zeros 20 ]} (OtherEventData [])) 2 [(4, zeros 20)]
  = Returns None.
Proof.
  apply (header_event_passes (K := tcg) LittleEndian sample_hash sample_hash
           sample_hash sample_hash (sample_header sample_sizes)
           (mkEvent 0 3 {[ 4 := zeros 20 ]} (sample_header_data sample_sizes))
           false None (advance 69 (sample_header sample_sizes)) sample_sizes
           (OtherEventData []) 2 [(4, zeros 20)]);
    reflexivity.
Defined.

Lemma ParseAlgorithm_names_witness :
  (ParseAlgorithm (K := tcg) "sha256").1 ∈ [4; 11; 12; 13] ∧
  DigestLength (K := tcg) (ParseAlgorithm (K := tcg) "sha256").1 = 32.
Proof.
  apply (proj1 (proj2 (ParseAlgorithm_names (K := tcg) "sha256"))).
  reflexivity.
Defined.

Lemma DigestLength_catalog_witness :
  DigestLength (K := tcg) 11 ≠ 0.
Proof.
  apply (proj2 (proj1 (DigestLength_catalog (K := tcg) sample_hash sample_hash
                         sample_hash sample_hash 11 []))).
  by apply (bool_decide_unpack _).
Defined.

Lemma Label_injective_witness :
  Label (T := tcg_event_types) 6 ≠ Label (T := tcg_event_types) 2147483654.
Proof.
  apply (Label_injective (T := tcg_event_types) 6 2147483654);
    [simpl; lia | simpl; lia | discriminate].
Defined.

Lemma checkEvent_error_message_witness :
  ∃ name : string,
    (1, name) ∈ [(1, "EV_POST_CODE"%string); (3, "EV_NO_ACTION"%string);
                 (4, "EV_SEPARATOR"%string); (6, "EV_EVENT_TAG"%string)] ∧
    checkError_Error (T := tcg_event_types) (UnexpectedEventTypeError 1 1)
    ∈ [("Unexpected " +:+ name +:+ " event type measured to PCR index " +:+
        pretty 1)%string;
       ("Unexpected digest value for event type " +:+ name)%string;
       ("Invalid data for event type " +:+ name)%string].
Proof.
  apply (checkEvent_error_message (T := tcg_event_types) LittleEndian
           sample_hash sample_hash sample_hash sample_hash
           sample_post_code_misplaced 2
           (map_to_list (eDigests sample_post_code_misplaced))).
  reflexivity.
Defined.
